(** * Overlap-aware block vectors: a shallow embedding of
      [ewoms/linear/overlappingblockvector.hh]

    The class [Ewoms::Linear::OverlappingBlockVector<FieldVector, Overlap>]
    is embedded as a record of its data members and one Rocq function per
    member function.  A member function maps the object before the call to
    the object after it; whatever the C++ standard leaves undefined (an
    access past the end of a buffer, dereferencing the null [shared_ptr]
    that [std::map::operator[]] creates for a missing key) and whatever the
    message-passing layer cannot deliver is an explicit [Fault].

    - [int], [Index] and [ProcessRank] values are integers ([Z]); the only
      arithmetic the class performs on them is the increment of a loop
      counter below a bound, so no wrap-around is involved.
    - [FieldVector] is the first template parameter.  The class only ever
      assigns [0.0] to a row and adds one row to another, so the embedding
      is generic in a type with these two operations and assumes no law
      about them: no statement below depends on the arithmetic of a block.
    - [Overlap] is the second template parameter.  Its member functions are
      the fields of a record; its implementation is not part of this file.
    - [MpiBuffer<T>] is a fixed-size array with [send], [receive] and
      [wait]; a buffer is the list of its entries, the messages a process
      receives during one call are a parameter of the call (its inbox), and
      the message a process sends to a peer is the content of the value
      send buffer of that peer after the send phase. *)

From stdpp Require Import base tactics option list gmap numbers.

Local Open Scope Z_scope.

(** ** Outcomes of a call *)

(** [typedef int ProcessRank; typedef int Index;] *)
Abbreviation ProcessRank := Z (only parsing).
Abbreviation Index := Z (only parsing).

Inductive fault : Type :=
  | UndefinedBehaviour
      (* out-of-range access, null buffer, negative buffer size *)
  | TransportFailure
      (* no message from the peer, or one whose size does not fit *)
  | FatalDiagnostic (peerRank : ProcessRank) (idx : Index).
      (* an exception carrying a peer rank and an index *)

Inductive outcome (A : Type) : Type :=
  | Ok (a : A)
  | Fault (f : fault).
Arguments Ok {A} a.
Arguments Fault {A} f.

Global Instance outcome_ret : MRet outcome := λ A a, Ok a.
Global Instance outcome_bind : MBind outcome := λ A B k m,
  match m with
  | Ok a => k a
  | Fault f => Fault f
  end.

Definition is_Ok {A} (m : outcome A) : Prop := ∃ a, m = Ok a.

(** [for (j = lo; j < lo + n; ++j) body] *)
Fixpoint for_ {St} (lo : nat) (n : nat) (body : nat → St → outcome St) (s : St)
  : outcome St :=
  match n with
  | O => Ok s
  | S n' => s' ← body lo s; for_ (S lo) n' body s'
  end.

(** [for (it = l.begin(); it != l.end(); ++it) body] *)
Fixpoint for_each {X St} (l : list X) (body : X → St → outcome St) (s : St)
  : outcome St :=
  match l with
  | [] => Ok s
  | x :: l' => s' ← body x s; for_each l' body s'
  end.

(** ** Arrays *)

(** [v[i]] for a signed index. *)
Definition vec_at {T} (v : list T) (i : Z) : outcome T :=
  if decide (0 ≤ i) then
    match v !! Z.to_nat i with
    | Some x => Ok x
    | None => Fault UndefinedBehaviour
    end
  else Fault UndefinedBehaviour.

(** [v[i] = x] for a signed index. *)
Definition vec_set {T} (v : list T) (i : Z) (x : T) : outcome (list T) :=
  if decide (0 ≤ i < Z.of_nat (length v)) then Ok (<[Z.to_nat i := x]> v)
  else Fault UndefinedBehaviour.

(** [v[j]] and [v[j] = x] for an unsigned index. *)
Definition buf_at {T} (v : list T) (j : nat) : outcome T :=
  match v !! j with
  | Some x => Ok x
  | None => Fault UndefinedBehaviour
  end.

Definition buf_set {T} (v : list T) (j : nat) (x : T) : outcome (list T) :=
  if decide (j < length v)%nat then Ok (<[j := x]> v)
  else Fault UndefinedBehaviour.

(** [*m[peerRank]] for a [std::map] of shared buffers: a missing key yields
    a null pointer, whose dereference is undefined. *)
Definition deref {T} (m : gmap ProcessRank T) (peerRank : ProcessRank)
  : outcome T :=
  match m !! peerRank with
  | Some b => Ok b
  | None => Fault UndefinedBehaviour
  end.

(** Modelled from the spec: [MpiBuffer<T>::receive] (the buffer class of
    [ewoms/parallel/mpibuffer.hh] is not among the sources).  The call
    blocks until the message of the peer is there, and lists travel in
    lockstep, position by position: the message replaces the content of
    the buffer, and it has to be there and to have the size of the
    buffer. *)
Definition receive {T} (buf : list T) (msg : option (list T))
  : outcome (list T) :=
  match msg with
  | Some m => if decide (length m = length buf) then Ok m
              else Fault TransportFailure
  | None => Fault TransportFailure
  end.

(** ** The template parameters *)

(** The operations of [FieldVector] the class uses: [row = 0.0] and
    [row += other]. *)
Class Block (F : Type) : Type := {
  zero : F;
  add : F → F → F
}.

Global Instance Z_Block : Block Z := {| zero := 0; add := Z.add |}.

(** Modelled from the spec: the member functions of the [Overlap]
    descriptor that the class calls, as its interface lists them (the
    descriptor itself is not among the sources).  [peerSet] is a
    [std::set<ProcessRank>]; the list is its iteration sequence. *)
Record Overlap : Type := {
  numDomestic : Z;
  numNative : Z;
  domesticToNative : Index → Index;
  nativeToDomestic : Index → Index;
  domesticToGlobal : Index → Index;
  globalToDomestic : Index → Index;
  peerSet : list ProcessRank;
  foreignOverlapSize : ProcessRank → Z;
  foreignOverlapOffsetToDomesticIdx : ProcessRank → Z → Index;
  masterRank : Index → ProcessRank;
  isBorderWith : Index → ProcessRank → bool;
  isLocal : Index → bool
}.

(** A descriptor whose peer set is iterated in another order. *)
Definition with_peerSet (l : list ProcessRank) (overlap : Overlap) : Overlap :=
  {| numDomestic := numDomestic overlap;
     numNative := numNative overlap;
     domesticToNative := domesticToNative overlap;
     nativeToDomestic := nativeToDomestic overlap;
     domesticToGlobal := domesticToGlobal overlap;
     globalToDomestic := globalToDomestic overlap;
     peerSet := l;
     foreignOverlapSize := foreignOverlapSize overlap;
     foreignOverlapOffsetToDomesticIdx :=
       foreignOverlapOffsetToDomesticIdx overlap;
     masterRank := masterRank overlap;
     isBorderWith := isBorderWith overlap;
     isLocal := isLocal overlap |}.

(** ** The class *)

Section OverlappingBlockVector.
Context {F : Type} `{Block F}.

(** [typedef Dune::BlockVector<FieldVector> BlockVector;] *)
Abbreviation BlockVector := (list F) (only parsing).

Record OverlappingBlockVector : Type := {
  rows : BlockVector;   (* the [Dune::BlockVector] the class derives from *)
  numIndicesSendBuff_ : gmap ProcessRank (list Z);
  indicesSendBuff_ : gmap ProcessRank (list Index);
  indicesRecvBuff_ : gmap ProcessRank (list Index);
  valuesSendBuff_ : gmap ProcessRank (list F);
  valuesRecvBuff_ : gmap ProcessRank (list F);
  overlap_ : Overlap
}.

Definition with_rows (r : BlockVector) (st : OverlappingBlockVector) :=
  {| rows := r;
     numIndicesSendBuff_ := numIndicesSendBuff_ st;
     indicesSendBuff_ := indicesSendBuff_ st;
     indicesRecvBuff_ := indicesRecvBuff_ st;
     valuesSendBuff_ := valuesSendBuff_ st;
     valuesRecvBuff_ := valuesRecvBuff_ st;
     overlap_ := overlap_ st |}.

Definition with_valuesSendBuff_ (m : gmap ProcessRank (list F))
    (st : OverlappingBlockVector) :=
  {| rows := rows st;
     numIndicesSendBuff_ := numIndicesSendBuff_ st;
     indicesSendBuff_ := indicesSendBuff_ st;
     indicesRecvBuff_ := indicesRecvBuff_ st;
     valuesSendBuff_ := m;
     valuesRecvBuff_ := valuesRecvBuff_ st;
     overlap_ := overlap_ st |}.

Definition with_valuesRecvBuff_ (m : gmap ProcessRank (list F))
    (st : OverlappingBlockVector) :=
  {| rows := rows st;
     numIndicesSendBuff_ := numIndicesSendBuff_ st;
     indicesSendBuff_ := indicesSendBuff_ st;
     indicesRecvBuff_ := indicesRecvBuff_ st;
     valuesSendBuff_ := valuesSendBuff_ st;
     valuesRecvBuff_ := m;
     overlap_ := overlap_ st |}.

Definition with_numIndicesSendBuff_ (m : gmap ProcessRank (list Z))
    (st : OverlappingBlockVector) :=
  {| rows := rows st;
     numIndicesSendBuff_ := m;
     indicesSendBuff_ := indicesSendBuff_ st;
     indicesRecvBuff_ := indicesRecvBuff_ st;
     valuesSendBuff_ := valuesSendBuff_ st;
     valuesRecvBuff_ := valuesRecvBuff_ st;
     overlap_ := overlap_ st |}.

Definition with_indicesSendBuff_ (m : gmap ProcessRank (list Index))
    (st : OverlappingBlockVector) :=
  {| rows := rows st;
     numIndicesSendBuff_ := numIndicesSendBuff_ st;
     indicesSendBuff_ := m;
     indicesRecvBuff_ := indicesRecvBuff_ st;
     valuesSendBuff_ := valuesSendBuff_ st;
     valuesRecvBuff_ := valuesRecvBuff_ st;
     overlap_ := overlap_ st |}.

Definition with_indicesRecvBuff_ (m : gmap ProcessRank (list Index))
    (st : OverlappingBlockVector) :=
  {| rows := rows st;
     numIndicesSendBuff_ := numIndicesSendBuff_ st;
     indicesSendBuff_ := indicesSendBuff_ st;
     indicesRecvBuff_ := m;
     valuesSendBuff_ := valuesSendBuff_ st;
     valuesRecvBuff_ := valuesRecvBuff_ st;
     overlap_ := overlap_ st |}.

(** The index plans of an object: what [createBuffers_] builds. *)
Definition plans (st : OverlappingBlockVector) :=
  (numIndicesSendBuff_ st, indicesSendBuff_ st, indicesRecvBuff_ st).

(** *** [createBuffers_] (the [HAVE_MPI] branch) and the constructor *)

(** What a peer sends during the handshake: the number of its indices, then
    the indices. *)
Record Handshake : Type := {
  countMsg : option (list Z);
  indicesMsg : option (list Index)
}.

(** Modelled from the spec: the constructor [MpiBuffer<T>(n)], a buffer of
    [n] entries.  The entries of a new buffer are not initialised; [fresh]
    stands for them, and every entry is written before it is read. *)
Definition newBuffer {T} (n : Z) (fresh : T) : outcome (list T) :=
  if decide (n < 0) then Fault UndefinedBehaviour
  else Ok (replicate (Z.to_nat n) fresh).

(** The bodies of the three loops of [createBuffers_]: send the indices to
    a peer, receive the indices of a peer, wait for the send operations. *)
Definition createBuffers_send_ (peerRank : ProcessRank)
    (st : OverlappingBlockVector) : outcome OverlappingBlockVector :=
  let numEntries := foreignOverlapSize (overlap_ st) peerRank in
  numIndicesSendBuff ← newBuffer 1 0;
  indicesSendBuff0 ← newBuffer numEntries 0;
  valuesSendBuff ← newBuffer numEntries zero;
  (* fill the indices buffer with global indices *)
  indicesSendBuff ← for_ 0 (Z.to_nat numEntries) (λ i buf,
      let domRowIdx :=
        foreignOverlapOffsetToDomesticIdx (overlap_ st) peerRank (Z.of_nat i) in
      buf_set buf i (domesticToGlobal (overlap_ st) domRowIdx)) indicesSendBuff0;
  numIndicesSendBuff ← buf_set numIndicesSendBuff 0 numEntries;
  (* both buffers are sent *)
  Ok (with_numIndicesSendBuff_
        (<[peerRank := numIndicesSendBuff]> (numIndicesSendBuff_ st))
     (with_indicesSendBuff_
        (<[peerRank := indicesSendBuff]> (indicesSendBuff_ st))
     (with_valuesSendBuff_
        (<[peerRank := valuesSendBuff]> (valuesSendBuff_ st)) st))).

Definition createBuffers_receive_ (inbox : ProcessRank → Handshake)
    (peerRank : ProcessRank) (st : OverlappingBlockVector)
  : outcome OverlappingBlockVector :=
  numRowsRecvBuff0 ← newBuffer 1 0;
  numRowsRecvBuff ← receive numRowsRecvBuff0 (countMsg (inbox peerRank));
  numRows ← buf_at numRowsRecvBuff 0;
  indicesRecvBuff0 ← newBuffer numRows 0;
  valuesRecvBuff ← newBuffer numRows zero;
  indicesRecvBuff1 ← receive indicesRecvBuff0 (indicesMsg (inbox peerRank));
  (* translate the global indices to domestic ones *)
  indicesRecvBuff ← for_ 0 (Z.to_nat numRows) (λ i buf,
      globalRowIdx ← buf_at buf i;
      let domRowIdx := globalToDomestic (overlap_ st) globalRowIdx in
      buf_set buf i domRowIdx) indicesRecvBuff1;
  Ok (with_indicesRecvBuff_
        (<[peerRank := indicesRecvBuff]> (indicesRecvBuff_ st))
     (with_valuesRecvBuff_
        (<[peerRank := valuesRecvBuff]> (valuesRecvBuff_ st)) st)).

Definition createBuffers_wait_ (peerRank : ProcessRank)
    (st : OverlappingBlockVector) : outcome OverlappingBlockVector :=
  _ ← deref (numIndicesSendBuff_ st) peerRank;
  indicesSendBuff0 ← deref (indicesSendBuff_ st) peerRank;
  (* convert the global indices of the send buffer to domestic ones *)
  indicesSendBuff ← for_ 0 (length indicesSendBuff0) (λ i buf,
      g ← buf_at buf i;
      buf_set buf i (globalToDomestic (overlap_ st) g)) indicesSendBuff0;
  Ok (with_indicesSendBuff_
        (<[peerRank := indicesSendBuff]> (indicesSendBuff_ st)) st).

Definition createBuffers_ (inbox : ProcessRank → Handshake)
    (st : OverlappingBlockVector) : outcome OverlappingBlockVector :=
  st1 ← for_each (peerSet (overlap_ st)) createBuffers_send_ st;
  st2 ← for_each (peerSet (overlap_ st)) (createBuffers_receive_ inbox) st1;
  for_each (peerSet (overlap_ st)) createBuffers_wait_ st2.

(** [OverlappingBlockVector(const Overlap &overlap)].  The rows of the new
    [Dune::BlockVector] are not initialised; [zero] stands for them. *)
Definition OverlappingBlockVector_ (inbox : ProcessRank → Handshake)
    (overlap : Overlap) : outcome OverlappingBlockVector :=
  rows0 ← newBuffer (numDomestic overlap) zero;
  createBuffers_ inbox
    {| rows := rows0;
       numIndicesSendBuff_ := ∅;
       indicesSendBuff_ := ∅;
       indicesRecvBuff_ := ∅;
       valuesSendBuff_ := ∅;
       valuesRecvBuff_ := ∅;
       overlap_ := overlap |}.

(** [createBuffers_] and the constructor when [HAVE_MPI] is not set: the
    body of [createBuffers_] is empty, and no buffer is created. *)
Definition createBuffers_noMPI_ (st : OverlappingBlockVector)
  : outcome OverlappingBlockVector :=
  Ok st.

Definition OverlappingBlockVector_noMPI_ (overlap : Overlap)
  : outcome OverlappingBlockVector :=
  rows0 ← newBuffer (numDomestic overlap) zero;
  createBuffers_noMPI_
    {| rows := rows0;
       numIndicesSendBuff_ := ∅;
       indicesSendBuff_ := ∅;
       indicesRecvBuff_ := ∅;
       valuesSendBuff_ := ∅;
       valuesRecvBuff_ := ∅;
       overlap_ := overlap |}.

(** The value messages a process finds during one call, by sending peer. *)
Abbreviation Inbox := (Z → option (list F)) (only parsing).

(** *** [sendEntries_] *)

Definition sendEntries_ (peerRank : ProcessRank) (st : OverlappingBlockVector)
  : outcome OverlappingBlockVector :=
  indices ← deref (indicesSendBuff_ st) peerRank;
  values ← deref (valuesSendBuff_ st) peerRank;
  values' ← for_ 0 (length indices) (λ i values,
      idx ← buf_at indices i;
      v ← vec_at (rows st) idx;
      buf_set values i v) values;
  (* values.send(peerRank) *)
  Ok (with_valuesSendBuff_ (<[peerRank := values']> (valuesSendBuff_ st)) st).

(** *** [waitSendFinished_] *)

Definition waitSendFinished_ (st : OverlappingBlockVector)
  : outcome OverlappingBlockVector :=
  for_each (peerSet (overlap_ st)) (λ peerRank st,
      _ ← deref (valuesSendBuff_ st) peerRank;
      Ok st) st.

(** *** The three receive policies *)

Definition receiveFromMaster_ (inbox : Inbox) (peerRank : ProcessRank)
    (st : OverlappingBlockVector) : outcome OverlappingBlockVector :=
  indices ← deref (indicesRecvBuff_ st) peerRank;
  values0 ← deref (valuesRecvBuff_ st) peerRank;
  values ← receive values0 (inbox peerRank);
  rows' ← for_ 0 (length indices) (λ j rows,
      domRowIdx ← buf_at indices j;
      if decide (masterRank (overlap_ st) domRowIdx = peerRank) then
        v ← buf_at values j;
        vec_set rows domRowIdx v
      else Ok rows) (rows st);
  Ok (with_rows rows'
        (with_valuesRecvBuff_ (<[peerRank := values]> (valuesRecvBuff_ st)) st)).

Definition receiveAddBorder_ (inbox : Inbox) (peerRank : ProcessRank)
    (st : OverlappingBlockVector) : outcome OverlappingBlockVector :=
  indices ← deref (indicesRecvBuff_ st) peerRank;
  values0 ← deref (valuesRecvBuff_ st) peerRank;
  values ← receive values0 (inbox peerRank);
  rows' ← for_ 0 (length indices) (λ j rows,
      domRowIdx ← buf_at indices j;
      if isBorderWith (overlap_ st) domRowIdx peerRank then
        old ← vec_at rows domRowIdx;
        v ← buf_at values j;
        vec_set rows domRowIdx (add old v)
      else
        v ← buf_at values j;
        vec_set rows domRowIdx v) (rows st);
  Ok (with_rows rows'
        (with_valuesRecvBuff_ (<[peerRank := values]> (valuesRecvBuff_ st)) st)).

Definition receiveAdd_ (inbox : Inbox) (peerRank : ProcessRank)
    (st : OverlappingBlockVector) : outcome OverlappingBlockVector :=
  indices ← deref (indicesRecvBuff_ st) peerRank;
  values0 ← deref (valuesRecvBuff_ st) peerRank;
  values ← receive values0 (inbox peerRank);
  rows' ← for_ 0 (length indices) (λ j rows,
      domRowIdx ← buf_at indices j;
      old ← vec_at rows domRowIdx;
      v ← buf_at values j;
      vec_set rows domRowIdx (add old v)) (rows st);
  Ok (with_rows rows'
        (with_valuesRecvBuff_ (<[peerRank := values]> (valuesRecvBuff_ st)) st)).

(** *** [sync], [syncAdd], [syncAddBorder] *)

(** The first loop of [sync], [syncAdd] and [syncAddBorder]: send all
    entries to all peers. *)
Definition sendAll_ (st : OverlappingBlockVector)
  : outcome OverlappingBlockVector :=
  for_each (peerSet (overlap_ st)) sendEntries_ st.

Definition sync (inbox : Inbox) (st : OverlappingBlockVector)
  : outcome OverlappingBlockVector :=
  st1 ← sendAll_ st;
  st2 ← for_each (peerSet (overlap_ st)) (receiveFromMaster_ inbox) st1;
  waitSendFinished_ st2.

Definition syncAdd (inbox : Inbox) (st : OverlappingBlockVector)
  : outcome OverlappingBlockVector :=
  st1 ← sendAll_ st;
  st2 ← for_each (peerSet (overlap_ st)) (receiveAdd_ inbox) st1;
  waitSendFinished_ st2.

Definition syncAddBorder (inbox : Inbox) (st : OverlappingBlockVector)
  : outcome OverlappingBlockVector :=
  st1 ← sendAll_ st;
  st2 ← for_each (peerSet (overlap_ st)) (receiveAddBorder_ inbox) st1;
  waitSendFinished_ st2.

(** *** [assign], [assignAddBorder], [assignTo] *)

(** The loop that opens [assign] and [assignAddBorder]. *)
Definition assignLocalRows_ (nativeBlockVector : BlockVector)
    (st : OverlappingBlockVector) : outcome OverlappingBlockVector :=
  rows' ← for_ 0 (Z.to_nat (numDomestic (overlap_ st))) (λ k rows,
      let domRowIdx := Z.of_nat k in
      let nativeRowIdx := domesticToNative (overlap_ st) domRowIdx in
      if decide (nativeRowIdx < 0) then vec_set rows domRowIdx zero
      else
        v ← vec_at nativeBlockVector nativeRowIdx;
        vec_set rows domRowIdx v) (rows st);
  Ok (with_rows rows' st).

Definition assign (inbox : Inbox) (nativeBlockVector : BlockVector)
    (st : OverlappingBlockVector) : outcome OverlappingBlockVector :=
  st1 ← assignLocalRows_ nativeBlockVector st;
  sync inbox st1.

Definition assignAddBorder (inbox : Inbox) (nativeBlockVector : BlockVector)
    (st : OverlappingBlockVector) : outcome OverlappingBlockVector :=
  st1 ← assignLocalRows_ nativeBlockVector st;
  syncAddBorder inbox st1.

(** [nativeBlockVector.resize(n)]: a vector of [n] entries.  What they hold
    is of no consequence, since the loop of [assignTo] writes every one of
    them; here the old entries are kept and [fresh] fills the new ones. *)
Definition resize (n : nat) (fresh : F) (v : BlockVector) : BlockVector :=
  take n v ++ replicate (n - length v) fresh.

(** [assignTo] is a [const] member function: the object is returned as it
    was, next to the vector written through the reference argument. *)
Definition assignTo (nativeBlockVector : BlockVector)
    (st : OverlappingBlockVector)
  : outcome (OverlappingBlockVector * BlockVector) :=
  let numNative := numNative (overlap_ st) in
  if decide (numNative < 0) then Fault UndefinedBehaviour else
  target ← for_ 0 (Z.to_nat numNative) (λ k target,
      let nativeRowIdx := Z.of_nat k in
      let domRowIdx := nativeToDomestic (overlap_ st) nativeRowIdx in
      if decide (domRowIdx < 0) then vec_set target nativeRowIdx zero
      else
        v ← vec_at (rows st) domRowIdx;
        vec_set target nativeRowIdx v)
    (resize (Z.to_nat numNative) zero nativeBlockVector);
  Ok (st, target).

(** ** Several processes

    Modelled from the spec: the point-to-point channel, which hands a
    process the messages of a peer in the order the peer sent them.  Every
    process runs the same member function (the calls are collective).  A
    process copies its rows into its send buffers before it receives
    anything, so what process [q] sends to [p] during a call is fixed by the
    object of [q] at the start of its send phase. *)

Abbreviation World := (gmap Z OverlappingBlockVector) (only parsing).

(** The message [st] sends to [peerRank] during one synchronisation. *)
Definition sent_to (st : OverlappingBlockVector) (peerRank : ProcessRank)
  : option (list F) :=
  if decide (peerRank ∈ peerSet (overlap_ st)) then
    match sendAll_ st with
    | Ok st1 => valuesSendBuff_ st1 !! peerRank
    | Fault _ => None
    end
  else None.

(** The inbox of process [p] when all processes of [W] call [sync],
    [syncAdd] or [syncAddBorder]. *)
Definition inbox_sync (W : World) (p : ProcessRank) : Inbox :=
  λ q, match W !! q with
       | Some st => sent_to st p
       | None => None
       end.

(** The inbox of process [p] when every process [q] of [W] calls [assign]
    or [assignAddBorder] on its native vector [V q]. *)
Definition inbox_assign (W : World) (V : ProcessRank → BlockVector)
    (p : ProcessRank) : Inbox :=
  λ q, match W !! q with
       | Some st =>
           match assignLocalRows_ (V q) st with
           | Ok st1 => sent_to st1 p
           | Fault _ => None
           end
       | None => None
       end.

(** [W'] holds the objects of [W] after a collective [sync] that returned
    on every process. *)
Definition collective_sync (W W' : World) : Prop :=
  ∀ p, match W !! p with
       | Some st => ∃ st', sync (inbox_sync W p) st = Ok st' ∧ W' !! p = Some st'
       | None => W' !! p = None
       end.

(** The same for a collective [assign]. *)
Definition collective_assign (V : ProcessRank → BlockVector) (W W' : World)
  : Prop :=
  ∀ p, match W !! p with
       | Some st =>
           ∃ st', assign (inbox_assign W V p) (V p) st = Ok st'
                  ∧ W' !! p = Some st'
       | None => W' !! p = None
       end.

(** What the descriptors of the processes have to agree on.  The send plan
    of [q] for [p] and the receive plan of [p] for [q] list the same rows
    position by position, a row that [p] takes from [q] is owned by [q]
    according to [q] as well, no process is its own peer, and a row owned
    by another process is in the plan received from that process. *)
Record coherent (W : World) : Prop := {
  coh_self : ∀ p st, W !! p = Some st → p ∉ peerSet (overlap_ st);
  coh_plan : ∀ p q st indices j d,
    W !! p = Some st → q ∈ peerSet (overlap_ st) →
    indicesRecvBuff_ st !! q = Some indices → indices !! j = Some d →
    masterRank (overlap_ st) d = q →
    ∃ stq indicesq d',
      W !! q = Some stq ∧ indicesSendBuff_ stq !! p = Some indicesq
      ∧ indicesq !! j = Some d'
      ∧ domesticToGlobal (overlap_ stq) d' = domesticToGlobal (overlap_ st) d
      ∧ masterRank (overlap_ stq) d' = q;
  coh_cover : ∀ p st d,
    W !! p = Some st → 0 ≤ d < numDomestic (overlap_ st) →
    masterRank (overlap_ st) d ≠ p →
    masterRank (overlap_ st) d ∈ peerSet (overlap_ st)
    ∧ ∃ indices j,
        indicesRecvBuff_ st !! masterRank (overlap_ st) d = Some indices
        ∧ indices !! j = Some d
}.

(** ** The merge policies as the specification words them

    One incoming pair of a row and a value, from [peerRank]. *)

(** "ADD the incoming value to the current local value"; a negative index
    names no row. *)
Definition merge_add (rows : BlockVector) (entry : Index * F) : BlockVector :=
  if decide (0 ≤ entry.1)
  then alter (λ old, add old entry.2) (Z.to_nat entry.1) rows
  else rows.

(** "OVERWRITE with the incoming value" *)
Definition merge_overwrite (rows : BlockVector) (entry : Index * F)
  : BlockVector :=
  if decide (0 ≤ entry.1) then <[Z.to_nat entry.1 := entry.2]> rows else rows.

(** "if the row is a recognized border row shared with the sending peer, ADD
    [...]; otherwise OVERWRITE" *)
Definition merge_add_border (overlap : Overlap) (peerRank : ProcessRank)
    (rows : BlockVector) (entry : Index * F) : BlockVector :=
  if isBorderWith overlap entry.1 peerRank then merge_add rows entry
  else merge_overwrite rows entry.

(** "overwrite the local domestic row ONLY if the sending peer is that row's
    master rank" *)
Definition merge_from_master (overlap : Overlap) (peerRank : ProcessRank)
    (rows : BlockVector) (entry : Index * F) : BlockVector :=
  if decide (masterRank overlap entry.1 = peerRank)
  then merge_overwrite rows entry
  else rows.

(** The pairs one peer contributes: its receive plan next to its message. *)
Definition incoming (st : OverlappingBlockVector) (inbox : Inbox)
    (peerRank : ProcessRank) : list (Index * F) :=
  zip (default [] (indicesRecvBuff_ st !! peerRank))
      (default [] (inbox peerRank)).

(** All peers in the order of the peer set, each plan in its own order. *)
Definition merge_all (policy : ProcessRank → BlockVector → Index * F → BlockVector)
    (st : OverlappingBlockVector) (inbox : Inbox) : BlockVector :=
  foldl (λ rows peerRank, foldl (policy peerRank) rows (incoming st inbox peerRank))
        (rows st) (peerSet (overlap_ st)).

(** The writes among the pairs of one peer under the overwrite-from-master
    policy, and those of a whole call. *)
Definition master_write (overlap : Overlap) (peerRank : ProcessRank)
    (entry : Index * F) : option (nat * F) :=
  if decide (masterRank overlap entry.1 = peerRank ∧ 0 ≤ entry.1)
  then Some (Z.to_nat entry.1, entry.2)
  else None.

Definition master_writes (st : OverlappingBlockVector) (inbox : Inbox)
  : list (nat * F) :=
  peerRank ← peerSet (overlap_ st);
  omap (master_write (overlap_ st) peerRank) (incoming st inbox peerRank).

Definition write_all (rows : BlockVector) (writes : list (nat * F))
  : BlockVector :=
  foldl (λ rows w, <[w.1 := w.2]> rows) rows writes.

(** Two objects of the same shape: the same descriptor and plans, buffers
    and rows of the same sizes. *)
Definition same_sizes (m1 m2 : gmap ProcessRank (list F)) : Prop :=
  ∀ peerRank, length <$> m1 !! peerRank = length <$> m2 !! peerRank.

Record same_shape (st1 st2 : OverlappingBlockVector) : Prop := {
  shape_overlap : overlap_ st1 = overlap_ st2;
  shape_plans : plans st1 = plans st2;
  shape_rows : length (rows st1) = length (rows st2);
  shape_send : same_sizes (valuesSendBuff_ st1) (valuesSendBuff_ st2);
  shape_recv : same_sizes (valuesRecvBuff_ st1) (valuesRecvBuff_ st2)
}.

(** What one receive leaves untouched, whatever the policy. *)
Definition receive_frame (inbox : Inbox) (peerRank : ProcessRank)
    (st st' : OverlappingBlockVector) : Prop :=
  overlap_ st' = overlap_ st ∧ plans st' = plans st
  ∧ valuesSendBuff_ st' = valuesSendBuff_ st
  ∧ length (rows st') = length (rows st)
  ∧ ∃ values0 values,
      valuesRecvBuff_ st !! peerRank = Some values0
      ∧ inbox peerRank = Some values ∧ length values = length values0
      ∧ valuesRecvBuff_ st' = <[peerRank := values]> (valuesRecvBuff_ st).

(** What [sendEntries_] leaves in a value send buffer: the rows the send
    plan lists, position by position; the entries past the end of the plan
    stay as they were. *)
Definition sent_values (st : OverlappingBlockVector) (indices : list Index)
    (values0 values : list F) : Prop :=
  length values = length values0
  ∧ (∀ i idx, indices !! i = Some idx →
       0 ≤ idx ∧ is_Some (values !! i)
       ∧ values !! i = rows st !! Z.to_nat idx)
  ∧ (∀ i, (length indices ≤ i)%nat → values !! i = values0 !! i).

Definition send_done (st cur : OverlappingBlockVector) (peerRank : ProcessRank)
  : Prop :=
  ∃ indices values0 values,
    indicesSendBuff_ st !! peerRank = Some indices
    ∧ valuesSendBuff_ st !! peerRank = Some values0
    ∧ valuesSendBuff_ cur !! peerRank = Some values
    ∧ sent_values st indices values0 values.

(** What the send phase leaves untouched. *)
Definition send_frame (st st' : OverlappingBlockVector) : Prop :=
  rows st' = rows st ∧ overlap_ st' = overlap_ st ∧ plans st' = plans st
  ∧ valuesRecvBuff_ st' = valuesRecvBuff_ st.

(** Two inboxes that differ at most in what a peer sends for rows it is not
    the master of. *)
Definition agree_on_master (st : OverlappingBlockVector) (inbox inbox' : Inbox)
  : Prop :=
  ∀ peerRank, peerRank ∈ peerSet (overlap_ st) →
    length <$> inbox peerRank = length <$> inbox' peerRank
    ∧ ∀ indices j d,
        indicesRecvBuff_ st !! peerRank = Some indices →
        indices !! j = Some d →
        masterRank (overlap_ st) d = peerRank →
        (inbox peerRank ≫= λ values, values !! j)
        = (inbox' peerRank ≫= λ values, values !! j).

(** The value [assign] copies into domestic row [d], and the value
    [assignTo] copies into native row [n]. *)
Definition local_row (overlap : Overlap) (nativeBlockVector : BlockVector)
    (d : Index) : option F :=
  if decide (domesticToNative overlap d < 0) then Some zero
  else nativeBlockVector !! Z.to_nat (domesticToNative overlap d).

Definition native_row (st : OverlappingBlockVector) (n : Index) : option F :=
  if decide (nativeToDomestic (overlap_ st) n < 0) then Some zero
  else rows st !! Z.to_nat (nativeToDomestic (overlap_ st) n).

(** A call that does not end in a diagnostic. *)
Definition quiet {A} (m : outcome A) : Prop :=
  ∀ peerRank idx, m ≠ Fault (FatalDiagnostic peerRank idx).

(** A handshake as [createBuffers_] of the peer sends it: a count and as
    many indices. *)
Definition well_formed (h : Handshake) (indices : list Index) : Prop :=
  countMsg h = Some [Z.of_nat (length indices)]
  ∧ indicesMsg h = Some indices.

(** The index send buffers of the given peers exist. *)
Definition send_plans_exist (st : OverlappingBlockVector)
    (l : list ProcessRank) : Prop :=
  ∀ p, p ∈ l → is_Some (numIndicesSendBuff_ st !! p)
               ∧ is_Some (indicesSendBuff_ st !! p).

(** The row a process takes from a peer as the master of the row is a row
    that this peer takes from no one. *)
Definition masters_keep (W : World) : Prop :=
  ∀ p q st stq indices indicesq j d d',
    W !! p = Some st → W !! q = Some stq →
    q ∈ peerSet (overlap_ st) →
    indicesRecvBuff_ st !! q = Some indices → indices !! j = Some d →
    masterRank (overlap_ st) d = q →
    indicesSendBuff_ stq !! p = Some indicesq → indicesq !! j = Some d' →
    masterRank (overlap_ stq) d' ∉ peerSet (overlap_ stq).

(** The positions of the receive plan for [q] whose value a receive policy
    uses: those of the rows [q] is the master of, or all of them. *)
Definition needs_master (overlap : Overlap) (q : ProcessRank) (d : Index)
  : Prop :=
  masterRank overlap d = q.

Definition needs_all (overlap : Overlap) (q : ProcessRank) (d : Index)
  : Prop :=
  True.

(** The message of [q] is there, and it has a value for every position the
    policy uses, whose row exists. *)
Definition reads (needs : Overlap → ProcessRank → Index → Prop)
    (st : OverlappingBlockVector) (inbox : Inbox) (q : ProcessRank) : Prop :=
  ∃ values,
    inbox q = Some values
    ∧ ∀ indices j d,
        indicesRecvBuff_ st !! q = Some indices → indices !! j = Some d →
        needs (overlap_ st) q d →
        is_Some (values !! j) ∧ 0 ≤ d < Z.of_nat (length (rows st)).

(** What a call needs in order to return: for every peer, the send plan
    names rows that exist and fits the value send buffer, the receive
    buffers are there, and the message of the peer has the size of the
    value receive buffer and a value wherever the policy uses one. *)
Definition can_send (st : OverlappingBlockVector) (p : ProcessRank) : Prop :=
  ∃ indices values,
    indicesSendBuff_ st !! p = Some indices
    ∧ valuesSendBuff_ st !! p = Some values
    ∧ (length indices ≤ length values)%nat
    ∧ ∀ i idx, indices !! i = Some idx →
        0 ≤ idx < Z.of_nat (length (rows st)).

Definition can_receive (needs : Overlap → ProcessRank → Index → Prop)
    (st : OverlappingBlockVector) (inbox : Inbox) (p : ProcessRank) : Prop :=
  (∃ indices values0 values,
     indicesRecvBuff_ st !! p = Some indices
     ∧ valuesRecvBuff_ st !! p = Some values0
     ∧ inbox p = Some values ∧ length values = length values0)
  ∧ reads needs st inbox p.

Definition ready (needs : Overlap → ProcessRank → Index → Prop)
    (st : OverlappingBlockVector) (inbox : Inbox) : Prop :=
  ∀ p, p ∈ peerSet (overlap_ st) →
    can_send st p ∧ can_receive needs st inbox p.

(** ** Further notions for the statements below *)

(** A call that runs into undefined behaviour if it does not return. *)
Definition undefined_at_worst {A} (m : outcome A) : Prop :=
  ∀ f, m = Fault f → f = UndefinedBehaviour.

(** No receive plan of a peer lists row [d]. *)
Definition unlisted (st : OverlappingBlockVector) (d : Index) : Prop :=
  ∀ q indices j,
    q ∈ peerSet (overlap_ st) → indicesRecvBuff_ st !! q = Some indices →
    indices !! j ≠ Some d.

(** The receive plans of the peers list row [d] once: at position [j] of
    the plan for [q]. *)
Definition listed_once (st : OverlappingBlockVector) (q : ProcessRank)
    (j : nat) (d : Index) : Prop :=
  q ∈ peerSet (overlap_ st)
  ∧ (∃ indices, indicesRecvBuff_ st !! q = Some indices ∧ indices !! j = Some d)
  ∧ ∀ q' indices' j',
      q' ∈ peerSet (overlap_ st) → indicesRecvBuff_ st !! q' = Some indices' →
      indices' !! j' = Some d → q' = q ∧ j' = j.

(** The global indices of the rows that a process sends to [peerRank], in the
    order of their offsets: what the first loop of [createBuffers_] writes
    into the index send buffer. *)
Definition foreignOverlapGlobalIndices (overlap : Overlap)
    (peerRank : ProcessRank) : list Index :=
  (λ i : nat,
     domesticToGlobal overlap
       (foreignOverlapOffsetToDomesticIdx overlap peerRank (Z.of_nat i)))
  <$> seq 0 (Z.to_nat (foreignOverlapSize overlap peerRank)).

(** What the send buffers of [peerRank] hold while the handshake
    travels. *)
Definition announced (st : OverlappingBlockVector) (peerRank : ProcessRank)
  : Prop :=
  0 ≤ foreignOverlapSize (overlap_ st) peerRank
  ∧ numIndicesSendBuff_ st !! peerRank
    = Some [foreignOverlapSize (overlap_ st) peerRank]
  ∧ indicesSendBuff_ st !! peerRank
    = Some (foreignOverlapGlobalIndices (overlap_ st) peerRank)
  ∧ valuesSendBuff_ st !! peerRank
    = Some (replicate (Z.to_nat (foreignOverlapSize (overlap_ st) peerRank))
              zero).

(** What the loop that opens [assign] and [assignAddBorder] needs: the
    domestic rows exist, and so do the native rows they translate to. *)
Definition can_copy (nativeBlockVector : list F)
    (st : OverlappingBlockVector) : Prop :=
  numDomestic (overlap_ st) ≤ Z.of_nat (length (rows st))
  ∧ ∀ d, 0 ≤ d < numDomestic (overlap_ st) →
      domesticToNative (overlap_ st) d < Z.of_nat (length nativeBlockVector).

(** What the loop of [assignTo] needs: the domestic rows that the native
    rows translate to exist. *)
Definition can_export (st : OverlappingBlockVector) : Prop :=
  0 ≤ numNative (overlap_ st)
  ∧ ∀ n, 0 ≤ n < numNative (overlap_ st) →
      nativeToDomestic (overlap_ st) n < Z.of_nat (length (rows st)).

(** The object with another descriptor. *)
Definition with_overlap_ (overlap : Overlap) (st : OverlappingBlockVector) :=
  {| rows := rows st;
     numIndicesSendBuff_ := numIndicesSendBuff_ st;
     indicesSendBuff_ := indicesSendBuff_ st;
     indicesRecvBuff_ := indicesRecvBuff_ st;
     valuesSendBuff_ := valuesSendBuff_ st;
     valuesRecvBuff_ := valuesRecvBuff_ st;
     overlap_ := overlap |}.

(** A merge policy that leaves alone every row but the one its pair
    names. *)
Definition row_local (policy : list F → Index * F → list F) : Prop :=
  ∀ rows (e : Index * F) k,
    e.1 < 0 ∨ Z.to_nat e.1 ≠ k → policy rows e !! k = rows !! k.

(** The handshake a process with descriptor [overlap] sends to [peerRank]
    while it constructs its object: the two index send buffers for this
    peer as the first loop of [createBuffers_] leaves them. *)
Definition handshake_sent (overlap : Overlap) (peerRank : ProcessRank)
  : Handshake :=
  match for_each (peerSet overlap) createBuffers_send_
          {| rows := ([] : list F);
             numIndicesSendBuff_ := ∅; indicesSendBuff_ := ∅;
             indicesRecvBuff_ := ∅; valuesSendBuff_ := ∅;
             valuesRecvBuff_ := ∅; overlap_ := overlap |} with
  | Ok st => {| countMsg := numIndicesSendBuff_ st !! peerRank;
                indicesMsg := indicesSendBuff_ st !! peerRank |}
  | Fault _ => {| countMsg := None; indicesMsg := None |}
  end.

End OverlappingBlockVector.

Arguments OverlappingBlockVector F : clear implicits.

(** ** The calls on a constructed object

    The member functions that a client calls on an object once it is
    constructed, each with its arguments, and a sequence of such calls in
    program order.  [assignTo] fills its argument; the object goes on to
    the next call. *)
Section Calls.
Context {F : Type} `{Block F}.

Inductive Call : Type :=
  | CallSync (inbox : Z → option (list F))
  | CallSyncAdd (inbox : Z → option (list F))
  | CallSyncAddBorder (inbox : Z → option (list F))
  | CallAssign (inbox : Z → option (list F)) (nativeBlockVector : list F)
  | CallAssignAddBorder (inbox : Z → option (list F))
      (nativeBlockVector : list F)
  | CallAssignTo (nativeBlockVector : list F).

Definition call (c : Call) (st : OverlappingBlockVector F)
  : outcome (OverlappingBlockVector F) :=
  match c with
  | CallSync inbox => sync inbox st
  | CallSyncAdd inbox => syncAdd inbox st
  | CallSyncAddBorder inbox => syncAddBorder inbox st
  | CallAssign inbox nativeBlockVector => assign inbox nativeBlockVector st
  | CallAssignAddBorder inbox nativeBlockVector =>
      assignAddBorder inbox nativeBlockVector st
  | CallAssignTo nativeBlockVector =>
      x ← assignTo nativeBlockVector st; Ok x.1
  end.

Definition calls (cs : list Call) (st : OverlappingBlockVector F)
  : outcome (OverlappingBlockVector F) :=
  for_each cs call st.

End Calls.

Arguments Call F : clear implicits.

(** ** A partition into two processes

    Three rows, known to both processes by their global indices: row 10 is
    interior to process 0, row 20 is interior to process 1, and row 7 lies
    on the border, with process 0 as its master.  Each process holds the
    interior row of the other one as an overlap row without a native
    counterpart. *)
Module TwoProcesses.

Definition overlap0 : Overlap := {|
  numDomestic := 3;
  numNative := 2;
  domesticToNative := λ d, if decide (d = 0) then 0 else
                           if decide (d = 1) then 1 else -1;
  nativeToDomestic := λ n, if decide (n = 0) then 0 else
                           if decide (n = 1) then 1 else -1;
  domesticToGlobal := λ d, if decide (d = 0) then 10 else
                           if decide (d = 1) then 7 else 20;
  globalToDomestic := λ g, if decide (g = 10) then 0 else
                           if decide (g = 7) then 1 else
                           if decide (g = 20) then 2 else -1;
  peerSet := [1];
  foreignOverlapSize := λ peer, if decide (peer = 1) then 2 else 0;
  foreignOverlapOffsetToDomesticIdx := λ peer i, if decide (i = 0) then 1 else 0;
  masterRank := λ d, if decide (d = 2) then 1 else 0;
  isBorderWith := λ d peer, bool_decide (d = 1 ∧ peer = 1);
  isLocal := λ d, bool_decide (d ≠ 2)
|}.

Definition overlap1 : Overlap := {|
  numDomestic := 3;
  numNative := 2;
  domesticToNative := λ d, if decide (d = 0) then 0 else
                           if decide (d = 1) then 1 else -1;
  nativeToDomestic := λ n, if decide (n = 0) then 0 else
                           if decide (n = 1) then 1 else -1;
  domesticToGlobal := λ d, if decide (d = 0) then 7 else
                           if decide (d = 1) then 20 else 10;
  globalToDomestic := λ g, if decide (g = 7) then 0 else
                           if decide (g = 20) then 1 else
                           if decide (g = 10) then 2 else -1;
  peerSet := [0];
  foreignOverlapSize := λ peer, if decide (peer = 0) then 2 else 0;
  foreignOverlapOffsetToDomesticIdx := λ peer i, if decide (i = 0) then 0 else 1;
  masterRank := λ d, if decide (d = 1) then 1 else 0;
  isBorderWith := λ d peer, bool_decide (d = 0 ∧ peer = 0);
  isLocal := λ d, bool_decide (d = 1)
|}.

(** The handshake message of a process with descriptor [overlap] for
    [peerRank]: its two index send buffers after the send loop of
    [createBuffers_]. *)
Definition handshake_of (overlap : Overlap) (peerRank : ProcessRank)
  : Handshake :=
  match for_each (peerSet overlap) createBuffers_send_
          {| rows := ([] : list Z);
             numIndicesSendBuff_ := ∅; indicesSendBuff_ := ∅;
             indicesRecvBuff_ := ∅; valuesSendBuff_ := ∅;
             valuesRecvBuff_ := ∅; overlap_ := overlap |} with
  | Ok st => {| countMsg := numIndicesSendBuff_ st !! peerRank;
                indicesMsg := indicesSendBuff_ st !! peerRank |}
  | Fault _ => {| countMsg := None; indicesMsg := None |}
  end.

(** The two objects as their constructors leave them, up to the content of
    the rows and of the value buffers. *)
Definition object0 (r sent received : list Z) : OverlappingBlockVector Z := {|
  rows := r;
  numIndicesSendBuff_ := {[1 := [2]]};
  indicesSendBuff_ := {[1 := [1; 0]]};
  indicesRecvBuff_ := {[1 := [1; 2]]};
  valuesSendBuff_ := {[1 := sent]};
  valuesRecvBuff_ := {[1 := received]};
  overlap_ := overlap0
|}.

Definition object1 (r sent received : list Z) : OverlappingBlockVector Z := {|
  rows := r;
  numIndicesSendBuff_ := {[0 := [2]]};
  indicesSendBuff_ := {[0 := [0; 1]]};
  indicesRecvBuff_ := {[0 := [0; 2]]};
  valuesSendBuff_ := {[0 := sent]};
  valuesRecvBuff_ := {[0 := received]};
  overlap_ := overlap1
|}.

Definition world (r0 r1 : list Z) : gmap Z (OverlappingBlockVector Z) :=
  {[0 := object0 r0 [0; 0] [0; 0]; 1 := object1 r1 [0; 0] [0; 0]]}.

(** Native vectors that disagree on the border row: process 0 holds 3 for
    it, process 1 holds 4. *)
Definition natives (p : Z) : list Z :=
  if decide (p = 0) then [1; 3] else [4; 2].

(** Process 0 as its constructor leaves it when process 1 announces the
    global indices 7 and 99, the second of which process 0 does not know. *)
Definition misinformed : Handshake :=
  {| countMsg := Some [2]; indicesMsg := Some [7; 99] |}.

Definition object0_misinformed : OverlappingBlockVector Z := {|
  rows := [0; 0; 0];
  numIndicesSendBuff_ := {[1 := [2]]};
  indicesSendBuff_ := {[1 := [1; 0]]};
  indicesRecvBuff_ := {[1 := [1; -1]]};
  valuesSendBuff_ := {[1 := [0; 0]]};
  valuesRecvBuff_ := {[1 := [0; 0]]};
  overlap_ := overlap0
|}.

End TwoProcesses.

(** ** A process with two peers

    Process 0 owns row 0 and holds row 1 as a copy.  Row 1 belongs to
    process 1 and is also sent by process 2; it is a border row with
    process 1 only. *)
Module TwoPeers.

Definition overlap : Overlap := {|
  numDomestic := 2;
  numNative := 1;
  domesticToNative := λ d, if decide (d = 0) then 0 else -1;
  nativeToDomestic := λ n, if decide (n = 0) then 0 else -1;
  domesticToGlobal := λ d, d;
  globalToDomestic := λ g, if decide (0 ≤ g < 2) then g else -1;
  peerSet := [1; 2];
  foreignOverlapSize := λ peer, 1;
  foreignOverlapOffsetToDomesticIdx := λ peer i, 0;
  masterRank := λ d, if decide (d = 1) then 1 else 0;
  isBorderWith := λ d peer, bool_decide (d = 1 ∧ peer = 1);
  isLocal := λ d, bool_decide (d = 0)
|}.

Definition object : OverlappingBlockVector Z := {|
  rows := [5; 6];
  numIndicesSendBuff_ := {[1 := [1]; 2 := [1]]};
  indicesSendBuff_ := {[1 := [0]; 2 := [0]]};
  indicesRecvBuff_ := {[1 := [1]; 2 := [1]]};
  valuesSendBuff_ := {[1 := [0]; 2 := [0]]};
  valuesRecvBuff_ := {[1 := [0]; 2 := [0]]};
  overlap_ := overlap
|}.

(** Process 1 sends 10 for row 1, process 2 sends 20 or 30. *)
Definition inbox (peerRank : Z) : option (list Z) :=
  if decide (peerRank = 1) then Some [10]
  else if decide (peerRank = 2) then Some [20]
  else None.

Definition inbox' (peerRank : Z) : option (list Z) :=
  if decide (peerRank = 1) then Some [10]
  else if decide (peerRank = 2) then Some [30]
  else None.

(** The object after a call: the rows are given, process 0 has sent its
    row 0 to both peers and has received [from2] from process 2. *)
Definition after (r : list Z) (from2 : Z) : OverlappingBlockVector Z := {|
  rows := r;
  numIndicesSendBuff_ := {[1 := [1]; 2 := [1]]};
  indicesSendBuff_ := {[1 := [0]; 2 := [0]]};
  indicesRecvBuff_ := {[1 := [1]; 2 := [1]]};
  valuesSendBuff_ := {[1 := [5]; 2 := [5]]};
  valuesRecvBuff_ := {[1 := [10]; 2 := [from2]]};
  overlap_ := overlap
|}.

End TwoPeers.

(** ** A process without peers *)
Module Alone.

(** Two rows, both native. *)
Definition overlap : Overlap := {|
  numDomestic := 2;
  numNative := 2;
  domesticToNative := λ d, d;
  nativeToDomestic := λ n, n;
  domesticToGlobal := λ d, d;
  globalToDomestic := λ g, g;
  peerSet := [];
  foreignOverlapSize := λ peer, 0;
  foreignOverlapOffsetToDomesticIdx := λ peer i, 0;
  masterRank := λ d, 0;
  isBorderWith := λ d peer, false;
  isLocal := λ d, true
|}.

Definition object (r : list Z) : OverlappingBlockVector Z := {|
  rows := r;
  numIndicesSendBuff_ := ∅;
  indicesSendBuff_ := ∅;
  indicesRecvBuff_ := ∅;
  valuesSendBuff_ := ∅;
  valuesRecvBuff_ := ∅;
  overlap_ := overlap
|}.

End Alone.

(** ** [Ewoms::FlashRateVector]

    The class that follows [OverlappingBlockVector] in the same source
    file: a [Dune::FieldVector<Evaluation, numEq>] of rates, one entry per
    conservation equation.  A field vector is the list of its [numEq]
    entries; [operator[]] does not check its index, so an index that names
    no entry is undefined behaviour.  [Evaluation], [Scalar],
    [FluidSystem::molarMass], [Indices::conti0EqIdx] and the number of
    components are properties of the [TypeTag]; the class divides an
    evaluation by a scalar and assumes nothing else of them. *)

Section FlashRateVector.
Context {Evaluation Scalar : Type}.
Context (divide : Evaluation → Scalar → Evaluation).   (* [e /= s] *)
Context (molarMass : Z → Scalar).
Context (conti0EqIdx numComponents : Z).

(** [setMolarRate]: [ParentType::operator=(value)]. *)
Definition setMolarRate (value this : list Evaluation)
  : outcome (list Evaluation) :=
  Ok value.

Definition setMassRate (value this : list Evaluation)
  : outcome (list Evaluation) :=
  (* convert to molar rates *)
  molarRate ← for_ 0 (Z.to_nat numComponents) (λ k molarRate,
      let compIdx := Z.of_nat k in
      old ← vec_at molarRate (conti0EqIdx + compIdx);
      vec_set molarRate (conti0EqIdx + compIdx)
        (divide old (molarMass compIdx))) value;
  setMolarRate molarRate this.

(** The entries of the component equations are entries of the vector. *)
Definition component_entries_exist (value : list Evaluation) : Prop :=
  0 < numComponents →
  0 ≤ conti0EqIdx ∧ conti0EqIdx + numComponents ≤ Z.of_nat (length value).

End FlashRateVector.

(** ** Shared buffers: the copy constructor and the assignment operator

    The five maps of an object hold [std::shared_ptr]s.  The copy
    constructor and the assignment operator copy the rows, which belong to
    the [Dune::BlockVector] the class derives from, and the pointers: the
    buffers themselves are shared between the two objects.  To follow this,
    the buffers live in a store and are named by their addresses; an object
    is its rows, its descriptor and, for every map, the address that the
    pointer of a rank holds (a missing key is the null pointer that
    [std::map::operator[]] creates).  [sync] and the functions it calls are
    written out once more over the store: they are the functions of the
    embedding above with every buffer read and written through its
    address. *)

Section Shared.
Context {F : Type} `{Block F}.

Abbreviation Address := Z (only parsing).

Record Store : Type := {
  indexBuffers : gmap Address (list Z);    (* the [MpiBuffer<int>]s *)
  valueBuffers : gmap Address (list F)     (* the [MpiBuffer<FieldVector>]s *)
}.

Record Handle : Type := {
  h_rows : list F;
  h_numIndicesSendBuff_ : gmap ProcessRank Address;
  h_indicesSendBuff_ : gmap ProcessRank Address;
  h_indicesRecvBuff_ : gmap ProcessRank Address;
  h_valuesSendBuff_ : gmap ProcessRank Address;
  h_valuesRecvBuff_ : gmap ProcessRank Address;
  h_overlap_ : Overlap
}.

Definition with_h_rows (r : list F) (obv : Handle) : Handle :=
  {| h_rows := r;
     h_numIndicesSendBuff_ := h_numIndicesSendBuff_ obv;
     h_indicesSendBuff_ := h_indicesSendBuff_ obv;
     h_indicesRecvBuff_ := h_indicesRecvBuff_ obv;
     h_valuesSendBuff_ := h_valuesSendBuff_ obv;
     h_valuesRecvBuff_ := h_valuesRecvBuff_ obv;
     h_overlap_ := h_overlap_ obv |}.

Definition with_valueBuffers (m : gmap Address (list F)) (s : Store) : Store :=
  {| indexBuffers := indexBuffers s; valueBuffers := m |}.

(** [OverlappingBlockVector(const OverlappingBlockVector &obv)]: every
    member is initialised from the member of [obv]. *)
Definition OverlappingBlockVector_copy (obv : Handle) : Handle :=
  {| h_rows := h_rows obv;
     h_numIndicesSendBuff_ := h_numIndicesSendBuff_ obv;
     h_indicesSendBuff_ := h_indicesSendBuff_ obv;
     h_indicesRecvBuff_ := h_indicesRecvBuff_ obv;
     h_valuesSendBuff_ := h_valuesSendBuff_ obv;
     h_valuesRecvBuff_ := h_valuesRecvBuff_ obv;
     h_overlap_ := h_overlap_ obv |}.

(** [operator=(const OverlappingBlockVector &obv)]: every member of the
    object is assigned the member of [obv]; the object is returned. *)
Definition operator_assign (obv this : Handle) : Handle :=
  let this := with_h_rows (h_rows obv) this in   (* ParentType::operator=(obv) *)
  {| h_rows := h_rows this;
     h_numIndicesSendBuff_ := h_numIndicesSendBuff_ obv;
     h_indicesSendBuff_ := h_indicesSendBuff_ obv;
     h_indicesRecvBuff_ := h_indicesRecvBuff_ obv;
     h_valuesSendBuff_ := h_valuesSendBuff_ obv;
     h_valuesRecvBuff_ := h_valuesRecvBuff_ obv;
     h_overlap_ := h_overlap_ obv |}.

(** [*m[peerRank]] for a map of pointers into the store. *)
Definition deref_shared {T} (buffers : gmap Address T)
    (m : gmap ProcessRank Address) (peerRank : ProcessRank) : outcome T :=
  a ← deref m peerRank;
  deref buffers a.

Definition sendEntries_shared (peerRank : ProcessRank) (x : Store * Handle)
  : outcome (Store * Handle) :=
  let (s, this) := x in
  indices ← deref_shared (indexBuffers s) (h_indicesSendBuff_ this) peerRank;
  a ← deref (h_valuesSendBuff_ this) peerRank;
  values ← deref (valueBuffers s) a;
  values' ← for_ 0 (length indices) (λ i values,
      idx ← buf_at indices i;
      v ← vec_at (h_rows this) idx;
      buf_set values i v) values;
  (* values.send(peerRank) *)
  Ok (with_valueBuffers (<[a := values']> (valueBuffers s)) s, this).

Definition waitSendFinished_shared (x : Store * Handle)
  : outcome (Store * Handle) :=
  for_each (peerSet (h_overlap_ x.2)) (λ peerRank x,
      _ ← deref_shared (valueBuffers x.1) (h_valuesSendBuff_ x.2) peerRank;
      Ok x) x.

Definition receiveFromMaster_shared (inbox : Z → option (list F))
    (peerRank : ProcessRank) (x : Store * Handle) : outcome (Store * Handle) :=
  let (s, this) := x in
  indices ← deref_shared (indexBuffers s) (h_indicesRecvBuff_ this) peerRank;
  a ← deref (h_valuesRecvBuff_ this) peerRank;
  values0 ← deref (valueBuffers s) a;
  values ← receive values0 (inbox peerRank);
  rows' ← for_ 0 (length indices) (λ j rows,
      domRowIdx ← buf_at indices j;
      if decide (masterRank (h_overlap_ this) domRowIdx = peerRank) then
        v ← buf_at values j;
        vec_set rows domRowIdx v
      else Ok rows) (h_rows this);
  Ok (with_valueBuffers (<[a := values]> (valueBuffers s)) s,
      with_h_rows rows' this).

Definition sync_shared (inbox : Z → option (list F)) (x : Store * Handle)
  : outcome (Store * Handle) :=
  x1 ← for_each (peerSet (h_overlap_ x.2)) sendEntries_shared x;
  x2 ← for_each (peerSet (h_overlap_ x.2)) (receiveFromMaster_shared inbox) x1;
  waitSendFinished_shared x2.

(** The object of the embedding above that a handle stands for: every
    pointer replaced by the buffer it names. *)
Definition view (s : Store) (this : Handle) : OverlappingBlockVector F :=
  {| rows := h_rows this;
     numIndicesSendBuff_ :=
       omap (λ a, indexBuffers s !! a) (h_numIndicesSendBuff_ this);
     indicesSendBuff_ :=
       omap (λ a, indexBuffers s !! a) (h_indicesSendBuff_ this);
     indicesRecvBuff_ :=
       omap (λ a, indexBuffers s !! a) (h_indicesRecvBuff_ this);
     valuesSendBuff_ :=
       omap (λ a, valueBuffers s !! a) (h_valuesSendBuff_ this);
     valuesRecvBuff_ :=
       omap (λ a, valueBuffers s !! a) (h_valuesRecvBuff_ this);
     overlap_ := h_overlap_ this |}.

Definition view_of (x : Store * Handle) : OverlappingBlockVector F :=
  view x.1 x.2.

(** The outcome of a call over the store, seen as an object of the
    embedding above. *)
Definition viewed (m : outcome (Store * Handle))
  : outcome (OverlappingBlockVector F) :=
  x ← m; Ok (view_of x).

(** Two handles with the same pointers. *)
Definition same_buffers (o1 o2 : Handle) : Prop :=
  h_numIndicesSendBuff_ o1 = h_numIndicesSendBuff_ o2
  ∧ h_indicesSendBuff_ o1 = h_indicesSendBuff_ o2
  ∧ h_indicesRecvBuff_ o1 = h_indicesRecvBuff_ o2
  ∧ h_valuesSendBuff_ o1 = h_valuesSendBuff_ o2
  ∧ h_valuesRecvBuff_ o1 = h_valuesRecvBuff_ o2
  ∧ h_overlap_ o1 = h_overlap_ o2.

(** The value buffers of an object are buffers of their own, as
    [createBuffers_] allocates them: no two pointers of the object name the
    same value buffer. *)
Definition separated (this : Handle) : Prop :=
  (∀ p q a, h_valuesSendBuff_ this !! p = Some a →
            h_valuesSendBuff_ this !! q = Some a → p = q)
  ∧ (∀ p q a, h_valuesRecvBuff_ this !! p = Some a →
              h_valuesRecvBuff_ this !! q = Some a → p = q)
  ∧ (∀ p q a, h_valuesSendBuff_ this !! p = Some a →
              h_valuesRecvBuff_ this !! q ≠ Some a).

(** What a call over the store leaves alone: the pointers of the object and
    the index buffers. *)
Definition kept (x0 x : Store * Handle) : Prop :=
  same_buffers x0.2 x.2 ∧ indexBuffers x.1 = indexBuffers x0.1.

End Shared.

Arguments Store F : clear implicits.
Arguments Handle F : clear implicits.

(** The object of [TwoPeers] over a store: a buffer of its own behind every
    pointer. *)
Module TwoPeersShared.

Definition store : Store Z := {|
  indexBuffers :=
    {[ 11 := [1]; 12 := [1]; 21 := [0]; 22 := [0]; 31 := [1]; 32 := [1] ]};
  valueBuffers := {[ 41 := [0]; 42 := [0]; 51 := [0]; 52 := [0] ]}
|}.

Definition original : Handle Z := {|
  h_rows := [5; 6];
  h_numIndicesSendBuff_ := {[1 := 11; 2 := 12]};
  h_indicesSendBuff_ := {[1 := 21; 2 := 22]};
  h_indicesRecvBuff_ := {[1 := 31; 2 := 32]};
  h_valuesSendBuff_ := {[1 := 41; 2 := 42]};
  h_valuesRecvBuff_ := {[1 := 51; 2 := 52]};
  h_overlap_ := TwoPeers.overlap
|}.

(** The store after a copy with the rows [7; 8] has synchronised. *)
Definition store_after : Store Z := {|
  indexBuffers :=
    {[ 11 := [1]; 12 := [1]; 21 := [0]; 22 := [0]; 31 := [1]; 32 := [1] ]};
  valueBuffers := {[ 41 := [7]; 42 := [7]; 51 := [10]; 52 := [20] ]}
|}.

End TwoPeersShared.

(** * Properties *)

(** ** Outcomes and loops *)

Lemma bind_Ok {A B} (m : outcome A) (k : A → outcome B) (b : B) :
  m ≫= k = Ok b ↔ ∃ a, m = Ok a ∧ k a = Ok b.
Proof.
  destruct m as [a|f]; simpl.
  - split; [eauto | intros (? & [= <-] & ?); done].
  - split; [done | intros (? & ? & ?); done].
Qed.

Lemma bind_Ok_l {A B} (a : A) (k : A → outcome B) : Ok a ≫= k = k a.
Proof. done. Qed.

Lemma for_ind {St} (Inv : nat → St → Prop) body lo n (s s' : St) :
  Inv lo s →
  (∀ j t t', (lo ≤ j < lo + n)%nat → Inv j t → body j t = Ok t' → Inv (S j) t') →
  for_ lo n body s = Ok s' →
  Inv (lo + n)%nat s'.
Proof.
  revert lo s. induction n as [|n IH]; intros lo s Hs Hstep Hrun; simpl in Hrun.
  - injection Hrun as <-. by rewrite Nat.add_0_r.
  - apply bind_Ok in Hrun as (t & Hbody & Hrun).
    replace (lo + S n)%nat with (S lo + n)%nat by lia.
    apply (IH (S lo) t); [| |done].
    + apply (Hstep lo s t); [lia|done..].
    + intros j u u' Hj. apply Hstep. lia.
Qed.

Lemma for_total {St} (Inv : nat → St → Prop) body lo n (s : St) :
  Inv lo s →
  (∀ j t, (lo ≤ j < lo + n)%nat → Inv j t → ∃ t', body j t = Ok t' ∧ Inv (S j) t') →
  ∃ s', for_ lo n body s = Ok s' ∧ Inv (lo + n)%nat s'.
Proof.
  revert lo s. induction n as [|n IH]; intros lo s Hs Hstep; simpl.
  - exists s. by rewrite Nat.add_0_r.
  - destruct (Hstep lo s) as (t & -> & Ht); [lia|done|]. simpl.
    replace (lo + S n)%nat with (S lo + n)%nat by lia.
    apply IH; [done|]. intros j u Hj. apply Hstep. lia.
Qed.

Lemma for_each_ind {X St} (Inv : St → Prop) (body : X → St → outcome St)
    l (s s' : St) :
  Inv s →
  (∀ x t t', x ∈ l → Inv t → body x t = Ok t' → Inv t') →
  for_each l body s = Ok s' →
  Inv s'.
Proof.
  revert s. induction l as [|x l IH]; intros s Hs Hstep Hrun; simpl in Hrun.
  - by injection Hrun as <-.
  - apply bind_Ok in Hrun as (t & Hbody & Hrun).
    apply (IH t); [| |done].
    + apply (Hstep x s t); [left|done..].
    + intros y u u' Hy. apply Hstep. by right.
Qed.

Lemma for_each_total {X St} (Inv : St → Prop) (body : X → St → outcome St)
    l (s : St) :
  Inv s →
  (∀ x t, x ∈ l → Inv t → ∃ t', body x t = Ok t' ∧ Inv t') →
  ∃ s', for_each l body s = Ok s' ∧ Inv s'.
Proof.
  revert s. induction l as [|x l IH]; intros s Hs Hstep; simpl; [eauto|].
  destruct (Hstep x s) as (t & -> & Ht); [left|done|]. simpl.
  apply IH; [done|]. intros y u Hy. apply Hstep. by right.
Qed.

(** A postcondition [Post x] that the iteration for [x] establishes and
    later iterations keep. *)
Lemma for_each_post {X St} (Inv : St → Prop) (Post : X → St → Prop)
    (body : X → St → outcome St) l (s s' : St) :
  Inv s →
  (∀ x t t', x ∈ l → Inv t → body x t = Ok t' → Inv t' ∧ Post x t') →
  (∀ x y t t', y ∈ l → Inv t → Post x t → body y t = Ok t' → Post x t') →
  for_each l body s = Ok s' →
  Inv s' ∧ ∀ x, x ∈ l → Post x s'.
Proof.
  revert s. induction l as [|y l IH]; intros s Hs Hstep Hkeep Hrun;
    simpl in Hrun.
  - injection Hrun as <-. split; [done|]. by intros x ?%elem_of_nil.
  - apply bind_Ok in Hrun as (t & Hbody & Hrun).
    destruct (Hstep y s t ltac:(left) Hs Hbody) as [Ht Hpost].
    assert (∀ x, Post x t → Post x s') as Hlater.
    { intros x Hx.
      apply (for_each_ind (λ u, Inv u ∧ Post x u) body l t s'); [done| |done].
      intros z u u' Hz [Hu Hxu] Hbz. split.
      - apply (Hstep z u u'); [by right|done..].
      - apply (Hkeep x z u u'); [by right|done..]. }
    destruct (IH t) as [Hs' Hall]; [done| | |done|].
    + intros z u u' Hz. apply Hstep. by right.
    + intros x z u u' Hz. apply Hkeep. by right.
    + split; [done|]. intros x [->|Hx]%elem_of_cons; eauto.
Qed.

(** A second run that keeps step with a first one. *)
Lemma for_sim {S1 S2} (R : S1 → S2 → Prop) body1 body2 lo n s1 s2 s1' :
  R s1 s2 →
  (∀ j t1 t2 t1', (lo ≤ j < lo + n)%nat → R t1 t2 → body1 j t1 = Ok t1' →
     ∃ t2', body2 j t2 = Ok t2' ∧ R t1' t2') →
  for_ lo n body1 s1 = Ok s1' →
  ∃ s2', for_ lo n body2 s2 = Ok s2' ∧ R s1' s2'.
Proof.
  revert lo s1 s2. induction n as [|n IH]; intros lo s1 s2 HR Hstep Hrun;
    simpl in *.
  - injection Hrun as <-. eauto.
  - apply bind_Ok in Hrun as (t1 & Hbody & Hrun).
    destruct (Hstep lo s1 s2 t1 ltac:(lia) HR Hbody) as (t2 & -> & HR'). simpl.
    apply (IH (S lo) t1 t2); [done| |done].
    intros j u1 u2 u1' Hj. apply Hstep. lia.
Qed.

Lemma for_each_sim {X S1 S2} (R : S1 → S2 → Prop)
    (body1 : X → S1 → outcome S1) (body2 : X → S2 → outcome S2) l s1 s2 s1' :
  R s1 s2 →
  (∀ x t1 t2 t1', x ∈ l → R t1 t2 → body1 x t1 = Ok t1' →
     ∃ t2', body2 x t2 = Ok t2' ∧ R t1' t2') →
  for_each l body1 s1 = Ok s1' →
  ∃ s2', for_each l body2 s2 = Ok s2' ∧ R s1' s2'.
Proof.
  revert s1 s2. induction l as [|x l IH]; intros s1 s2 HR Hstep Hrun;
    simpl in *.
  - injection Hrun as <-. eauto.
  - apply bind_Ok in Hrun as (t1 & Hbody & Hrun).
    destruct (Hstep x s1 s2 t1 ltac:(left) HR Hbody) as (t2 & -> & HR'). simpl.
    apply (IH t1 t2); [done| |done].
    intros y u1 u2 u1' Hy. apply Hstep. by right.
Qed.

Lemma foldl_ext {A B} (f g : A → B → A) (l : list B) (a : A) :
  (∀ a b, f a b = g a b) → foldl f a l = foldl g a l.
Proof.
  intros Hfg. revert a. induction l as [|b l IH]; intros a; simpl; [done|].
  by rewrite Hfg, IH.
Qed.

(** ** Arrays *)

Lemma vec_set_Ok {T} (v v' : list T) i x :
  vec_set v i x = Ok v' →
  0 ≤ i < Z.of_nat (length v) ∧ v' = <[Z.to_nat i := x]> v.
Proof. unfold vec_set. case_decide; [|done]. by intros [= <-]. Qed.

Lemma vec_at_Ok {T} (v : list T) i x :
  vec_at v i = Ok x ↔ 0 ≤ i ∧ v !! Z.to_nat i = Some x.
Proof.
  unfold vec_at. case_decide.
  - destruct (v !! Z.to_nat i) as [y|].
    + split; [by intros [= ->]|by intros [_ [= ->]]].
    + split; [done|by intros [_ ?]].
  - split; [done | lia].
Qed.

Lemma buf_at_Ok {T} (v : list T) j x : buf_at v j = Ok x ↔ v !! j = Some x.
Proof.
  unfold buf_at. destruct (v !! j) as [y|]; [|done].
  split; by intros [= ->].
Qed.

Lemma buf_set_Ok {T} (v v' : list T) j x :
  buf_set v j x = Ok v' → (j < length v)%nat ∧ v' = <[j := x]> v.
Proof. unfold buf_set. case_decide; [|done]. by intros [= <-]. Qed.

Lemma deref_Ok {T} (m : gmap ProcessRank T) peerRank b :
  deref m peerRank = Ok b ↔ m !! peerRank = Some b.
Proof.
  unfold deref. destruct (m !! peerRank) as [b'|]; [|done].
  split; by intros [= ->].
Qed.

Lemma receive_Ok {T} (buf m : list T) msg :
  receive buf msg = Ok m ↔ msg = Some m ∧ length m = length buf.
Proof.
  unfold receive. destruct msg as [m'|]; [|by split; [|intros [? _]]].
  case_decide as Hlen.
  - split; [by intros [= ->]|by intros [[= ->] _]].
  - split; [done|]. intros [[= ->] ?]. done.
Qed.

Lemma receive_fits {T} (buf m : list T) :
  length m = length buf → receive buf (Some m) = Ok m.
Proof. intros Hlen. unfold receive. by rewrite decide_True. Qed.

(** ** The receive loops as left folds *)

Section receive_loops.
Context {F : Type} `{Block F}.
Implicit Types (st : OverlappingBlockVector F) (inbox : Z → option (list F)).
Implicit Types (rows : list F) (indices : list Z) (values : list F).

Lemma list_insert_alter_lookup {T} (f : T → T) (l : list T) i x :
  l !! i = Some x → <[i := f x]> l = alter f i l.
Proof.
  intros Hx. apply list_eq. intros k.
  destruct (decide (k = i)) as [->|].
  - rewrite list_lookup_insert_eq; [|by eapply lookup_lt_Some].
    by rewrite list_lookup_alter_eq, Hx.
  - by rewrite list_lookup_insert_ne, list_lookup_alter_ne.
Qed.

Lemma receive_loop_foldl indices values
    (policy : list F → Z * F → list F) body rows rows' :
  (∀ j d t t', indices !! j = Some d → body j t = Ok t' →
     match values !! j with
     | Some v => t' = policy t (d, v)
     | None => t' = t
     end) →
  for_ 0 (length indices) body rows = Ok rows' →
  rows' = foldl policy rows (zip indices values).
Proof.
  intros Hbody Hrun.
  apply (for_ind (λ j t, t = foldl policy rows (take j (zip indices values))))
    in Hrun.
  - simpl in Hrun. rewrite Hrun. f_equal. apply take_ge.
    rewrite length_zip_with. lia.
  - by rewrite take_0.
  - intros j t t' Hj -> Hstep.
    destruct (lookup_lt_is_Some_2 indices j) as [d Hd]; [lia|].
    specialize (Hbody j d _ _ Hd Hstep).
    destruct (values !! j) as [v|] eqn:Hv.
    + assert (zip indices values !! j = Some (d, v)) as Hz.
      { apply lookup_zip_with_Some. eauto. }
      rewrite (take_S_r _ _ _ Hz), foldl_app. by simpl.
    + rewrite Hbody. f_equal. rewrite !take_ge; [done|..];
        rewrite length_zip_with; apply lookup_ge_None in Hv; lia.
Qed.

Lemma receive_loop_length indices body rows rows' :
  (∀ j t t', body j t = Ok t' → length t' = length t) →
  for_ 0 (length indices) body rows = Ok rows' →
  length rows' = length rows.
Proof.
  intros Hbody Hrun.
  apply (for_ind (λ _ t, length t = length rows)) in Hrun; [done..|].
  intros j t t' _ <- Hstep. eauto.
Qed.

Lemma vec_set_length {T} (v v' : list T) i x :
  vec_set v i x = Ok v' → length v' = length v.
Proof. intros [_ ->]%vec_set_Ok. apply length_insert. Qed.

Lemma incoming_Some st inbox peerRank indices values :
  indicesRecvBuff_ st !! peerRank = Some indices →
  inbox peerRank = Some values →
  incoming st inbox peerRank = zip indices values.
Proof. unfold incoming. by intros -> ->. Qed.

Lemma receiveFromMaster_spec inbox peerRank st st' :
  receiveFromMaster_ inbox peerRank st = Ok st' →
  rows st' = foldl (merge_from_master (overlap_ st) peerRank) (rows st)
               (incoming st inbox peerRank)
  ∧ receive_frame inbox peerRank st st'.
Proof.
  unfold receiveFromMaster_. intros Hrun.
  apply bind_Ok in Hrun as (indices & Hind%deref_Ok & Hrun).
  apply bind_Ok in Hrun as (values0 & Hval0%deref_Ok & Hrun).
  apply bind_Ok in Hrun as (values & [Hin Hlen]%receive_Ok & Hrun).
  apply bind_Ok in Hrun as (rows' & Hloop & [= <-]). simpl.
  rewrite (incoming_Some _ _ _ _ _ Hind Hin).
  split; [|unfold receive_frame; simpl; split_and!; eauto 10].
  - eapply receive_loop_foldl; [|done].
    intros j d t t' Hd%buf_at_Ok Hstep. simpl in Hstep.
    rewrite Hd in Hstep. simpl in Hstep.
    unfold merge_from_master, merge_overwrite. simpl.
    case_decide.
    + apply bind_Ok in Hstep as (v & ->%buf_at_Ok & [? ->]%vec_set_Ok).
      by rewrite decide_True by lia.
    + injection Hstep as <-. by destruct (values !! j).
  - eapply receive_loop_length; [|done].
    intros j t t' Hstep. apply bind_Ok in Hstep as (d & _ & Hstep).
    case_decide.
    + apply bind_Ok in Hstep as (v & _ & Hstep). by eapply vec_set_length.
    + by injection Hstep as <-.
Qed.

Lemma receiveAddBorder_spec inbox peerRank st st' :
  receiveAddBorder_ inbox peerRank st = Ok st' →
  rows st' = foldl (merge_add_border (overlap_ st) peerRank) (rows st)
               (incoming st inbox peerRank)
  ∧ receive_frame inbox peerRank st st'.
Proof.
  unfold receiveAddBorder_. intros Hrun.
  apply bind_Ok in Hrun as (indices & Hind%deref_Ok & Hrun).
  apply bind_Ok in Hrun as (values0 & Hval0%deref_Ok & Hrun).
  apply bind_Ok in Hrun as (values & [Hin Hlen]%receive_Ok & Hrun).
  apply bind_Ok in Hrun as (rows' & Hloop & [= <-]). simpl.
  rewrite (incoming_Some _ _ _ _ _ Hind Hin).
  split; [|unfold receive_frame; simpl; split_and!; eauto 10].
  - eapply receive_loop_foldl; [|done].
    intros j d t t' Hd%buf_at_Ok Hstep. simpl in Hstep.
    rewrite Hd in Hstep. simpl in Hstep.
    unfold merge_add_border, merge_add, merge_overwrite. simpl.
    destruct (isBorderWith (overlap_ st) d peerRank).
    + apply bind_Ok in Hstep as (old & [? Hold]%vec_at_Ok & Hstep).
      apply bind_Ok in Hstep as (v & ->%buf_at_Ok & [? ->]%vec_set_Ok).
      rewrite decide_True by lia.
      by apply (list_insert_alter_lookup (λ o, add o v)).
    + apply bind_Ok in Hstep as (v & ->%buf_at_Ok & [? ->]%vec_set_Ok).
      by rewrite decide_True by lia.
  - eapply receive_loop_length; [|done].
    intros j t t' Hstep. apply bind_Ok in Hstep as (d & _ & Hstep).
    destruct (isBorderWith _ _ _).
    + apply bind_Ok in Hstep as (old & _ & Hstep).
      apply bind_Ok in Hstep as (v & _ & Hstep). by eapply vec_set_length.
    + apply bind_Ok in Hstep as (v & _ & Hstep). by eapply vec_set_length.
Qed.

Lemma receiveAdd_spec inbox peerRank st st' :
  receiveAdd_ inbox peerRank st = Ok st' →
  rows st' = foldl merge_add (rows st) (incoming st inbox peerRank)
  ∧ receive_frame inbox peerRank st st'.
Proof.
  unfold receiveAdd_. intros Hrun.
  apply bind_Ok in Hrun as (indices & Hind%deref_Ok & Hrun).
  apply bind_Ok in Hrun as (values0 & Hval0%deref_Ok & Hrun).
  apply bind_Ok in Hrun as (values & [Hin Hlen]%receive_Ok & Hrun).
  apply bind_Ok in Hrun as (rows' & Hloop & [= <-]). simpl.
  rewrite (incoming_Some _ _ _ _ _ Hind Hin).
  split; [|unfold receive_frame; simpl; split_and!; eauto 10].
  - eapply receive_loop_foldl; [|done].
    intros j d t t' Hd%buf_at_Ok Hstep. simpl in Hstep.
    rewrite Hd in Hstep. simpl in Hstep. unfold merge_add. simpl.
    apply bind_Ok in Hstep as (old & [? Hold]%vec_at_Ok & Hstep).
    apply bind_Ok in Hstep as (v & ->%buf_at_Ok & [? ->]%vec_set_Ok).
    rewrite decide_True by lia.
    by apply (list_insert_alter_lookup (λ o, add o v)).
  - eapply receive_loop_length; [|done].
    intros j t t' Hstep. apply bind_Ok in Hstep as (d & _ & Hstep).
    apply bind_Ok in Hstep as (old & _ & Hstep).
    apply bind_Ok in Hstep as (v & _ & Hstep). by eapply vec_set_length.
Qed.

End receive_loops.

(** ** The send phase *)

Section send_phase.
Context {F : Type} `{Block F}.
Implicit Types (st : OverlappingBlockVector F) (inbox : Z → option (list F)).

Lemma sendEntries_spec peerRank st st' :
  sendEntries_ peerRank st = Ok st' →
  send_frame st st'
  ∧ indicesSendBuff_ st' = indicesSendBuff_ st
  ∧ ∃ indices values0 values,
      indicesSendBuff_ st !! peerRank = Some indices
      ∧ valuesSendBuff_ st !! peerRank = Some values0
      ∧ valuesSendBuff_ st' = <[peerRank := values]> (valuesSendBuff_ st)
      ∧ sent_values st indices values0 values.
Proof.
  unfold sendEntries_. intros Hrun.
  apply bind_Ok in Hrun as (indices & Hind%deref_Ok & Hrun).
  apply bind_Ok in Hrun as (values0 & Hval0%deref_Ok & Hrun).
  apply bind_Ok in Hrun as (values & Hloop & [= <-]). simpl.
  split; [done|]. split; [done|].
  exists indices, values0, values. split_and!; [done..|].
  apply (for_ind (λ j vals,
      length vals = length values0
      ∧ (∀ i idx, (i < j)%nat → indices !! i = Some idx →
           0 ≤ idx ∧ is_Some (vals !! i)
           ∧ vals !! i = rows st !! Z.to_nat idx)
      ∧ (∀ i, (j ≤ i)%nat → vals !! i = values0 !! i))) in Hloop.
  - destruct Hloop as (Hlen & Hsent & Hrest). split_and!; [done| |done].
    intros i idx Hi. apply Hsent; [|done]. by eapply lookup_lt_Some.
  - split_and!; [done| |done]. intros i idx Hi. lia.
  - intros j vals vals' Hj (Hlen & Hsent & Hrest) Hstep.
    apply bind_Ok in Hstep as (idx & Hidx%buf_at_Ok & Hstep).
    apply bind_Ok in Hstep as (v & [Hpos Hv]%vec_at_Ok & [Hlt ->]%buf_set_Ok).
    split_and!.
    + by rewrite length_insert.
    + intros i idx' Hi Hidx'. destruct (decide (i = j)) as [->|Hne].
      * rewrite list_lookup_insert_eq by done.
        assert (idx' = idx) as -> by congruence. by rewrite Hv.
      * rewrite list_lookup_insert_ne by done. apply Hsent; [lia|done].
    + intros i Hi. rewrite list_lookup_insert_ne by lia. apply Hrest. lia.
Qed.

Lemma sent_values_again st indices values0 values values' :
  sent_values st indices values0 values →
  sent_values st indices values values' →
  sent_values st indices values0 values'.
Proof.
  intros (Hlen & Hsent & Hrest) (Hlen' & Hsent' & Hrest').
  split_and!; [congruence|done|]. intros i Hi.
  by rewrite Hrest', Hrest.
Qed.

Lemma sendAll_spec st st1 :
  sendAll_ st = Ok st1 →
  send_frame st st1
  ∧ indicesSendBuff_ st1 = indicesSendBuff_ st
  ∧ (∀ p, p ∈ peerSet (overlap_ st) → send_done st st1 p)
  ∧ (∀ p, p ∉ peerSet (overlap_ st) →
       valuesSendBuff_ st1 !! p = valuesSendBuff_ st !! p).
Proof.
  unfold sendAll_. intros Hrun.
  set (Inv := λ t : OverlappingBlockVector F,
    send_frame st t
    ∧ (∀ p, send_done st t p ∨ valuesSendBuff_ t !! p = valuesSendBuff_ st !! p)
    ∧ (∀ p, p ∉ peerSet (overlap_ st) →
         valuesSendBuff_ t !! p = valuesSendBuff_ st !! p)).
  assert (∀ x t t', x ∈ peerSet (overlap_ st) → Inv t →
            sendEntries_ x t = Ok t' → Inv t' ∧ send_done st t' x) as Hstep.
  { intros x t t' Hx ((Hrows & Hov & Hpl & Hrecv) & Hcases & Hout) Hsend.
    apply sendEntries_spec in Hsend
      as ((Hrows' & Hov' & Hpl' & Hrecv') & _
          & indices & values0 & values & Hind & Hval0 & Hbuf & Hsent).
    assert (indicesSendBuff_ st !! x = Some indices) as Hind0.
    { unfold plans in Hpl. by injection Hpl as _ <- _. }
    assert (∃ values00, valuesSendBuff_ st !! x = Some values00
                        ∧ sent_values st indices values00 values) as Hdone.
    { assert (sent_values st indices values0 values) as Hsent0.
      { destruct Hsent as (? & Hs & ?). split_and!; [done| |done].
        intros i idx Hi. rewrite <-Hrows. by apply Hs. }
      destruct (Hcases x) as [(ind' & v00 & v' & Hi' & Hv00 & Hv' & Hs')|Hsame].
      - exists v00. split; [done|].
        assert (ind' = indices) as -> by congruence.
        assert (v' = values0) as -> by congruence.
        by eapply sent_values_again.
      - exists values0. split; [congruence|done]. }
    destruct Hdone as (values00 & Hval00 & Hsent00).
    assert (send_done st t' x) as Hx'.
    { exists indices, values00, values. rewrite Hbuf, lookup_insert_eq. done. }
    split; [|done]. split_and!.
    - unfold send_frame. split_and!; congruence.
    - intros p. destruct (decide (p = x)) as [->|Hne]; [by left|].
      rewrite Hbuf, lookup_insert_ne by done.
      destruct (Hcases p) as [(ind' & v00 & v' & ? & ? & ? & ?)|?];
        [left|by right].
      exists ind', v00, v'. by rewrite Hbuf, lookup_insert_ne.
    - intros p Hp. rewrite Hbuf, lookup_insert_ne; [by apply Hout|].
      by intros <-. }
  apply (for_each_post Inv (λ p t, send_done st t p)) in Hrun.
  - destruct Hrun as (((Hrows & Hov & Hpl & Hrecv) & _ & Hout) & Hall).
    split_and!; [done| |done..].
    unfold plans in Hpl. by injection Hpl.
  - unfold Inv, send_frame. split_and!; eauto.
  - done.
  - intros x y t t' Hy Ht (indices & values0 & values & Hind & Hv0 & Hv & Hs)
      Hsend.
    destruct (decide (x = y)) as [->|Hne]; [by eapply Hstep|].
    apply sendEntries_spec in Hsend as (_ & _ & ? & ? & ? & _ & _ & Hbuf & _).
    exists indices, values0, values. by rewrite Hbuf, lookup_insert_ne.
Qed.

Lemma waitSendFinished__spec st st' : waitSendFinished_ st = Ok st' → st' = st.
Proof.
  unfold waitSendFinished_. intros Hrun.
  apply (for_each_ind (λ t, t = st)) in Hrun; [done..|].
  intros x t t' _ -> Hstep. apply bind_Ok in Hstep as (? & _ & Hstep).
  by injection Hstep.
Qed.

End send_phase.

(** ** Sequences of writes *)

Section writes.
Context {F : Type}.
Implicit Types (rows : list F) (writes : list (nat * F)).

Lemma write_all_app rows writes1 writes2 :
  write_all rows (writes1 ++ writes2)
  = write_all (write_all rows writes1) writes2.
Proof. apply foldl_app. Qed.

Lemma write_all_cons rows (w : nat * F) writes :
  write_all rows (w :: writes) = write_all (<[w.1 := w.2]> rows) writes.
Proof. done. Qed.

Lemma write_all_length rows writes :
  length (write_all rows writes) = length rows.
Proof.
  revert rows. induction writes as [|w writes IH]; intros rows; [done|].
  by rewrite write_all_cons, IH, length_insert.
Qed.

(** A row either keeps its value or holds one of the values written to it. *)
Lemma write_all_cases rows writes k :
  write_all rows writes !! k = rows !! k
  ∨ ∃ v, (k, v) ∈ writes ∧ write_all rows writes !! k = Some v.
Proof.
  induction writes as [|[i v] writes IH] using rev_ind; [by left|].
  rewrite write_all_app. simpl.
  destruct (decide (i = k)) as [->|Hne].
  - destruct (decide (k < length rows)%nat) as [Hlt|Hge].
    + right. exists v. split; [apply elem_of_app; right; left|].
      apply list_lookup_insert_eq. by rewrite write_all_length.
    + left. rewrite list_insert_ge by (rewrite write_all_length; lia).
      rewrite !lookup_ge_None_2; [done|lia|rewrite write_all_length; lia].
  - rewrite list_lookup_insert_ne by done.
    destruct IH as [IH|(v' & Hv' & IH)]; [by left|right].
    exists v'. split; [|done]. apply elem_of_app. by left.
Qed.

(** A row within range that some write names holds a written value. *)
Lemma write_all_written rows writes k v :
  (k, v) ∈ writes → (k < length rows)%nat →
  ∃ v', (k, v') ∈ writes ∧ write_all rows writes !! k = Some v'.
Proof.
  intros Hin Hlt. revert Hin.
  induction writes as [|[i w] writes IH] using rev_ind.
  - by intros ?%elem_of_nil.
  - rewrite write_all_app. simpl. intros Hin.
    destruct (decide (i = k)) as [->|Hne].
    + exists w. split; [apply elem_of_app; right; left|].
      apply list_lookup_insert_eq. by rewrite write_all_length.
    + rewrite list_lookup_insert_ne by done.
      apply elem_of_app in Hin as [Hin|Hin%list_elem_of_singleton];
        [|congruence].
      destruct (IH Hin) as (v' & Hv' & Hk). exists v'.
      split; [|done]. apply elem_of_app. by left.
Qed.

(** A write that is repeated at the end makes its earlier copy redundant. *)
Lemma write_all_absorb rows writes (w : nat * F) :
  <[w.1 := w.2]> (write_all (<[w.1 := w.2]> rows) writes)
  = <[w.1 := w.2]> (write_all rows writes).
Proof.
  revert rows. induction writes as [|w1 writes IH]; intros rows.
  - apply list_insert_insert_eq.
  - rewrite !write_all_cons. destruct (decide (w1.1 = w.1)) as [Heq|Hne].
    + by rewrite Heq, list_insert_insert_eq.
    + rewrite list_insert_insert_ne by done. apply IH.
Qed.

(** Writing the same sequence a second time changes nothing. *)
Lemma write_all_idem rows writes :
  write_all (write_all rows writes) writes = write_all rows writes.
Proof.
  revert rows. induction writes as [|w writes IH] using rev_ind;
    intros rows; [done|].
  rewrite !write_all_app. simpl.
  rewrite write_all_absorb. by rewrite IH.
Qed.

End writes.

(** ** The three synchronisations as merges *)

Section sync_family.
Context {F : Type} `{Block F}.
Implicit Types (st : OverlappingBlockVector F) (inbox : Z → option (list F)).

Lemma incoming_plan st1 st2 inbox peerRank :
  indicesRecvBuff_ st1 = indicesRecvBuff_ st2 →
  incoming st1 inbox peerRank = incoming st2 inbox peerRank.
Proof. unfold incoming. by intros ->. Qed.

Lemma plans_recv st1 st2 :
  plans st1 = plans st2 → indicesRecvBuff_ st1 = indicesRecvBuff_ st2.
Proof. unfold plans. by intros [= _ _ ?]. Qed.

Lemma plans_send st1 st2 :
  plans st1 = plans st2 → indicesSendBuff_ st1 = indicesSendBuff_ st2.
Proof. unfold plans. by intros [= _ ? _]. Qed.

Lemma same_sizes_insert (m1 m2 : gmap Z (list F)) peerRank v1 v2 :
  same_sizes m1 m2 → length v1 = length v2 →
  same_sizes (<[peerRank := v1]> m1) (<[peerRank := v2]> m2).
Proof.
  intros Hm Hv p. destruct (decide (p = peerRank)) as [->|Hne].
  - rewrite !lookup_insert_eq. simpl. by rewrite Hv.
  - rewrite !lookup_insert_ne by done. apply Hm.
Qed.

Lemma same_sizes_lookup (m1 m2 : gmap Z (list F)) peerRank v1 :
  same_sizes m1 m2 → m1 !! peerRank = Some v1 →
  ∃ v2, m2 !! peerRank = Some v2 ∧ length v1 = length v2.
Proof.
  intros Hm Hv1. specialize (Hm peerRank). rewrite Hv1 in Hm.
  destruct (m2 !! peerRank) as [v2|]; [|done]. exists v2.
  split; [done|]. by injection Hm.
Qed.

Lemma same_sizes_sym (m1 m2 : gmap Z (list F)) :
  same_sizes m1 m2 → same_sizes m2 m1.
Proof. intros Hm p. symmetry. apply Hm. Qed.

Lemma same_sizes_trans (m1 m2 m3 : gmap Z (list F)) :
  same_sizes m1 m2 → same_sizes m2 m3 → same_sizes m1 m3.
Proof. intros H12 H23 p. by rewrite H12. Qed.

Lemma same_sizes_insert_l (m : gmap Z (list F)) peerRank v0 v :
  m !! peerRank = Some v0 → length v = length v0 →
  same_sizes (<[peerRank := v]> m) m.
Proof.
  intros Hv0 Hlen p. destruct (decide (p = peerRank)) as [->|Hne].
  - rewrite lookup_insert_eq, Hv0. simpl. by rewrite Hlen.
  - by rewrite lookup_insert_ne.
Qed.

(** The receive phase, for any of the three receivers. *)
Lemma receive_phase_spec
    (receiver : Z → OverlappingBlockVector F → outcome (OverlappingBlockVector F))
    (policy : Overlap → Z → list F → Z * F → list F) inbox :
  (∀ peerRank st st', receiver peerRank st = Ok st' →
     rows st' = foldl (policy (overlap_ st) peerRank) (rows st)
                  (incoming st inbox peerRank)
     ∧ receive_frame inbox peerRank st st') →
  ∀ l st st', for_each l receiver st = Ok st' →
    rows st' = foldl (λ rows peerRank,
                  foldl (policy (overlap_ st) peerRank) rows
                        (incoming st inbox peerRank)) (rows st) l
    ∧ overlap_ st' = overlap_ st ∧ plans st' = plans st
    ∧ valuesSendBuff_ st' = valuesSendBuff_ st
    ∧ length (rows st') = length (rows st)
    ∧ same_sizes (valuesRecvBuff_ st') (valuesRecvBuff_ st).
Proof.
  intros Hrecv l. induction l as [|x l IH]; intros st st' Hrun; simpl in Hrun.
  - injection Hrun as <-. by split_and!.
  - apply bind_Ok in Hrun as (t & Hx & Hrun).
    apply Hrecv in Hx as (Hrows & Hov & Hpl & Hsend & Hlen
                          & values0 & values & Hv0 & Hin & Hvlen & Hbuf).
    apply IH in Hrun as (Hrows' & Hov' & Hpl' & Hsend' & Hlen' & Hsz).
    split_and!; try congruence.
    + rewrite Hrows'. simpl. rewrite Hrows, Hov.
      apply foldl_ext. intros rows0 p. f_equal.
      apply incoming_plan, plans_recv. done.
    + eapply same_sizes_trans; [done|]. rewrite Hbuf.
      by eapply same_sizes_insert_l.
Qed.

Lemma sync_family_spec receiver policy inbox st st1 st2 st' :
  (∀ peerRank st st', receiver peerRank st = Ok st' →
     rows st' = foldl (policy (overlap_ st) peerRank) (rows st)
                  (incoming st inbox peerRank)
     ∧ receive_frame inbox peerRank st st') →
  sendAll_ st = Ok st1 →
  for_each (peerSet (overlap_ st)) receiver st1 = Ok st2 →
  waitSendFinished_ st2 = Ok st' →
  rows st' = merge_all (policy (overlap_ st)) st inbox
  ∧ overlap_ st' = overlap_ st ∧ plans st' = plans st
  ∧ valuesSendBuff_ st' = valuesSendBuff_ st1
  ∧ length (rows st') = length (rows st)
  ∧ same_sizes (valuesRecvBuff_ st') (valuesRecvBuff_ st).
Proof.
  intros Hrecv Hsend Hphase ->%waitSendFinished__spec.
  apply sendAll_spec in Hsend as ((Hrows & Hov & Hpl & Hrv) & _).
  eapply receive_phase_spec in Hphase
    as (Hrows' & Hov' & Hpl' & Hsend' & Hlen' & Hsz); [|done].
  split_and!; try congruence.
  rewrite Hrows', Hrows, Hov. unfold merge_all. apply foldl_ext.
  intros rows0 p. f_equal. apply incoming_plan, plans_recv. done.
Qed.

Lemma sync_spec inbox st st' :
  sync inbox st = Ok st' →
  rows st' = merge_all (merge_from_master (overlap_ st)) st inbox
  ∧ overlap_ st' = overlap_ st ∧ plans st' = plans st
  ∧ (∃ st1, sendAll_ st = Ok st1 ∧ valuesSendBuff_ st' = valuesSendBuff_ st1)
  ∧ length (rows st') = length (rows st)
  ∧ same_sizes (valuesRecvBuff_ st') (valuesRecvBuff_ st).
Proof.
  unfold sync. intros Hrun.
  apply bind_Ok in Hrun as (st1 & Hsend & Hrun).
  apply bind_Ok in Hrun as (st2 & Hphase & Hwait).
  destruct (sync_family_spec (receiveFromMaster_ inbox) merge_from_master
              inbox st st1 st2 st') as (? & ? & ? & ? & ? & ?); [|done..|].
  { intros p t t'. apply receiveFromMaster_spec. }
  split_and!; eauto.
Qed.

Lemma syncAdd_spec inbox st st' :
  syncAdd inbox st = Ok st' →
  rows st' = merge_all (λ _, merge_add) st inbox
  ∧ overlap_ st' = overlap_ st ∧ plans st' = plans st
  ∧ (∃ st1, sendAll_ st = Ok st1 ∧ valuesSendBuff_ st' = valuesSendBuff_ st1)
  ∧ length (rows st') = length (rows st)
  ∧ same_sizes (valuesRecvBuff_ st') (valuesRecvBuff_ st).
Proof.
  unfold syncAdd. intros Hrun.
  apply bind_Ok in Hrun as (st1 & Hsend & Hrun).
  apply bind_Ok in Hrun as (st2 & Hphase & Hwait).
  destruct (sync_family_spec (receiveAdd_ inbox) (λ _ _, merge_add)
              inbox st st1 st2 st') as (? & ? & ? & ? & ? & ?); [|done..|].
  { intros p t t'. apply receiveAdd_spec. }
  split_and!; eauto.
Qed.

Lemma syncAddBorder_spec inbox st st' :
  syncAddBorder inbox st = Ok st' →
  rows st' = merge_all (merge_add_border (overlap_ st)) st inbox
  ∧ overlap_ st' = overlap_ st ∧ plans st' = plans st
  ∧ (∃ st1, sendAll_ st = Ok st1 ∧ valuesSendBuff_ st' = valuesSendBuff_ st1)
  ∧ length (rows st') = length (rows st)
  ∧ same_sizes (valuesRecvBuff_ st') (valuesRecvBuff_ st).
Proof.
  unfold syncAddBorder. intros Hrun.
  apply bind_Ok in Hrun as (st1 & Hsend & Hrun).
  apply bind_Ok in Hrun as (st2 & Hphase & Hwait).
  destruct (sync_family_spec (receiveAddBorder_ inbox) merge_add_border
              inbox st st1 st2 st') as (? & ? & ? & ? & ? & ?); [|done..|].
  { intros p t t'. apply receiveAddBorder_spec. }
  split_and!; eauto.
Qed.

End sync_family.

(** ** Overwrite-from-master as a sequence of writes *)

Section from_master.
Context {F : Type} `{Block F}.
Implicit Types (st : OverlappingBlockVector F) (inbox : Z → option (list F)).

Lemma foldl_merge_from_master overlap peerRank (rows : list F) entries :
  foldl (merge_from_master overlap peerRank) rows entries
  = write_all rows (omap (master_write overlap peerRank) entries).
Proof.
  revert rows. induction entries as [|[d v] entries IH]; intros rows; [done|].
  simpl. rewrite IH. unfold merge_from_master, merge_overwrite, master_write.
  simpl. destruct (decide (masterRank overlap d = peerRank)) as [Hm|Hm].
  - destruct (decide (0 ≤ d)) as [Hd|Hd].
    + by rewrite decide_True.
    + rewrite decide_False; [done|]. by intros [_ ?].
  - rewrite decide_False; [done|]. by intros [? _].
Qed.

Lemma merge_all_from_master st inbox :
  merge_all (merge_from_master (overlap_ st)) st inbox
  = write_all (rows st) (master_writes st inbox).
Proof.
  unfold merge_all, master_writes. generalize (rows st).
  induction (peerSet (overlap_ st)) as [|p l IH]; intros rows0; [done|].
  simpl. rewrite IH, foldl_merge_from_master.
  symmetry. apply write_all_app.
Qed.

(** Where a write of a call comes from. *)
Lemma master_writes_elem st inbox k v :
  (k, v) ∈ master_writes st inbox →
  ∃ indices values j,
    masterRank (overlap_ st) (Z.of_nat k) ∈ peerSet (overlap_ st)
    ∧ indicesRecvBuff_ st !! masterRank (overlap_ st) (Z.of_nat k) = Some indices
    ∧ inbox (masterRank (overlap_ st) (Z.of_nat k)) = Some values
    ∧ indices !! j = Some (Z.of_nat k) ∧ values !! j = Some v.
Proof.
  unfold master_writes. intros (p & Hkv & Hp)%list_elem_of_bind.
  apply list_elem_of_omap in Hkv as ([d v'] & Hin & Hw).
  unfold master_write in Hw. simpl in Hw. case_decide as Hd; [|done].
  destruct Hd as [Hm Hd]. injection Hw as <- <-.
  rewrite Z2Nat.id by done.
  apply list_elem_of_lookup in Hin as [j Hj]. unfold incoming in Hj.
  apply lookup_zip_with_Some in Hj as (d' & v'' & [= <- <-] & Hd' & Hv').
  destruct (indicesRecvBuff_ st !! p) as [indices|] eqn:Hind; [|done].
  destruct (inbox p) as [values|] eqn:Hval; [|done]. simpl in *.
  exists indices, values, j. rewrite Hm. by split_and!.
Qed.

Lemma omap_cons_match {A B} (f : A → option B) x l :
  omap f (x :: l) = match f x with
                    | Some y => y :: omap f l
                    | None => omap f l
                    end.
Proof. done. Qed.

(** Two messages of one peer that agree where the peer is the master
    contribute the same writes. *)
Lemma omap_master_write_agree overlap peerRank indices (values values' : list F) :
  length values = length values' →
  (∀ j d, indices !! j = Some d → masterRank overlap d = peerRank →
     values !! j = values' !! j) →
  omap (master_write overlap peerRank) (zip indices values)
  = omap (master_write overlap peerRank) (zip indices values').
Proof.
  revert values values'.
  induction indices as [|d indices IH]; intros values values' Hlen Hag;
    [done|].
  destruct values as [|v values], values' as [|v' values']; try done.
  change (zip (d :: indices) (v :: values))
    with ((d, v) :: zip indices values).
  change (zip (d :: indices) (v' :: values'))
    with ((d, v') :: zip indices values').
  rewrite !omap_cons_match, (IH values values').
  - unfold master_write. simpl. case_decide as Hd; [|done].
    destruct Hd as [Hm _]. specialize (Hag 0%nat d eq_refl Hm). simpl in Hag.
    by injection Hag as ->.
  - simpl in Hlen. lia.
  - intros j d' Hj Hm. apply (Hag (S j) d' Hj Hm).
Qed.

Lemma master_writes_agree st inbox inbox' :
  agree_on_master st inbox inbox' →
  master_writes st inbox = master_writes st inbox'.
Proof.
  unfold agree_on_master, master_writes. intros Hag.
  induction (peerSet (overlap_ st)) as [|p l IH]; [done|].
  rewrite !bind_cons. rewrite IH by (intros q Hq; apply Hag; by right).
  f_equal. destruct (Hag p) as [Hlen Hval]; [left|].
  unfold incoming.
  destruct (indicesRecvBuff_ st !! p) as [indices|] eqn:Hind; [|done].
  destruct (inbox p) as [values|], (inbox' p) as [values'|]; try done.
  simpl in *. apply omap_master_write_agree; [by injection Hlen|].
  intros j d Hj Hm. by apply (Hval indices j d).
Qed.

(** A row changes only through a value its master sent for it. *)
Lemma sync_row inbox st st' k :
  sync inbox st = Ok st' →
  rows st' !! k = rows st !! k
  ∨ ∃ indices values j v,
      masterRank (overlap_ st) (Z.of_nat k) ∈ peerSet (overlap_ st)
      ∧ indicesRecvBuff_ st !! masterRank (overlap_ st) (Z.of_nat k)
        = Some indices
      ∧ inbox (masterRank (overlap_ st) (Z.of_nat k)) = Some values
      ∧ indices !! j = Some (Z.of_nat k) ∧ values !! j = Some v
      ∧ rows st' !! k = Some v.
Proof.
  intros (Hrows & _)%sync_spec. rewrite Hrows, merge_all_from_master.
  destruct (write_all_cases (rows st) (master_writes st inbox) k)
    as [Hsame|(v & Hv & Hk)]; [by left|right].
  apply master_writes_elem in Hv as (indices & values & j & ? & ? & ? & ? & ?).
  exists indices, values, j, v. by split_and!.
Qed.

Lemma sync_row_not_from_peer inbox st st' k :
  sync inbox st = Ok st' →
  masterRank (overlap_ st) (Z.of_nat k) ∉ peerSet (overlap_ st) →
  rows st' !! k = rows st !! k.
Proof.
  intros Hrun Hnot. destruct (sync_row inbox st st' k Hrun)
    as [Hsame|(? & ? & ? & ? & Hin & _)]; done.
Qed.

End from_master.

(** ** Calls on objects of the same shape succeed together *)

Section same_shape.
Context {F : Type} `{Block F}.
Implicit Types (st : OverlappingBlockVector F) (inbox : Z → option (list F)).

Lemma same_shape_refl st : same_shape st st.
Proof. by split. Qed.

Lemma vec_at_sim {T} (v1 v2 : list T) i x :
  length v1 = length v2 → vec_at v1 i = Ok x → ∃ y, vec_at v2 i = Ok y.
Proof.
  intros Hlen [Hi Hx]%vec_at_Ok. apply lookup_lt_Some in Hx.
  destruct (lookup_lt_is_Some_2 v2 (Z.to_nat i)) as [y Hy]; [lia|].
  exists y. by apply vec_at_Ok.
Qed.

Lemma vec_set_sim {T} (v1 v2 v1' : list T) i x y :
  length v1 = length v2 → vec_set v1 i x = Ok v1' →
  ∃ v2', vec_set v2 i y = Ok v2' ∧ length v1' = length v2'.
Proof.
  intros Hlen [Hi ->]%vec_set_Ok. exists (<[Z.to_nat i := y]> v2).
  unfold vec_set. rewrite decide_True by lia.
  by rewrite !length_insert.
Qed.

Lemma buf_at_sim {T} (v1 v2 : list T) j x :
  length v1 = length v2 → buf_at v1 j = Ok x → ∃ y, buf_at v2 j = Ok y.
Proof.
  intros Hlen Hx%buf_at_Ok%lookup_lt_Some.
  destruct (lookup_lt_is_Some_2 v2 j) as [y Hy]; [lia|].
  exists y. by apply buf_at_Ok.
Qed.

Lemma buf_set_sim {T} (v1 v2 v1' : list T) j x y :
  length v1 = length v2 → buf_set v1 j x = Ok v1' →
  ∃ v2', buf_set v2 j y = Ok v2' ∧ length v1' = length v2'.
Proof.
  intros Hlen [Hj ->]%buf_set_Ok. exists (<[j := y]> v2).
  unfold buf_set. rewrite decide_True by lia.
  by rewrite !length_insert.
Qed.

Lemma sendEntries_sim peerRank st1 st2 st1' :
  same_shape st1 st2 →
  sendEntries_ peerRank st1 = Ok st1' →
  ∃ st2', sendEntries_ peerRank st2 = Ok st2' ∧ same_shape st1' st2'.
Proof.
  intros [Hov Hpl Hrows Hsend Hrecv]. unfold sendEntries_. intros Hrun.
  apply bind_Ok in Hrun as (indices & Hind & Hrun).
  apply bind_Ok in Hrun as (values1 & Hval1%deref_Ok & Hrun).
  apply bind_Ok in Hrun as (values1' & Hloop & [= <-]).
  rewrite <-(plans_send _ _ Hpl), Hind. simpl.
  destruct (same_sizes_lookup _ _ _ _ Hsend Hval1) as (values2 & Hval2 & Hlen).
  apply deref_Ok in Hval2. rewrite Hval2. simpl.
  eapply (for_sim (λ v1 v2 : list F, length v1 = length v2)) in Hloop
    as (values2' & -> & Hlen'); [|done|].
  - simpl. eexists. split; [done|]. split; simpl; try done.
    by apply same_sizes_insert.
  - intros j t1 t2 t1' _ Ht Hbody. simpl in *.
    apply bind_Ok in Hbody as (idx & -> & Hbody). simpl.
    apply bind_Ok in Hbody as (v & Hv & Hset).
    destruct (vec_at_sim _ _ _ _ Hrows Hv) as (w & ->). simpl.
    by eapply buf_set_sim.
Qed.

Lemma sendAll_sim st1 st2 st1' :
  same_shape st1 st2 →
  sendAll_ st1 = Ok st1' →
  ∃ st2', sendAll_ st2 = Ok st2' ∧ same_shape st1' st2'.
Proof.
  intros Hshape. unfold sendAll_. rewrite <-(shape_overlap _ _ Hshape).
  intros Hrun. eapply for_each_sim in Hrun; [done..|].
  intros p t1 t2 t1' _. apply sendEntries_sim.
Qed.

Lemma receiveFromMaster_sim inbox1 inbox2 peerRank st1 st2 st1' :
  same_shape st1 st2 →
  length <$> inbox1 peerRank = length <$> inbox2 peerRank →
  receiveFromMaster_ inbox1 peerRank st1 = Ok st1' →
  ∃ st2', receiveFromMaster_ inbox2 peerRank st2 = Ok st2'
          ∧ same_shape st1' st2'.
Proof.
  intros [Hov Hpl Hrows Hsend Hrecv] Hin. unfold receiveFromMaster_.
  intros Hrun.
  apply bind_Ok in Hrun as (indices & Hind & Hrun).
  apply bind_Ok in Hrun as (values01 & Hval1%deref_Ok & Hrun).
  apply bind_Ok in Hrun as (values1 & [Hin1 Hlen1]%receive_Ok & Hrun).
  apply bind_Ok in Hrun as (rows1' & Hloop & [= <-]).
  rewrite <-(plans_recv _ _ Hpl), Hind. simpl.
  destruct (same_sizes_lookup _ _ _ _ Hrecv Hval1) as (values02 & Hval2 & Hlen).
  apply deref_Ok in Hval2. rewrite Hval2. simpl.
  rewrite Hin1 in Hin. destruct (inbox2 peerRank) as [values2|] eqn:Hin2;
    [|done]. injection Hin as Hin.
  assert (receive values02 (Some values2) = Ok values2) as ->.
  { apply receive_Ok. split; [done|]. congruence. }
  simpl.
  eapply (for_sim (λ r1 r2 : list F, length r1 = length r2)) in Hloop
    as (rows2' & -> & Hlen'); [|done|].
  - simpl. eexists. split; [done|]. split; simpl; try done.
    by apply same_sizes_insert.
  - intros j t1 t2 t1' _ Ht Hbody. simpl in *.
    apply bind_Ok in Hbody as (d & -> & Hbody). simpl. rewrite <-Hov.
    case_decide.
    + apply bind_Ok in Hbody as (v & Hv & Hset).
      destruct (buf_at_sim _ values2 _ _ Hin Hv) as (w & ->). simpl.
      by eapply vec_set_sim.
    + injection Hbody as <-. eauto.
Qed.

Lemma waitSendFinished__sim st1 st2 st1' :
  same_shape st1 st2 →
  waitSendFinished_ st1 = Ok st1' →
  ∃ st2', waitSendFinished_ st2 = Ok st2' ∧ same_shape st1' st2'.
Proof.
  intros Hshape. unfold waitSendFinished_.
  rewrite <-(shape_overlap _ _ Hshape).
  intros Hrun. eapply for_each_sim in Hrun; [done..|].
  intros p t1 t2 t1' _ Ht Hbody. simpl in *.
  apply bind_Ok in Hbody as (values1 & Hval1%deref_Ok & [= <-]).
  destruct (same_sizes_lookup _ _ _ _ (shape_send _ _ Ht) Hval1)
    as (values2 & Hval2%deref_Ok & _).
  rewrite Hval2. simpl. eauto.
Qed.

Lemma sync_sim inbox1 inbox2 st1 st2 st1' :
  same_shape st1 st2 →
  (∀ p, p ∈ peerSet (overlap_ st1) →
     length <$> inbox1 p = length <$> inbox2 p) →
  sync inbox1 st1 = Ok st1' →
  ∃ st2', sync inbox2 st2 = Ok st2' ∧ same_shape st1' st2'.
Proof.
  intros Hshape Hin. unfold sync. intros Hrun.
  apply bind_Ok in Hrun as (t1 & Hsend & Hrun).
  apply bind_Ok in Hrun as (u1 & Hphase & Hwait).
  destruct (sendAll_sim _ _ _ Hshape Hsend) as (t2 & -> & Ht). simpl.
  rewrite <-(shape_overlap _ _ Hshape).
  eapply for_each_sim in Hphase as (u2 & -> & Hu); [simpl| exact Ht |].
  - by eapply waitSendFinished__sim.
  - intros p v1 v2 v1' Hp Hv. apply receiveFromMaster_sim; [done|].
    by apply Hin.
Qed.

(** [sync] returns an object of the shape it was given. *)
Lemma sync_same_shape inbox st st' :
  sync inbox st = Ok st' → same_shape st st'.
Proof.
  intros Hrun.
  apply sync_spec in Hrun as (_ & Hov & Hpl & (st1 & Hsend & Hbuf) & Hlen & Hsz).
  split; try done.
  - intros p. rewrite Hbuf.
    apply sendAll_spec in Hsend as (_ & _ & Hdone & Hout).
    destruct (decide (p ∈ peerSet (overlap_ st))) as [Hp|Hp].
    + destruct (Hdone p Hp) as (? & ? & ? & _ & -> & -> & Hlen' & _).
      simpl. by rewrite Hlen'.
    + by rewrite Hout.
  - intros p. symmetry. apply Hsz.
Qed.

End same_shape.

(** ** [assign] and [assignTo] *)

Section assign.
Context {F : Type} `{Block F}.
Implicit Types (st : OverlappingBlockVector F) (inbox : Z → option (list F)).

Lemma assignLocalRows__spec nativeBlockVector st st1 :
  assignLocalRows_ nativeBlockVector st = Ok st1 →
  overlap_ st1 = overlap_ st ∧ plans st1 = plans st
  ∧ valuesSendBuff_ st1 = valuesSendBuff_ st
  ∧ valuesRecvBuff_ st1 = valuesRecvBuff_ st
  ∧ length (rows st1) = length (rows st)
  ∧ (∀ k, (k < Z.to_nat (numDomestic (overlap_ st)))%nat →
       is_Some (rows st1 !! k)
       ∧ rows st1 !! k
         = local_row (overlap_ st) nativeBlockVector (Z.of_nat k))
  ∧ (∀ k, (Z.to_nat (numDomestic (overlap_ st)) ≤ k)%nat →
       rows st1 !! k = rows st !! k).
Proof.
  unfold assignLocalRows_. intros Hrun.
  apply bind_Ok in Hrun as (rows' & Hloop & [= <-]). simpl.
  apply (for_ind (λ j r,
      length r = length (rows st)
      ∧ (∀ k, (k < j)%nat →
           is_Some (r !! k)
           ∧ r !! k = local_row (overlap_ st) nativeBlockVector (Z.of_nat k))
      ∧ (∀ k, (j ≤ k)%nat → r !! k = rows st !! k))) in Hloop.
  - destruct Hloop as (Hlen & Hdone & Hrest). by split_and!.
  - split_and!; [done| |done]. intros k ?. lia.
  - intros j r r' Hj (Hlen & Hdone & Hrest) Hstep. simpl in Hstep.
    assert (∃ v, local_row (overlap_ st) nativeBlockVector (Z.of_nat j)
                 = Some v
                 ∧ (j < length r)%nat ∧ r' = <[j := v]> r)
      as (v & Hv & Hlt & ->).
    { unfold local_row. case_decide.
      - apply vec_set_Ok in Hstep as [? ->]. exists zero.
        rewrite Nat2Z.id. split_and!; [done|lia|done].
      - apply bind_Ok in Hstep as (v & [? Hv]%vec_at_Ok & [? ->]%vec_set_Ok).
        exists v. rewrite Nat2Z.id. split_and!; [done|lia|done]. }
    split_and!.
    + by rewrite length_insert.
    + intros k Hk. destruct (decide (k = j)) as [->|Hne].
      * rewrite list_lookup_insert_eq by done. by rewrite Hv.
      * rewrite list_lookup_insert_ne by done. apply Hdone. lia.
    + intros k Hk. rewrite list_lookup_insert_ne by lia. apply Hrest. lia.
Qed.

Lemma resize_length n (fresh : F) v : length (resize n fresh v) = n.
Proof.
  unfold resize. rewrite length_app, length_take, length_replicate. lia.
Qed.

Lemma assignTo_spec target st st' out :
  assignTo target st = Ok (st', out) →
  st' = st ∧ 0 ≤ numNative (overlap_ st)
  ∧ length out = Z.to_nat (numNative (overlap_ st))
  ∧ ∀ k, (k < Z.to_nat (numNative (overlap_ st)))%nat →
      is_Some (out !! k) ∧ out !! k = native_row st (Z.of_nat k).
Proof.
  unfold assignTo. case_decide as Hneg; [done|]. intros Hrun.
  apply bind_Ok in Hrun as (out' & Hloop & [= <- <-]).
  split; [done|]. split; [lia|].
  apply (for_ind (λ j r,
      length r = Z.to_nat (numNative (overlap_ st))
      ∧ (∀ k, (k < j)%nat →
           is_Some (r !! k) ∧ r !! k = native_row st (Z.of_nat k)))) in Hloop.
  - done.
  - split; [apply resize_length|]. intros k ?. lia.
  - intros j r r' Hj (Hlen & Hdone) Hstep. simpl in Hstep.
    assert (∃ v, native_row st (Z.of_nat j) = Some v
                 ∧ (j < length r)%nat ∧ r' = <[j := v]> r)
      as (v & Hv & Hlt & ->).
    { unfold native_row. case_decide.
      - apply vec_set_Ok in Hstep as [? ->]. exists zero.
        rewrite Nat2Z.id. split_and!; [done|lia|done].
      - apply bind_Ok in Hstep as (v & [? Hv]%vec_at_Ok & [? ->]%vec_set_Ok).
        exists v. rewrite Nat2Z.id. split_and!; [done|lia|done]. }
    split; [by rewrite length_insert|].
    intros k Hk. destruct (decide (k = j)) as [->|Hne].
    + rewrite list_lookup_insert_eq by done. by rewrite Hv.
    + rewrite list_lookup_insert_ne by done. apply Hdone. lia.
Qed.

Lemma assignTo_returns target st :
  0 ≤ numNative (overlap_ st) →
  (∀ n, 0 ≤ n < numNative (overlap_ st) →
     nativeToDomestic (overlap_ st) n < Z.of_nat (length (rows st))) →
  ∃ out, assignTo target st = Ok (st, out).
Proof.
  intros Hpos Hrange. unfold assignTo. rewrite decide_False by lia.
  destruct (for_total
    (λ _ r, length r = Z.to_nat (numNative (overlap_ st)))
    (λ k target0,
       let nativeRowIdx := Z.of_nat k in
       let domRowIdx := nativeToDomestic (overlap_ st) nativeRowIdx in
       if decide (domRowIdx < 0) then vec_set target0 nativeRowIdx zero
       else v ← vec_at (rows st) domRowIdx; vec_set target0 nativeRowIdx v)
    0%nat (Z.to_nat (numNative (overlap_ st)))
    (resize (Z.to_nat (numNative (overlap_ st))) zero target))
    as (out & Hout & _).
  - apply resize_length.
  - intros j r Hj Hlen. simpl. case_decide as Hd.
    + exists (<[j := zero]> r). unfold vec_set.
      rewrite decide_True by lia. by rewrite Nat2Z.id, length_insert.
    + destruct (lookup_lt_is_Some_2 (rows st)
                  (Z.to_nat (nativeToDomestic (overlap_ st) (Z.of_nat j))))
        as [v Hv].
      { specialize (Hrange (Z.of_nat j)). lia. }
      exists (<[j := v]> r). unfold vec_at. rewrite decide_True by lia.
      rewrite Hv. simpl. unfold vec_set.
      rewrite decide_True by lia. by rewrite Nat2Z.id, length_insert.
  - exists out. simpl in Hout. by rewrite Hout.
Qed.

End assign.

(** ** What a call that returns has read *)

Section reads.
Context {F : Type} `{Block F}.
Implicit Types (st : OverlappingBlockVector F) (inbox : Z → option (list F)).

Lemma receive_loop_reads indices (values : list F) (needed : Prop) body
    (rows rows' : list F) j d :
  (∀ j' t t', body j' t = Ok t' → length t' = length t) →
  (∀ t t', body j t = Ok t' → needed →
     is_Some (values !! j) ∧ 0 ≤ d < Z.of_nat (length t)) →
  for_ 0 (length indices) body rows = Ok rows' →
  indices !! j = Some d → needed →
  is_Some (values !! j) ∧ 0 ≤ d < Z.of_nat (length rows).
Proof.
  intros Hlen Hread Hloop Hj Hneed.
  apply (for_ind (λ j' (r : list F),
      length r = length rows
      ∧ ((j < j')%nat → is_Some (values !! j)
                        ∧ 0 ≤ d < Z.of_nat (length rows)))) in Hloop.
  - destruct Hloop as [_ Hdone]. apply Hdone. by eapply lookup_lt_Some.
  - split; [done|lia].
  - intros j' r r' Hj' [Hlen' Hdone] Hstep.
    split; [by rewrite (Hlen _ _ _ Hstep)|]. intros Hlt.
    destruct (decide (j = j')) as [->|Hne]; [|apply Hdone; lia].
    rewrite <-Hlen'. by eapply Hread.
Qed.

Lemma receiveFromMaster__reads inbox q st st' indices j d :
  receiveFromMaster_ inbox q st = Ok st' →
  indicesRecvBuff_ st !! q = Some indices → indices !! j = Some d →
  needs_master (overlap_ st) q d →
  ∃ values, inbox q = Some values ∧ is_Some (values !! j)
            ∧ 0 ≤ d < Z.of_nat (length (rows st)).
Proof.
  unfold receiveFromMaster_, needs_master. intros Hrun Hind Hj Hm.
  apply bind_Ok in Hrun as (indices' & Hind'%deref_Ok & Hrun).
  assert (indices' = indices) as -> by congruence.
  apply bind_Ok in Hrun as (values0 & Hval0%deref_Ok & Hrun).
  apply bind_Ok in Hrun as (values & [Hin Hlen]%receive_Ok & Hrun).
  apply bind_Ok in Hrun as (rows' & Hloop & _).
  exists values. split; [done|].
  eapply (receive_loop_reads indices values
            (masterRank (overlap_ st) d = q)); [| |done..].
  - intros j' t t' Hstep. apply bind_Ok in Hstep as (d' & _ & Hstep).
    case_decide; [|by injection Hstep as <-].
    apply bind_Ok in Hstep as (v & _ & Hstep). by eapply vec_set_length.
  - intros t t' Hstep Hmaster.
    apply bind_Ok in Hstep as (d' & Hd'%buf_at_Ok & Hstep).
    assert (d' = d) as -> by congruence. rewrite decide_True in Hstep by done.
    apply bind_Ok in Hstep as (v & Hv%buf_at_Ok & [Hrange _]%vec_set_Ok).
    split; [by eexists|done].
Qed.

Lemma receiveAdd__reads inbox q st st' indices j d :
  receiveAdd_ inbox q st = Ok st' →
  indicesRecvBuff_ st !! q = Some indices → indices !! j = Some d →
  needs_all (overlap_ st) q d →
  ∃ values, inbox q = Some values ∧ is_Some (values !! j)
            ∧ 0 ≤ d < Z.of_nat (length (rows st)).
Proof.
  unfold receiveAdd_. intros Hrun Hind Hj _.
  apply bind_Ok in Hrun as (indices' & Hind'%deref_Ok & Hrun).
  assert (indices' = indices) as -> by congruence.
  apply bind_Ok in Hrun as (values0 & Hval0%deref_Ok & Hrun).
  apply bind_Ok in Hrun as (values & [Hin Hlen]%receive_Ok & Hrun).
  apply bind_Ok in Hrun as (rows' & Hloop & _).
  exists values. split; [done|].
  eapply (receive_loop_reads indices values True); [| |done..].
  - intros j' t t' Hstep. apply bind_Ok in Hstep as (d' & _ & Hstep).
    apply bind_Ok in Hstep as (old & _ & Hstep).
    apply bind_Ok in Hstep as (v & _ & Hstep). by eapply vec_set_length.
  - intros t t' Hstep _.
    apply bind_Ok in Hstep as (d' & Hd'%buf_at_Ok & Hstep).
    assert (d' = d) as -> by congruence.
    apply bind_Ok in Hstep as (old & _ & Hstep).
    apply bind_Ok in Hstep as (v & Hv%buf_at_Ok & [Hrange _]%vec_set_Ok).
    split; [by eexists|done].
Qed.

Lemma receiveAddBorder__reads inbox q st st' indices j d :
  receiveAddBorder_ inbox q st = Ok st' →
  indicesRecvBuff_ st !! q = Some indices → indices !! j = Some d →
  needs_all (overlap_ st) q d →
  ∃ values, inbox q = Some values ∧ is_Some (values !! j)
            ∧ 0 ≤ d < Z.of_nat (length (rows st)).
Proof.
  unfold receiveAddBorder_. intros Hrun Hind Hj _.
  apply bind_Ok in Hrun as (indices' & Hind'%deref_Ok & Hrun).
  assert (indices' = indices) as -> by congruence.
  apply bind_Ok in Hrun as (values0 & Hval0%deref_Ok & Hrun).
  apply bind_Ok in Hrun as (values & [Hin Hlen]%receive_Ok & Hrun).
  apply bind_Ok in Hrun as (rows' & Hloop & _).
  exists values. split; [done|].
  eapply (receive_loop_reads indices values True); [| |done..].
  - intros j' t t' Hstep. apply bind_Ok in Hstep as (d' & _ & Hstep).
    destruct (isBorderWith _ _ _).
    + apply bind_Ok in Hstep as (old & _ & Hstep).
      apply bind_Ok in Hstep as (v & _ & Hstep). by eapply vec_set_length.
    + apply bind_Ok in Hstep as (v & _ & Hstep). by eapply vec_set_length.
  - intros t t' Hstep _.
    apply bind_Ok in Hstep as (d' & Hd'%buf_at_Ok & Hstep).
    assert (d' = d) as -> by congruence.
    destruct (isBorderWith _ _ _).
    + apply bind_Ok in Hstep as (old & _ & Hstep).
      apply bind_Ok in Hstep as (v & Hv%buf_at_Ok & [Hrange _]%vec_set_Ok).
      split; [by eexists|done].
    + apply bind_Ok in Hstep as (v & Hv%buf_at_Ok & [Hrange _]%vec_set_Ok).
      split; [by eexists|done].
Qed.

(** The same for a whole call, with any of the three receivers. *)
Lemma sync_family_reads receiver needs inbox st st1 st2 q :
  (∀ p t t', receiver p t = Ok t' → receive_frame inbox p t t') →
  (∀ p t t' indices j d,
     receiver p t = Ok t' →
     indicesRecvBuff_ t !! p = Some indices → indices !! j = Some d →
     needs (overlap_ t) p d →
     ∃ values, inbox p = Some values ∧ is_Some (values !! j)
               ∧ 0 ≤ d < Z.of_nat (length (rows t))) →
  sendAll_ st = Ok st1 →
  for_each (peerSet (overlap_ st)) receiver st1 = Ok st2 →
  q ∈ peerSet (overlap_ st) →
  reads needs st inbox q.
Proof.
  intros Hframe Hreads Hsend Hphase Hq.
  apply sendAll_spec in Hsend as ((Hrows & Hov & Hpl & _) & _).
  apply (for_each_post
    (λ t, overlap_ t = overlap_ st ∧ plans t = plans st
          ∧ length (rows t) = length (rows st))
    (λ q (_ : OverlappingBlockVector F), reads needs st inbox q))
    in Hphase as [_ Hall]; [by apply Hall| | |done].
  - split_and!; congruence.
  - intros x t t' _ (Hovt & Hplt & Hlent) Hrecv.
    pose proof (Hframe _ _ _ Hrecv)
      as (Hovt' & Hplt' & _ & Hlent' & values0 & values & _ & Hin & _).
    split; [split_and!; congruence|].
    exists values. split; [done|]. intros indices j d Hind Hj Hneed.
    destruct (Hreads x t t' indices j d)
      as (values' & Hin' & Hsome & Hrange); [done| |done| |].
    + by rewrite (plans_recv _ _ Hplt).
    + by rewrite Hovt.
    + assert (values' = values) as -> by congruence.
      split; [done|]. by rewrite <-Hlent.
Qed.

Lemma sync_reads inbox st st' q :
  sync inbox st = Ok st' → q ∈ peerSet (overlap_ st) →
  reads needs_master st inbox q.
Proof.
  unfold sync. intros Hrun Hq.
  apply bind_Ok in Hrun as (st1 & Hsend & Hrun).
  apply bind_Ok in Hrun as (st2 & Hphase & _).
  eapply (sync_family_reads (receiveFromMaster_ inbox)); try done.
  - intros p t t' Hrecv. by apply receiveFromMaster_spec in Hrecv as [_ ?].
  - intros p t t' indices j d. apply receiveFromMaster__reads.
Qed.

Lemma syncAdd_reads inbox st st' q :
  syncAdd inbox st = Ok st' → q ∈ peerSet (overlap_ st) →
  reads needs_all st inbox q.
Proof.
  unfold syncAdd. intros Hrun Hq.
  apply bind_Ok in Hrun as (st1 & Hsend & Hrun).
  apply bind_Ok in Hrun as (st2 & Hphase & _).
  eapply (sync_family_reads (receiveAdd_ inbox)); try done.
  - intros p t t' Hrecv. by apply receiveAdd_spec in Hrecv as [_ ?].
  - intros p t t' indices j d. apply receiveAdd__reads.
Qed.

Lemma syncAddBorder_reads inbox st st' q :
  syncAddBorder inbox st = Ok st' → q ∈ peerSet (overlap_ st) →
  reads needs_all st inbox q.
Proof.
  unfold syncAddBorder. intros Hrun Hq.
  apply bind_Ok in Hrun as (st1 & Hsend & Hrun).
  apply bind_Ok in Hrun as (st2 & Hphase & _).
  eapply (sync_family_reads (receiveAddBorder_ inbox)); try done.
  - intros p t t' Hrecv. by apply receiveAddBorder_spec in Hrecv as [_ ?].
  - intros p t t' indices j d. apply receiveAddBorder__reads.
Qed.

(** A policy that uses every position pairs every position of the plan
    with a value. *)
Lemma reads_all_covers st inbox q indices :
  reads needs_all st inbox q →
  indicesRecvBuff_ st !! q = Some indices →
  length (incoming st inbox q) = length indices
  ∧ ∀ j d, indices !! j = Some d →
      ∃ v, incoming st inbox q !! j = Some (d, v)
           ∧ 0 ≤ d < Z.of_nat (length (rows st)).
Proof.
  intros (values & Hin & Hreads) Hind.
  rewrite (incoming_Some _ _ _ _ _ Hind Hin).
  assert (length indices ≤ length values)%nat as Hle.
  { destruct (decide (length indices ≤ length values)%nat); [done|].
    destruct (lookup_lt_is_Some_2 indices (length values)) as [d Hd]; [lia|].
    destruct (Hreads indices (length values) d Hind Hd I) as [[v Hv] _].
    apply lookup_lt_Some in Hv. lia. }
  split; [rewrite length_zip_with; lia|].
  intros j d Hj. destruct (Hreads indices j d Hind Hj I) as [[v Hv] Hrange].
  exists v. split; [|done]. apply lookup_zip_with_Some. eauto.
Qed.

End reads.

(** ** Calls that return *)

Section returns.
Context {F : Type} `{Block F}.
Implicit Types (st t : OverlappingBlockVector F).
Implicit Types (inbox : Z → option (list F)).

Lemma sendEntries__returns st t p :
  same_shape st t → can_send st p →
  ∃ t', sendEntries_ p t = Ok t' ∧ same_shape st t'.
Proof.
  intros [Hov Hpl Hrows Hsend Hrecv]
    (indices & values & Hind & Hval & Hfit & Hrange).
  destruct (same_sizes_lookup _ _ _ _ Hsend Hval) as (values' & Hval' & Hlen).
  unfold sendEntries_, deref.
  rewrite <-(plans_send _ _ Hpl), Hind, Hval'. simpl.
  destruct (for_total (λ _ (vals : list F), length vals = length values')
    (λ i vals, idx ← buf_at indices i; v ← vec_at (rows t) idx;
               buf_set vals i v)
    0%nat (length indices) values') as (vals & -> & Hvals); [done| |].
  - intros i vals Hi Hvlen.
    destruct (lookup_lt_is_Some_2 indices i) as [idx Hidx]; [lia|].
    destruct (Hrange i idx Hidx) as [Hpos Hlt].
    destruct (lookup_lt_is_Some_2 (rows t) (Z.to_nat idx)) as [v Hv]; [lia|].
    exists (<[i := v]> vals). unfold buf_at, vec_at, buf_set.
    rewrite Hidx. simpl. rewrite decide_True, Hv by done. simpl.
    rewrite decide_True by lia. by rewrite length_insert.
  - simpl. eexists. split; [done|]. split; simpl; try done.
    intros q. destruct (decide (q = p)) as [->|Hne].
    + rewrite lookup_insert_eq, Hval. simpl. f_equal. congruence.
    + rewrite lookup_insert_ne by done. apply Hsend.
Qed.

Lemma sendAll__returns st :
  (∀ p, p ∈ peerSet (overlap_ st) → can_send st p) →
  ∃ st1, sendAll_ st = Ok st1 ∧ same_shape st st1.
Proof.
  intros Hcan. unfold sendAll_.
  apply (for_each_total (same_shape st)); [apply same_shape_refl|].
  intros p t Hp Ht. apply sendEntries__returns; [done|by apply Hcan].
Qed.

Lemma waitSendFinished__returns st t :
  same_shape st t →
  (∀ p, p ∈ peerSet (overlap_ st) → can_send st p) →
  waitSendFinished_ t = Ok t.
Proof.
  intros Hshape Hcan. unfold waitSendFinished_.
  rewrite <-(shape_overlap _ _ Hshape).
  destruct (for_each_total (λ u, u = t)
    (λ peerRank u, _ ← deref (valuesSendBuff_ u) peerRank; Ok u)
    (peerSet (overlap_ st)) t) as (u & Hu & ->); [done| |done].
  intros p u Hp ->. destruct (Hcan p Hp) as (_ & values & _ & Hval & _).
  destruct (same_sizes_lookup _ _ _ _ (shape_send _ _ Hshape) Hval)
    as (values' & Hval' & _).
  exists t. unfold deref. by rewrite Hval'.
Qed.

(** The row loop of a receiver returns when each of its steps does. *)
Lemma receive_loop_returns (indices : list Z) body (rows : list F) :
  (∀ j d (r : list F), indices !! j = Some d → length r = length rows →
     ∃ r', body j r = Ok r' ∧ length r' = length rows) →
  ∃ rows', for_ 0 (length indices) body rows = Ok rows'
           ∧ length rows' = length rows.
Proof.
  intros Hbody.
  apply (for_total (λ _ (r : list F), length r = length rows)); [done|].
  intros j r Hj Hr.
  destruct (lookup_lt_is_Some_2 indices j) as [d Hd]; [lia|]. eauto.
Qed.

Local Ltac receiver_prelude Hshape Hcan :=
  let indices := fresh "indices" in
  let values0 := fresh "values0" in
  let values := fresh "values" in
  destruct Hshape as [Hov Hpl Hrows Hsend Hrecv];
  destruct Hcan as [(indices & values0 & values & Hind & Hval0 & Hin & Hlen)
                      (values' & Hin' & Hreads)];
  assert (values' = values) as -> by congruence;
  destruct (same_sizes_lookup _ _ _ _ Hrecv Hval0) as (values0' & Hval0' & Hlen0);
  unfold deref;
  rewrite <-(plans_recv _ _ Hpl), Hind, Hval0'; simpl;
  rewrite Hin, receive_fits by congruence; simpl.

Lemma receiveFromMaster__returns inbox st t p :
  same_shape st t → can_receive needs_master st inbox p →
  ∃ t', receiveFromMaster_ inbox p t = Ok t' ∧ same_shape st t'.
Proof.
  intros Hshape Hcan. unfold receiveFromMaster_.
  receiver_prelude Hshape Hcan.
  edestruct (receive_loop_returns indices) as (rows' & -> & Hlen');
    [|simpl; eexists; split; [done|]; split; simpl; try done].
  - intros j d r Hd Hr. unfold buf_at. rewrite Hd. simpl. rewrite <-Hov.
    case_decide as Hm; [|eauto].
    destruct (Hreads indices j d Hind Hd Hm) as [[v Hv] Hrange].
    rewrite Hv. simpl. exists (<[Z.to_nat d := v]> r). unfold vec_set.
    rewrite decide_True by lia. by rewrite length_insert.
  - congruence.
  - eapply same_sizes_trans; [done|]. apply same_sizes_sym.
    eapply same_sizes_insert_l; [done|]. congruence.
Qed.

Lemma receiveAdd__returns inbox st t p :
  same_shape st t → can_receive needs_all st inbox p →
  ∃ t', receiveAdd_ inbox p t = Ok t' ∧ same_shape st t'.
Proof.
  intros Hshape Hcan. unfold receiveAdd_.
  receiver_prelude Hshape Hcan.
  edestruct (receive_loop_returns indices) as (rows' & -> & Hlen');
    [|simpl; eexists; split; [done|]; split; simpl; try done].
  - intros j d r Hd Hr. unfold buf_at. rewrite Hd. simpl.
    destruct (Hreads indices j d Hind Hd I) as [[v Hv] Hrange].
    destruct (lookup_lt_is_Some_2 r (Z.to_nat d)) as [old Hold]; [lia|].
    unfold vec_at. rewrite decide_True, Hold, Hv by lia. simpl.
    eexists. unfold vec_set. rewrite decide_True by lia.
    split; [done|]. by rewrite length_insert.
  - congruence.
  - eapply same_sizes_trans; [done|]. apply same_sizes_sym.
    eapply same_sizes_insert_l; [done|]. congruence.
Qed.

Lemma receiveAddBorder__returns inbox st t p :
  same_shape st t → can_receive needs_all st inbox p →
  ∃ t', receiveAddBorder_ inbox p t = Ok t' ∧ same_shape st t'.
Proof.
  intros Hshape Hcan. unfold receiveAddBorder_.
  receiver_prelude Hshape Hcan.
  edestruct (receive_loop_returns indices) as (rows' & -> & Hlen');
    [|simpl; eexists; split; [done|]; split; simpl; try done].
  - intros j d r Hd Hr. unfold buf_at. rewrite Hd. simpl.
    destruct (Hreads indices j d Hind Hd I) as [[v Hv] Hrange].
    destruct (lookup_lt_is_Some_2 r (Z.to_nat d)) as [old Hold]; [lia|].
    unfold vec_at, vec_set. rewrite Hv.
    destruct (isBorderWith _ _ _); simpl.
    + rewrite decide_True, Hold by lia. simpl.
      rewrite decide_True by lia. eexists.
      split; [done|]. by rewrite length_insert.
    + rewrite decide_True by lia. eexists.
      split; [done|]. by rewrite length_insert.
  - congruence.
  - eapply same_sizes_trans; [done|]. apply same_sizes_sym.
    eapply same_sizes_insert_l; [done|]. congruence.
Qed.

Lemma sync_family_returns receiver needs inbox st :
  (∀ t p, same_shape st t → can_receive needs st inbox p →
     ∃ t', receiver p t = Ok t' ∧ same_shape st t') →
  ready needs st inbox →
  ∃ st1 st2,
    sendAll_ st = Ok st1
    ∧ for_each (peerSet (overlap_ st)) receiver st1 = Ok st2
    ∧ waitSendFinished_ st2 = Ok st2.
Proof.
  intros Hrecv Hready.
  destruct (sendAll__returns st) as (st1 & Hsend & Hshape1).
  { intros p Hp. by apply Hready. }
  destruct (for_each_total (same_shape st) receiver
              (peerSet (overlap_ st)) st1) as (st2 & Hphase & Hshape2);
    [done| |].
  { intros p t Hp Ht. apply Hrecv; [done|]. by apply Hready. }
  exists st1, st2. split_and!; [done..|].
  eapply waitSendFinished__returns; [done|]. intros p Hp. by apply Hready.
Qed.

Lemma sync_returns inbox st :
  ready needs_master st inbox → is_Ok (sync inbox st).
Proof.
  intros Hready. unfold sync.
  destruct (sync_family_returns (receiveFromMaster_ inbox) needs_master
              inbox st) as (st1 & st2 & -> & Hphase & Hwait); [|done|].
  { intros t p. apply receiveFromMaster__returns. }
  rewrite bind_Ok_l, Hphase, bind_Ok_l, Hwait. by exists st2.
Qed.

Lemma syncAdd_returns inbox st :
  ready needs_all st inbox → is_Ok (syncAdd inbox st).
Proof.
  intros Hready. unfold syncAdd.
  destruct (sync_family_returns (receiveAdd_ inbox) needs_all
              inbox st) as (st1 & st2 & -> & Hphase & Hwait); [|done|].
  { intros t p. apply receiveAdd__returns. }
  rewrite bind_Ok_l, Hphase, bind_Ok_l, Hwait. by exists st2.
Qed.

Lemma syncAddBorder_returns inbox st :
  ready needs_all st inbox → is_Ok (syncAddBorder inbox st).
Proof.
  intros Hready. unfold syncAddBorder.
  destruct (sync_family_returns (receiveAddBorder_ inbox) needs_all
              inbox st) as (st1 & st2 & -> & Hphase & Hwait); [|done|].
  { intros t p. apply receiveAddBorder__returns. }
  rewrite bind_Ok_l, Hphase, bind_Ok_l, Hwait. by exists st2.
Qed.

End returns.

(** ** Construction of the plans *)

Section construction.
Context {F : Type} `{Block F}.
Implicit Types (st : OverlappingBlockVector F) (inbox : Z → Handshake).

(** [for (i = 0; i < buf.size(); ++i) buf[i] = f(buf[i])] *)
Lemma map_in_place (f : Z → Z) (m : list Z) :
  for_ 0 (length m) (λ i buf, g ← buf_at buf i; buf_set buf i (f g)) m
  = Ok (f <$> m).
Proof.
  destruct (for_total
    (λ j buf, buf = (f <$> take j m) ++ drop j m)
    (λ i buf, g ← buf_at buf i; buf_set buf i (f g))
    0%nat (length m) m) as (buf & Hrun & Hbuf).
  - by rewrite take_0, drop_0.
  - intros j buf Hj ->.
    destruct (lookup_lt_is_Some_2 m j) as [g Hg]; [lia|].
    assert (length (f <$> take j m) = j) as Hlen.
    { rewrite length_fmap, length_take. lia. }
    exists ((f <$> take (S j) m) ++ drop (S j) m). split; [|done].
    unfold buf_at. rewrite lookup_app_r by lia.
    rewrite Hlen, Nat.sub_diag, lookup_drop, Nat.add_0_r, Hg. simpl.
    unfold buf_set. rewrite decide_True.
    + f_equal. rewrite insert_app_r_alt by lia.
      rewrite Hlen, Nat.sub_diag, (drop_S _ _ _ Hg). simpl.
      rewrite (take_S_r _ _ _ Hg), fmap_app. simpl.
      by rewrite <-app_assoc.
    + rewrite length_app, Hlen, length_drop. lia.
  - simpl in Hbuf. rewrite Hrun. f_equal.
    by rewrite Hbuf, take_ge, drop_ge, app_nil_r.
Qed.

Lemma newBuffer_Ok {T} n (fresh : T) buf :
  newBuffer n fresh = Ok buf ↔ 0 ≤ n ∧ buf = replicate (Z.to_nat n) fresh.
Proof.
  unfold newBuffer. case_decide.
  - split; [done|lia].
  - split; [intros [= <-]; split; [lia|done]|by intros [_ ->]].
Qed.

Lemma newBuffer_nonneg {T} n (fresh : T) :
  0 ≤ n → newBuffer n fresh = Ok (replicate (Z.to_nat n) fresh).
Proof. intros Hn. unfold newBuffer. by rewrite decide_False by lia. Qed.

Lemma createBuffers_receive__Ok inbox peerRank st st' :
  createBuffers_receive_ inbox peerRank st = Ok st' ↔
  ∃ indices,
    well_formed (inbox peerRank) indices
    ∧ st' = with_indicesRecvBuff_
              (<[peerRank := globalToDomestic (overlap_ st) <$> indices]>
                 (indicesRecvBuff_ st))
              (with_valuesRecvBuff_
                 (<[peerRank := replicate (length indices) zero]>
                    (valuesRecvBuff_ st)) st).
Proof.
  unfold createBuffers_receive_, well_formed. split.
  - intros Hrun.
    apply bind_Ok in Hrun as (buf1 & [_ ->]%newBuffer_Ok & Hrun).
    apply bind_Ok in Hrun as (cnt & [Hcnt Hlen]%receive_Ok & Hrun).
    apply bind_Ok in Hrun as (numRows & Hnum%buf_at_Ok & Hrun).
    apply bind_Ok in Hrun as (buf2 & [Hpos ->]%newBuffer_Ok & Hrun).
    apply bind_Ok in Hrun as (buf3 & [_ ->]%newBuffer_Ok & Hrun).
    apply bind_Ok in Hrun as (indices & [Hind Hlen']%receive_Ok & Hrun).
    apply bind_Ok in Hrun as (translated & Hloop & [= <-]).
    rewrite length_replicate in Hlen'.
    destruct cnt as [|c [|]]; try done. injection Hnum as ->.
    rewrite <-Hlen', map_in_place in Hloop. injection Hloop as <-.
    exists indices. rewrite Hcnt, Hind, Hlen', Z2Nat.id by done. done.
  - intros (indices & [Hcnt Hind] & ->). rewrite Hcnt, Hind.
    rewrite (newBuffer_nonneg 1 0), bind_Ok_l by lia.
    rewrite receive_fits, bind_Ok_l by done.
    assert (buf_at [Z.of_nat (length indices)] 0
            = Ok (Z.of_nat (length indices))) as -> by done.
    rewrite bind_Ok_l, !newBuffer_nonneg, !bind_Ok_l, Nat2Z.id by lia.
    rewrite receive_fits, bind_Ok_l by (by rewrite length_replicate).
    by rewrite map_in_place.
Qed.

Lemma createBuffers_wait__Ok peerRank st :
  is_Some (numIndicesSendBuff_ st !! peerRank) →
  is_Some (indicesSendBuff_ st !! peerRank) →
  ∃ indices,
    createBuffers_wait_ peerRank st
    = Ok (with_indicesSendBuff_
            (<[peerRank := indices]> (indicesSendBuff_ st)) st).
Proof.
  intros [cnt Hcnt] [indices Hind]. unfold createBuffers_wait_, deref.
  rewrite Hcnt, Hind. simpl. rewrite map_in_place. simpl. eauto.
Qed.

Lemma createBuffers_send__Ok peerRank st :
  0 ≤ foreignOverlapSize (overlap_ st) peerRank →
  ∃ cnt indices values,
    createBuffers_send_ peerRank st
    = Ok (with_numIndicesSendBuff_
            (<[peerRank := cnt]> (numIndicesSendBuff_ st))
         (with_indicesSendBuff_
            (<[peerRank := indices]> (indicesSendBuff_ st))
         (with_valuesSendBuff_
            (<[peerRank := values]> (valuesSendBuff_ st)) st))).
Proof.
  intros Hpos. unfold createBuffers_send_, newBuffer.
  rewrite decide_False by lia. simpl. rewrite decide_False by lia. simpl.
  destruct (for_total
    (λ _ (buf : list Z),
       length buf = Z.to_nat (foreignOverlapSize (overlap_ st) peerRank))
    (λ i buf,
       buf_set buf i
         (domesticToGlobal (overlap_ st)
            (foreignOverlapOffsetToDomesticIdx (overlap_ st) peerRank
               (Z.of_nat i))))
    0%nat (Z.to_nat (foreignOverlapSize (overlap_ st) peerRank))
    (replicate (Z.to_nat (foreignOverlapSize (overlap_ st) peerRank)) 0))
    as (indices & Hrun & _).
  - apply length_replicate.
  - intros j buf Hj Hlen. eexists. unfold buf_set.
    rewrite decide_True by lia. split; [done|]. by rewrite length_insert.
  - rewrite Hrun. simpl. eauto.
Qed.

Lemma createBuffers_send__spec peerRank st st' :
  createBuffers_send_ peerRank st = Ok st' →
  overlap_ st' = overlap_ st ∧ rows st' = rows st
  ∧ indicesRecvBuff_ st' = indicesRecvBuff_ st
  ∧ is_Some (numIndicesSendBuff_ st' !! peerRank)
  ∧ is_Some (indicesSendBuff_ st' !! peerRank)
  ∧ (∀ p, is_Some (numIndicesSendBuff_ st !! p) →
          is_Some (numIndicesSendBuff_ st' !! p))
  ∧ (∀ p, is_Some (indicesSendBuff_ st !! p) →
          is_Some (indicesSendBuff_ st' !! p)).
Proof.
  unfold createBuffers_send_. intros Hrun.
  apply bind_Ok in Hrun as (b1 & _ & Hrun).
  apply bind_Ok in Hrun as (b2 & _ & Hrun).
  apply bind_Ok in Hrun as (b3 & _ & Hrun).
  apply bind_Ok in Hrun as (b4 & _ & Hrun).
  apply bind_Ok in Hrun as (b5 & _ & [= <-]). simpl.
  split_and!; try done.
  - by rewrite lookup_insert_eq.
  - by rewrite lookup_insert_eq.
  - intros p Hp. destruct (decide (p = peerRank)) as [->|Hne].
    + by rewrite lookup_insert_eq.
    + by rewrite lookup_insert_ne.
  - intros p Hp. destruct (decide (p = peerRank)) as [->|Hne].
    + by rewrite lookup_insert_eq.
    + by rewrite lookup_insert_ne.
Qed.

Lemma createBuffers_wait__spec peerRank st st' :
  createBuffers_wait_ peerRank st = Ok st' →
  overlap_ st' = overlap_ st ∧ rows st' = rows st
  ∧ indicesRecvBuff_ st' = indicesRecvBuff_ st.
Proof.
  unfold createBuffers_wait_. intros Hrun.
  apply bind_Ok in Hrun as (b1 & _ & Hrun).
  apply bind_Ok in Hrun as (b2 & _ & Hrun).
  by apply bind_Ok in Hrun as (b3 & _ & [= <-]).
Qed.

Lemma createBuffers__spec inbox st st' :
  createBuffers_ inbox st = Ok st' →
  overlap_ st' = overlap_ st ∧ rows st' = rows st
  ∧ ∀ p, p ∈ peerSet (overlap_ st) →
      ∃ indices,
        well_formed (inbox p) indices
        ∧ indicesRecvBuff_ st' !! p
          = Some (globalToDomestic (overlap_ st) <$> indices).
Proof.
  unfold createBuffers_. intros Hrun.
  apply bind_Ok in Hrun as (st1 & Hsend & Hrun).
  apply bind_Ok in Hrun as (st2 & Hrecv & Hwait).
  apply (for_each_ind (λ t, overlap_ t = overlap_ st ∧ rows t = rows st))
    in Hsend as [Hov1 Hrows1]; [|done|]; cycle 1.
  { intros x t t' _ [Hov Hrows] (-> & -> & _)%createBuffers_send__spec.
    done. }
  apply (for_each_post
           (λ t, overlap_ t = overlap_ st ∧ rows t = rows st)
           (λ p t, ∃ indices,
              well_formed (inbox p) indices
              ∧ indicesRecvBuff_ t !! p
                = Some (globalToDomestic (overlap_ st) <$> indices)))
    in Hrecv as [[Hov2 Hrows2] Hplans]; [|done| |].
  - apply (for_each_ind
             (λ t, overlap_ t = overlap_ st ∧ rows t = rows st
                   ∧ indicesRecvBuff_ t = indicesRecvBuff_ st2))
      in Hwait as (Hov3 & Hrows3 & Hplans3); [|done|].
    + split_and!; [done..|]. intros p Hp. rewrite Hplans3. by apply Hplans.
    + intros x t t' _ (Hov & Hrows & Hpl)
        (-> & -> & ->)%createBuffers_wait__spec. done.
  - intros x t t' _ [Hov Hrows]
      (indices & Hwf & ->)%createBuffers_receive__Ok. simpl.
    split; [done|]. exists indices. by rewrite lookup_insert_eq, Hov.
  - intros x y t t' _ [Hov Hrows] (indices & Hwf & Hplan)
      (indices' & Hwf' & ->)%createBuffers_receive__Ok. simpl.
    exists indices. split; [done|].
    destruct (decide (x = y)) as [->|Hne].
    + rewrite lookup_insert_eq, Hov. destruct Hwf as [_ Hi], Hwf' as [_ Hi'].
      rewrite Hi in Hi'. by injection Hi' as ->.
    + by rewrite lookup_insert_ne.
Qed.

Lemma createBuffers__returns inbox st :
  (∀ p, p ∈ peerSet (overlap_ st) →
     0 ≤ foreignOverlapSize (overlap_ st) p
     ∧ ∃ indices, well_formed (inbox p) indices) →
  is_Ok (createBuffers_ inbox st).
Proof.
  intros Hpeers. unfold createBuffers_.
  destruct (for_each_total (λ t, overlap_ t = overlap_ st)
              createBuffers_send_ (peerSet (overlap_ st)) st)
    as (st1 & Hsend & Hov1); [done| |].
  { intros x t Hx Hov.
    destruct (createBuffers_send__Ok x t) as (? & ? & ? & ->).
    - rewrite Hov. by apply Hpeers.
    - eauto. }
  assert (send_plans_exist st1 (peerSet (overlap_ st))) as Hexist.
  { apply (for_each_post (λ _, True)
             (λ p t, is_Some (numIndicesSendBuff_ t !! p)
                     ∧ is_Some (indicesSendBuff_ t !! p)))
      in Hsend as [_ Hall]; [done|done| |].
    - intros x t t' _ _ (_ & _ & _ & ? & ? & _)%createBuffers_send__spec.
      done.
    - intros x y t t' _ _ [? ?]
        (_ & _ & _ & _ & _ & Hnum & Hind)%createBuffers_send__spec.
      split; [by apply Hnum|by apply Hind]. }
  rewrite Hsend, bind_Ok_l.
  destruct (for_each_total
              (λ t, overlap_ t = overlap_ st
                    ∧ send_plans_exist t (peerSet (overlap_ st)))
              (createBuffers_receive_ inbox) (peerSet (overlap_ st)) st1)
    as (st2 & -> & Hov2 & Hexist2); [done| |].
  { intros x t Hx [Hov Hex].
    destruct (Hpeers x Hx) as [_ [indices Hwf]].
    eexists. split.
    - apply createBuffers_receive__Ok. eauto.
    - done. }
  rewrite bind_Ok_l.
  destruct (for_each_total
              (λ t, send_plans_exist t (peerSet (overlap_ st)))
              createBuffers_wait_ (peerSet (overlap_ st)) st2)
    as (st3 & -> & _); [done| |by exists st3].
  intros x t Hx Hex. destruct (Hex x Hx) as [Hnum Hind].
  destruct (createBuffers_wait__Ok x t Hnum Hind) as (indices & ->).
  eexists. split; [done|]. intros p Hp. simpl.
  destruct (Hex p Hp) as [? ?]. split; [done|].
  destruct (decide (p = x)) as [->|Hne].
  - by rewrite lookup_insert_eq.
  - by rewrite lookup_insert_ne.
Qed.

(** No step of the construction raises a diagnostic. *)
Lemma quiet_Ok {A} (a : A) : quiet (Ok a).
Proof. done. Qed.

Lemma quiet_bind {A B} (m : outcome A) (k : A → outcome B) :
  quiet m → (∀ a, quiet (k a)) → quiet (m ≫= k).
Proof.
  intros Hm Hk. destruct m as [a|f]; simpl; [apply Hk|].
  intros p i [= ->]. by apply (Hm p i).
Qed.

Lemma quiet_for_ {St} lo n (body : nat → St → outcome St) s :
  (∀ j t, quiet (body j t)) → quiet (for_ lo n body s).
Proof.
  intros Hbody. revert lo s. induction n as [|n IH]; intros lo s; simpl.
  - apply quiet_Ok.
  - apply quiet_bind; [apply Hbody|]. intros t. apply IH.
Qed.

Lemma quiet_for_each {X St} l (body : X → St → outcome St) s :
  (∀ x t, quiet (body x t)) → quiet (for_each l body s).
Proof.
  intros Hbody. revert s. induction l as [|x l IH]; intros s; simpl.
  - apply quiet_Ok.
  - apply quiet_bind; [apply Hbody|]. intros t. apply IH.
Qed.

Lemma quiet_buf_at {T} (v : list T) j : quiet (buf_at v j).
Proof. unfold buf_at. by destruct (v !! j). Qed.

Lemma quiet_buf_set {T} (v : list T) j x : quiet (buf_set v j x).
Proof. unfold buf_set. by case_decide. Qed.

Lemma quiet_deref {T} (m : gmap Z T) p : quiet (deref m p).
Proof. unfold deref. by destruct (m !! p). Qed.

Lemma quiet_receive {T} (buf : list T) msg : quiet (receive buf msg).
Proof. unfold receive. destruct msg; [by case_decide|done]. Qed.

Lemma quiet_newBuffer {T} n (fresh : T) : quiet (newBuffer n fresh).
Proof. unfold newBuffer. by case_decide. Qed.

Local Ltac quiet_steps :=
  repeat first
    [ apply quiet_Ok | apply quiet_buf_at | apply quiet_buf_set
    | apply quiet_deref | apply quiet_receive | apply quiet_newBuffer
    | apply quiet_for_; intros ? ?
    | apply quiet_for_each; intros ? ?
    | apply quiet_bind; [|intros ?] ].

Lemma createBuffers__quiet inbox st : quiet (createBuffers_ inbox st).
Proof.
  unfold createBuffers_, createBuffers_send_, createBuffers_receive_,
    createBuffers_wait_.
  quiet_steps.
Qed.

End construction.

(** ** Collective calls *)

Section collective.
Context {F : Type} `{Block F}.
Implicit Types (st : OverlappingBlockVector F) (inbox : Z → option (list F)).
Implicit Types (W : gmap Z (OverlappingBlockVector F)).

(** What a process sends to a peer. *)
Lemma sent_to_Some st p m :
  sent_to st p = Some m →
  p ∈ peerSet (overlap_ st)
  ∧ ∃ st1 indices values0,
      sendAll_ st = Ok st1 ∧ valuesSendBuff_ st1 !! p = Some m
      ∧ indicesSendBuff_ st !! p = Some indices
      ∧ valuesSendBuff_ st !! p = Some values0
      ∧ sent_values st indices values0 m.
Proof.
  unfold sent_to. case_decide as Hp; [|done].
  destruct (sendAll_ st) as [st1|] eqn:Hsend; [|done]. intros Hm.
  split; [done|].
  pose proof Hsend as (_ & _ & Hdone & _)%sendAll_spec.
  destruct (Hdone p Hp) as (indices & values0 & values & ? & ? & Hv & ?).
  assert (values = m) as -> by congruence.
  exists st1, indices, values0. by split_and!.
Qed.

Lemma master_writes_shape st st' inbox :
  overlap_ st' = overlap_ st → plans st' = plans st →
  master_writes st' inbox = master_writes st inbox.
Proof.
  intros Hov Hpl. unfold master_writes. rewrite Hov.
  induction (peerSet (overlap_ st)) as [|p l IH]; [done|].
  rewrite !bind_cons, IH. f_equal. f_equal.
  apply incoming_plan, plans_recv. done.
Qed.

End collective.

Section idempotence.
Context {F : Type}.
Implicit Types (st : OverlappingBlockVector F) (inbox : Z → option (list F)).
Implicit Types (W : gmap Z (OverlappingBlockVector F)).

(** The message of a process in the round after a collective [sync]: as
    long as the first one, and equal to it wherever the receiver takes the
    value from the sender as the master of the row. *)
Lemma second_round_message W W' p q st stq m :
  masters_keep W → collective_sync W W' →
  W !! p = Some st → W !! q = Some stq → q ∈ peerSet (overlap_ st) →
  sent_to stq p = Some m →
  ∃ stq' m',
    W' !! q = Some stq' ∧ sent_to stq' p = Some m'
    ∧ length m = length m'
    ∧ ∀ indices j d,
        indicesRecvBuff_ st !! q = Some indices → indices !! j = Some d →
        masterRank (overlap_ st) d = q → m !! j = m' !! j.
Proof.
  intros Hkeep Hcoll Hp Hq Hpeer Hsent.
  specialize (Hcoll q) as Hcq. rewrite Hq in Hcq.
  destruct Hcq as (stq' & Hsync & Hq').
  apply sent_to_Some in Hsent
    as (Hpq & stq1 & indicesq & values0 & Hsend & Hbuf & Hindq & Hval0 & Hsv).
  pose proof (sync_same_shape _ _ _ Hsync) as Hshape.
  destruct (sendAll_sim _ _ _ Hshape Hsend) as (stq1' & Hsend' & Hshape1).
  destruct (same_sizes_lookup _ _ _ _ (shape_send _ _ Hshape1) Hbuf)
    as (m' & Hbuf' & Hlen).
  assert (sent_to stq' p = Some m') as Hsent'.
  { unfold sent_to. rewrite <-(shape_overlap _ _ Hshape).
    by rewrite decide_True, Hsend' by done. }
  exists stq', m'. split_and!; [done..|].
  intros indices j d Hind Hj Hm.
  apply sent_to_Some in Hsent'
    as (_ & stq1'' & indicesq' & values0' & Hsend'' & Hbuf'' & Hindq'
        & Hval0' & Hsv').
  assert (indicesq' = indicesq) as ->.
  { rewrite <-(plans_send _ _ (shape_plans _ _ Hshape)) in Hindq'.
    congruence. }
  assert (values0' = m) as ->.
  { apply sync_spec in Hsync as (_ & _ & _ & (t & Ht & Hvt) & _).
    rewrite Hvt in Hval0'. congruence. }
  destruct Hsv as (_ & Hrows & _), Hsv' as (_ & Hrows' & Hrest').
  destruct (indicesq !! j) as [d'|] eqn:Hd'.
  - destruct (Hrows j d' Hd') as (Hpos & _ & ->).
    destruct (Hrows' j d' Hd') as (_ & _ & ->).
    symmetry. eapply sync_row_not_from_peer; [done|].
    rewrite Z2Nat.id by done.
    by eapply (Hkeep p q st stq indices indicesq j d d').
  - symmetry. apply Hrest'. by apply lookup_ge_None.
Qed.

End idempotence.

Section import.
Context {F : Type} `{Block F}.
Implicit Types (st : OverlappingBlockVector F) (inbox : Z → option (list F)).
Implicit Types (W : gmap Z (OverlappingBlockVector F)).

Lemma master_writes_intro st inbox q indices values j d v :
  q ∈ peerSet (overlap_ st) →
  indicesRecvBuff_ st !! q = Some indices → inbox q = Some values →
  indices !! j = Some d → values !! j = Some v →
  masterRank (overlap_ st) d = q → 0 ≤ d →
  (Z.to_nat d, v) ∈ master_writes st inbox.
Proof.
  intros Hq Hind Hin Hj Hv Hm Hd. unfold master_writes.
  apply list_elem_of_bind. exists q. split; [|done].
  apply list_elem_of_omap. exists (d, v). split.
  - rewrite (incoming_Some _ _ _ _ _ Hind Hin).
    apply list_elem_of_lookup. exists j. apply lookup_zip_with_Some. eauto.
  - unfold master_write. simpl. by rewrite decide_True.
Qed.

(** The row a process holds after a collective [assign] for a row that
    another process owns: the row of the owner with the same global index,
    as the owner holds it after the call. *)
Lemma assign_takes_master_value W W' (V : Z → list F) p st st0 st' d :
  coherent W → collective_assign V W W' →
  W !! p = Some st →
  assignLocalRows_ (V p) st = Ok st0 →
  sync (inbox_assign W V p) st0 = Ok st' →
  0 ≤ d < numDomestic (overlap_ st) →
  masterRank (overlap_ st) d ≠ p →
  ∃ stq' d',
    W' !! masterRank (overlap_ st) d = Some stq' ∧ 0 ≤ d'
    ∧ domesticToGlobal (overlap_ stq') d' = domesticToGlobal (overlap_ st) d
    ∧ masterRank (overlap_ stq') d' = masterRank (overlap_ st) d
    ∧ is_Some (rows st' !! Z.to_nat d)
    ∧ rows st' !! Z.to_nat d = rows stq' !! Z.to_nat d'.
Proof.
  intros Hcoh Hcoll Hp Hcopy Hsync Hd Hremote.
  set (q := masterRank (overlap_ st) d) in *.
  apply assignLocalRows__spec in Hcopy as (Hov0 & Hpl0 & _ & _ & _ & _ & _).
  destruct (coh_cover W Hcoh p st d Hp Hd Hremote)
    as (Hq & indices & j & Hind & Hj).
  fold q in Hq, Hind.
  rewrite <-(plans_recv _ _ Hpl0) in Hind. rewrite <-Hov0 in Hq.
  destruct (sync_reads _ _ _ q Hsync Hq) as (values & Hin & Hreads).
  destruct (Hreads indices j d Hind Hj) as [[v Hv] Hrange];
    [by rewrite Hov0|].
  assert ((Z.to_nat d, v) ∈ master_writes st0 (inbox_assign W V p)) as Hw.
  { eapply master_writes_intro; try done; [by rewrite Hov0|lia]. }
  pose proof Hsync as (Hrows & _)%sync_spec.
  rewrite merge_all_from_master in Hrows.
  destruct (write_all_written (rows st0) _ _ _ Hw) as (v' & Hw' & Hrow);
    [lia|].
  rewrite <-Hrows in Hrow.
  apply master_writes_elem in Hw'
    as (indices2 & values2 & j2 & _ & Hind2 & Hin2 & Hj2 & Hv2).
  rewrite Z2Nat.id, Hov0 in Hind2, Hin2 by lia. fold q in Hind2, Hin2.
  rewrite Z2Nat.id in Hj2 by lia.
  assert (indices2 = indices) as -> by congruence.
  assert (values2 = values) as -> by congruence.
  rewrite (plans_recv _ _ Hpl0) in Hind. rewrite Hov0 in Hq.
  destruct (coh_plan W Hcoh p q st indices j2 d Hp Hq Hind Hj2 eq_refl)
    as (stq & indicesq & d' & Hwq & Hindq & Hd' & Hglob & Hmq).
  unfold inbox_assign in Hin. rewrite Hwq in Hin.
  destruct (assignLocalRows_ (V q) stq) as [stq0|] eqn:Hcopyq; [|done].
  apply sent_to_Some in Hin
    as (_ & _ & indicesq0 & _ & _ & _ & Hindq0 & _ & (_ & Hsent & _)).
  pose proof Hcopyq as (Hovq0 & Hplq0 & _)%assignLocalRows__spec.
  rewrite (plans_send _ _ Hplq0) in Hindq0.
  assert (indicesq0 = indicesq) as -> by congruence.
  destruct (Hsent j2 d' Hd') as (Hpos' & _ & Hval).
  pose proof (Hcoll q) as Hcq. rewrite Hwq in Hcq.
  destruct Hcq as (stq' & Hassignq & Hwq').
  unfold assign in Hassignq. rewrite Hcopyq, bind_Ok_l in Hassignq.
  pose proof Hassignq as (_ & Hovq' & _)%sync_spec.
  exists stq', d'. split_and!; try done.
  - by rewrite Hovq', Hovq0.
  - by rewrite Hovq', Hovq0.
  - rewrite Hrow, <-Hv2, Hval. symmetry.
    eapply sync_row_not_from_peer; [done|].
    rewrite Z2Nat.id, Hovq0, Hmq by done.
    by apply (coh_self W Hcoh).
Qed.

End import.

(** ** The examples *)

(** The objects of the examples are what the constructor builds. *)
Example TwoPeers_constructed :
  OverlappingBlockVector_
    (λ _, {| countMsg := Some [1]; indicesMsg := Some [1] |}) TwoPeers.overlap
  = Ok (with_rows [0; 0] TwoPeers.object).
Proof. reflexivity. Qed.

Example TwoProcesses_constructed :
  OverlappingBlockVector_
    (λ _, TwoProcesses.handshake_of TwoProcesses.overlap1 0)
    TwoProcesses.overlap0
  = Ok (TwoProcesses.object0 [0; 0; 0] [0; 0] [0; 0])
  ∧ OverlappingBlockVector_
      (λ _, TwoProcesses.handshake_of TwoProcesses.overlap0 1)
      TwoProcesses.overlap1
    = Ok (TwoProcesses.object1 [0; 0; 0] [0; 0] [0; 0]).
Proof. split; reflexivity. Qed.

Lemma coherent_masters_keep {F} (W : gmap Z (OverlappingBlockVector F)) :
  coherent W → masters_keep W.
Proof.
  intros [Hself Hplan _] p q st stq indices indicesq j d d'
    Hp Hq Hpeer Hind Hj Hm Hindq Hd'.
  destruct (Hplan p q st indices j d Hp Hpeer Hind Hj Hm)
    as (stq0 & indicesq0 & d0 & Hq0 & Hindq0 & Hd0 & _ & Hm0).
  assert (stq0 = stq) as -> by congruence.
  assert (indicesq0 = indicesq) as -> by congruence.
  assert (d0 = d') as -> by congruence.
  rewrite Hm0. by apply Hself.
Qed.

Lemma TwoProcesses_world_lookup r0 r1 p st :
  TwoProcesses.world r0 r1 !! p = Some st →
  (p = 0 ∧ st = TwoProcesses.object0 r0 [0; 0] [0; 0])
  ∨ (p = 1 ∧ st = TwoProcesses.object1 r1 [0; 0] [0; 0]).
Proof.
  unfold TwoProcesses.world.
  intros [[<- <-]|[_ [<- <-]%lookup_singleton_Some]]%lookup_insert_Some;
    auto.
Qed.

Lemma TwoProcesses_coherent r0 r1 : coherent (TwoProcesses.world r0 r1).
Proof.
  split.
  - intros p st [[-> ->]|[-> ->]]%TwoProcesses_world_lookup;
      by intros ?%list_elem_of_singleton.
  - intros p q st indices j d Hp Hq Hind Hj Hm.
    apply TwoProcesses_world_lookup in Hp as [[-> ->]|[-> ->]];
      apply list_elem_of_singleton in Hq as ->;
      vm_compute in Hind; injection Hind as <-;
      destruct j as [|[|j]]; try done; injection Hj as <-; try done.
    + exists (TwoProcesses.object1 r1 [0; 0] [0; 0]), [0; 1], 1.
      by split_and!.
    + exists (TwoProcesses.object0 r0 [0; 0] [0; 0]), [1; 0], 1.
      by split_and!.
    + exists (TwoProcesses.object0 r0 [0; 0] [0; 0]), [1; 0], 0.
      by split_and!.
  - intros p st d Hp Hd Hm.
    apply TwoProcesses_world_lookup in Hp as [[-> ->]|[-> ->]].
    + assert (d = 0 ∨ d = 1 ∨ d = 2) as [->|[->| ->]]
        by (change (0 ≤ d < 3) in Hd; lia); try done.
      split; [by apply list_elem_of_singleton|]. by exists [1; 2], 1%nat.
    + assert (d = 0 ∨ d = 1 ∨ d = 2) as [->|[->| ->]]
        by (change (0 ≤ d < 3) in Hd; lia); try done;
        (split; [by apply list_elem_of_singleton|]).
      * by exists [0; 2], 0%nat.
      * by exists [0; 2], 1%nat.
Qed.

(** ** The three loops of [createBuffers_] *)


(** A loop over a list without duplicates, with the iterations done so far. *)
Lemma for_each_NoDup_ind {X St} (Inv : list X → St → Prop)
    (body : X → St → outcome St) l (s s' : St) :
  NoDup l → Inv [] s →
  (∀ seen x t t', x ∉ seen → x ∈ l → Inv seen t → body x t = Ok t' →
     Inv (seen ++ [x]) t') →
  for_each l body s = Ok s' →
  Inv l s'.
Proof.
  intros Hnodup Hs Hstep Hrun.
  assert (∀ seen l' t, NoDup (seen ++ l') → (∀ x, x ∈ l' → x ∈ l) →
            Inv seen t → for_each l' body t = Ok s' → Inv (seen ++ l') s')
    as Hgen.
  { intros seen l'. revert seen.
    induction l' as [|x l' IH]; intros seen t Hnd Hsub Ht Hr; simpl in Hr.
    - injection Hr as <-. by rewrite app_nil_r.
    - apply bind_Ok in Hr as (u & Hbody & Hr).
      replace (seen ++ x :: l') with ((seen ++ [x]) ++ l')
        by (by rewrite <-app_assoc).
      apply (IH _ u).
      + by rewrite <-app_assoc.
      + intros y Hy. apply Hsub. by right.
      + apply (Hstep seen x t u); [|apply Hsub; left|done..].
        apply list.NoDup_app in Hnd as (_ & Hdisj & _). intros Hx.
        apply (Hdisj x Hx). left.
      + done. }
  apply (Hgen [] l s); done.
Qed.

(** [for (i = 0; i < n; ++i) buf[i] = f(i)] *)
Lemma fill_from_index (f : nat → Z) (n : nat) (x : Z) :
  for_ 0 n (λ i buf, buf_set buf i (f i)) (replicate n x) = Ok (f <$> seq 0 n).
Proof.
  destruct (for_total
    (λ j buf, buf = (f <$> seq 0 j) ++ replicate (n - j) x)
    (λ i buf, buf_set buf i (f i)) 0%nat n (replicate n x))
    as (buf & Hrun & Hbuf).
  - simpl. by rewrite Nat.sub_0_r.
  - intros j buf Hj ->.
    assert (length (f <$> seq 0 j) = j) as Hlen.
    { by rewrite length_fmap, length_seq. }
    exists ((f <$> seq 0 (S j)) ++ replicate (n - S j) x). split; [|done].
    unfold buf_set. rewrite decide_True.
    + f_equal. rewrite insert_app_r_alt by lia.
      rewrite Hlen, Nat.sub_diag, seq_S, fmap_app, <-app_assoc.
      by replace (n - j)%nat with (S (n - S j)) by lia.
    + rewrite length_app, Hlen, length_replicate. lia.
  - simpl in Hbuf. rewrite Hrun. f_equal.
    by rewrite Hbuf, Nat.sub_diag, app_nil_r.
Qed.

Section create_buffers.
Context {F : Type} `{Block F}.
Implicit Types (st t : OverlappingBlockVector F) (inbox : Z → Handshake).

Lemma createBuffers_send__result peerRank st st' :
  createBuffers_send_ peerRank st = Ok st' ↔
  0 ≤ foreignOverlapSize (overlap_ st) peerRank
  ∧ st' = with_numIndicesSendBuff_
            (<[peerRank := [foreignOverlapSize (overlap_ st) peerRank]]>
               (numIndicesSendBuff_ st))
         (with_indicesSendBuff_
            (<[peerRank := foreignOverlapGlobalIndices (overlap_ st) peerRank]>
               (indicesSendBuff_ st))
         (with_valuesSendBuff_
            (<[peerRank := replicate
                 (Z.to_nat (foreignOverlapSize (overlap_ st) peerRank)) zero]>
               (valuesSendBuff_ st)) st)).
Proof.
  unfold createBuffers_send_, foreignOverlapGlobalIndices.
  rewrite (newBuffer_nonneg 1 0), bind_Ok_l by lia.
  destruct (decide (0 ≤ foreignOverlapSize (overlap_ st) peerRank))
    as [Hpos|Hneg].
  - rewrite !newBuffer_nonneg, !bind_Ok_l by done.
    rewrite (fill_from_index
      (λ i, domesticToGlobal (overlap_ st)
              (foreignOverlapOffsetToDomesticIdx (overlap_ st) peerRank
                 (Z.of_nat i)))), bind_Ok_l.
    simpl. split; [by intros [= <-]|by intros [_ ->]].
  - unfold newBuffer. rewrite !decide_True by lia. simpl.
    split; [done|]. by intros [? _].
Qed.

Lemma createBuffers_wait__result peerRank st st' :
  createBuffers_wait_ peerRank st = Ok st' ↔
  ∃ indices,
    is_Some (numIndicesSendBuff_ st !! peerRank)
    ∧ indicesSendBuff_ st !! peerRank = Some indices
    ∧ st' = with_indicesSendBuff_
              (<[peerRank := globalToDomestic (overlap_ st) <$> indices]>
                 (indicesSendBuff_ st)) st.
Proof.
  unfold createBuffers_wait_. split.
  - intros Hrun.
    apply bind_Ok in Hrun as (cnt & Hcnt%deref_Ok & Hrun).
    apply bind_Ok in Hrun as (indices & Hind%deref_Ok & Hrun).
    rewrite map_in_place, bind_Ok_l in Hrun. injection Hrun as <-.
    exists indices. by split_and!.
  - intros (indices & [cnt Hcnt] & Hind & ->). unfold deref.
    rewrite Hcnt, Hind. simpl. by rewrite map_in_place.
Qed.

(** The first loop: send the indices to the peers. *)
Lemma createBuffers_send_phase l st st1 :
  for_each l createBuffers_send_ st = Ok st1 →
  overlap_ st1 = overlap_ st ∧ rows st1 = rows st
  ∧ indicesRecvBuff_ st1 = indicesRecvBuff_ st
  ∧ valuesRecvBuff_ st1 = valuesRecvBuff_ st
  ∧ (∀ p, p ∈ l → announced st1 p)
  ∧ (∀ p, p ∉ l →
       numIndicesSendBuff_ st1 !! p = numIndicesSendBuff_ st !! p
       ∧ indicesSendBuff_ st1 !! p = indicesSendBuff_ st !! p
       ∧ valuesSendBuff_ st1 !! p = valuesSendBuff_ st !! p).
Proof.
  intros Hrun.
  apply (for_each_post
    (λ t, overlap_ t = overlap_ st ∧ rows t = rows st
          ∧ indicesRecvBuff_ t = indicesRecvBuff_ st
          ∧ valuesRecvBuff_ t = valuesRecvBuff_ st
          ∧ ∀ p, p ∉ l →
              numIndicesSendBuff_ t !! p = numIndicesSendBuff_ st !! p
              ∧ indicesSendBuff_ t !! p = indicesSendBuff_ st !! p
              ∧ valuesSendBuff_ t !! p = valuesSendBuff_ st !! p)
    (λ p t, announced t p)) in Hrun.
  - destruct Hrun as [(? & ? & ? & ? & ?) ?]. by split_and!.
  - by split_and!.
  - intros x t t' Hx (Hov & Hrows & Hri & Hrv & Hout)
      [Hpos ->]%createBuffers_send__result.
    split.
    + split_and!; [done..|]. intros p Hp. simpl.
      rewrite !lookup_insert_ne by (by intros <-). by apply Hout.
    + unfold announced. simpl. by rewrite !lookup_insert_eq.
  - intros x y t t' Hy _ (Hpos & Hcnt & Hind & Hval)
      [Hposy ->]%createBuffers_send__result.
    unfold announced. simpl. split; [done|].
    destruct (decide (x = y)) as [->|Hne].
    + by rewrite !lookup_insert_eq.
    + by rewrite !lookup_insert_ne.
Qed.

(** The second loop: receive the indices from the peers. *)
Lemma createBuffers_receive_phase inbox l st1 st2 :
  for_each l (createBuffers_receive_ inbox) st1 = Ok st2 →
  overlap_ st2 = overlap_ st1 ∧ rows st2 = rows st1
  ∧ numIndicesSendBuff_ st2 = numIndicesSendBuff_ st1
  ∧ indicesSendBuff_ st2 = indicesSendBuff_ st1
  ∧ valuesSendBuff_ st2 = valuesSendBuff_ st1
  ∧ (∀ p, p ∈ l →
       ∃ indices,
         well_formed (inbox p) indices
         ∧ indicesRecvBuff_ st2 !! p
           = Some (globalToDomestic (overlap_ st1) <$> indices)
         ∧ valuesRecvBuff_ st2 !! p = Some (replicate (length indices) zero))
  ∧ (∀ p, p ∉ l →
       indicesRecvBuff_ st2 !! p = indicesRecvBuff_ st1 !! p
       ∧ valuesRecvBuff_ st2 !! p = valuesRecvBuff_ st1 !! p).
Proof.
  intros Hrun.
  apply (for_each_post
    (λ t, overlap_ t = overlap_ st1 ∧ rows t = rows st1
          ∧ numIndicesSendBuff_ t = numIndicesSendBuff_ st1
          ∧ indicesSendBuff_ t = indicesSendBuff_ st1
          ∧ valuesSendBuff_ t = valuesSendBuff_ st1
          ∧ ∀ p, p ∉ l →
              indicesRecvBuff_ t !! p = indicesRecvBuff_ st1 !! p
              ∧ valuesRecvBuff_ t !! p = valuesRecvBuff_ st1 !! p)
    (λ p t, ∃ indices,
       well_formed (inbox p) indices
       ∧ indicesRecvBuff_ t !! p
         = Some (globalToDomestic (overlap_ st1) <$> indices)
       ∧ valuesRecvBuff_ t !! p = Some (replicate (length indices) zero)))
    in Hrun.
  - destruct Hrun as [(? & ? & ? & ? & ? & ?) ?]. by split_and!.
  - by split_and!.
  - intros x t t' Hx (Hov & Hrows & Hn & Hi & Hv & Hout)
      (indices & Hwf & ->)%createBuffers_receive__Ok.
    split.
    + split_and!; [done..|]. intros p Hp. simpl.
      rewrite !lookup_insert_ne by (by intros <-). by apply Hout.
    + exists indices. simpl. by rewrite !lookup_insert_eq, Hov.
  - intros x y t t' Hy (Hov & _) (indices & Hwf & Hind & Hval)
      (indices' & Hwf' & ->)%createBuffers_receive__Ok.
    exists indices. simpl. split; [done|].
    destruct (decide (x = y)) as [->|Hne].
    + rewrite !lookup_insert_eq, Hov.
      destruct Hwf as [_ Hi], Hwf' as [_ Hi']. rewrite Hi in Hi'.
      by injection Hi' as ->.
    + by rewrite !lookup_insert_ne.
Qed.

(** The third loop: translate the send plans, each of them once. *)
Lemma createBuffers_wait_phase l st2 st3 :
  NoDup l →
  for_each l createBuffers_wait_ st2 = Ok st3 →
  overlap_ st3 = overlap_ st2 ∧ rows st3 = rows st2
  ∧ numIndicesSendBuff_ st3 = numIndicesSendBuff_ st2
  ∧ valuesSendBuff_ st3 = valuesSendBuff_ st2
  ∧ indicesRecvBuff_ st3 = indicesRecvBuff_ st2
  ∧ valuesRecvBuff_ st3 = valuesRecvBuff_ st2
  ∧ ∀ p, indicesSendBuff_ st3 !! p
         = if decide (p ∈ l)
           then fmap (globalToDomestic (overlap_ st2))
                  <$> indicesSendBuff_ st2 !! p
           else indicesSendBuff_ st2 !! p.
Proof.
  intros Hnodup Hrun.
  apply (for_each_NoDup_ind
    (λ seen t,
       overlap_ t = overlap_ st2 ∧ rows t = rows st2
       ∧ numIndicesSendBuff_ t = numIndicesSendBuff_ st2
       ∧ valuesSendBuff_ t = valuesSendBuff_ st2
       ∧ indicesRecvBuff_ t = indicesRecvBuff_ st2
       ∧ valuesRecvBuff_ t = valuesRecvBuff_ st2
       ∧ ∀ p, indicesSendBuff_ t !! p
              = if decide (p ∈ seen)
                then fmap (globalToDomestic (overlap_ st2))
                       <$> indicesSendBuff_ st2 !! p
                else indicesSendBuff_ st2 !! p)) in Hrun; [done|done| |].
  - split_and!; [done..|]. intros p. rewrite decide_False; [done|].
    apply not_elem_of_nil.
  - intros seen x t t' Hx _ (Hov & Hrows & Hn & Hv & Hri & Hrv & Hplan)
      (indices & _ & Hind & ->)%createBuffers_wait__result.
    split_and!; [done..|]. intros p. simpl.
    rewrite Hplan, decide_False in Hind by done.
    destruct (decide (p = x)) as [->|Hne].
    + rewrite lookup_insert_eq, decide_True, Hind, Hov; [done|].
      apply elem_of_app. right. by left.
    + rewrite lookup_insert_ne, Hplan by done.
      destruct (decide (p ∈ seen)) as [Hp|Hp].
      * rewrite decide_True; [done|]. apply elem_of_app. by left.
      * rewrite decide_False; [done|].
        intros [?|?%list_elem_of_singleton]%elem_of_app; done.
Qed.

(** The constructor, loop by loop. *)
Lemma OverlappingBlockVector__result inbox overlap st :
  NoDup (peerSet overlap) →
  OverlappingBlockVector_ inbox overlap = Ok st →
  overlap_ st = overlap ∧ 0 ≤ numDomestic overlap
  ∧ rows st = replicate (Z.to_nat (numDomestic overlap)) zero
  ∧ (∀ p, p ∈ peerSet overlap →
       0 ≤ foreignOverlapSize overlap p
       ∧ numIndicesSendBuff_ st !! p = Some [foreignOverlapSize overlap p]
       ∧ indicesSendBuff_ st !! p
         = Some (globalToDomestic overlap
                   <$> foreignOverlapGlobalIndices overlap p)
       ∧ valuesSendBuff_ st !! p
         = Some (replicate (Z.to_nat (foreignOverlapSize overlap p)) zero)
       ∧ ∃ indices,
           well_formed (inbox p) indices
           ∧ indicesRecvBuff_ st !! p
             = Some (globalToDomestic overlap <$> indices)
           ∧ valuesRecvBuff_ st !! p
             = Some (replicate (length indices) zero))
  ∧ (∀ p, p ∉ peerSet overlap →
       numIndicesSendBuff_ st !! p = None ∧ indicesSendBuff_ st !! p = None
       ∧ valuesSendBuff_ st !! p = None ∧ indicesRecvBuff_ st !! p = None
       ∧ valuesRecvBuff_ st !! p = None).
Proof.
  intros Hnodup. unfold OverlappingBlockVector_, createBuffers_. intros Hrun.
  apply bind_Ok in Hrun as (rows0 & [Hpos ->]%newBuffer_Ok & Hrun).
  apply bind_Ok in Hrun as (st1 & Hsend & Hrun).
  apply bind_Ok in Hrun as (st2 & Hrecv & Hwait). simpl in *.
  apply createBuffers_send_phase in Hsend
    as (Hov1 & Hrows1 & Hri1 & Hrv1 & Hann & Hout1).
  apply createBuffers_receive_phase in Hrecv
    as (Hov2 & Hrows2 & Hn2 & Hi2 & Hv2 & Hplan & Hout2).
  apply createBuffers_wait_phase in Hwait
    as (Hov3 & Hrows3 & Hn3 & Hv3 & Hri3 & Hrv3 & Hsendplan); [|done].
  simpl in *.
  split_and!; [congruence|done|congruence| |].
  - intros p Hp. destruct (Hann p Hp) as (Hsize & Hcnt & Hind & Hval).
    rewrite Hov1 in Hsize, Hcnt, Hind, Hval.
    split_and!; [done|congruence| |congruence|].
    + rewrite Hsendplan, decide_True, Hi2, Hind by done. simpl.
      by rewrite Hov2, Hov1.
    + destruct (Hplan p Hp) as (indices & Hwf & Hri & Hrv).
      exists indices. rewrite Hri3, Hrv3. rewrite Hov1 in Hri. done.
  - intros p Hp. destruct (Hout1 p Hp) as (Hcnt & Hind & Hval).
    destruct (Hout2 p Hp) as (Hri & Hrv).
    rewrite Hsendplan, decide_False, Hn3, Hn2, Hi2, Hv3, Hv2, Hri3, Hrv3
      by done.
    rewrite Hcnt, Hind, Hval, Hri, Hrv, Hri1, Hrv1. simpl. done.
Qed.

(** What the handshake of a constructor that returns announces. *)
Lemma handshake_sent_result inbox overlap st p :
  OverlappingBlockVector_ inbox overlap = Ok st → p ∈ peerSet overlap →
  handshake_sent (F := F) overlap p
  = {| countMsg := Some [foreignOverlapSize overlap p];
       indicesMsg := Some (foreignOverlapGlobalIndices overlap p) |}
  ∧ 0 ≤ foreignOverlapSize overlap p.
Proof.
  unfold OverlappingBlockVector_, createBuffers_. intros Hrun Hp.
  apply bind_Ok in Hrun as (rows0 & _ & Hrun).
  apply bind_Ok in Hrun as (st1 & Hsend & _). simpl in Hsend.
  apply createBuffers_send_phase in Hsend as (Hov1 & _ & _ & _ & Hann & _).
  simpl in Hann, Hov1.
  unfold handshake_sent.
  destruct (for_each_total (λ t : OverlappingBlockVector F, overlap_ t = overlap)
              createBuffers_send_ (peerSet overlap)
              {| rows := []; numIndicesSendBuff_ := ∅; indicesSendBuff_ := ∅;
                 indicesRecvBuff_ := ∅; valuesSendBuff_ := ∅;
                 valuesRecvBuff_ := ∅; overlap_ := overlap |})
    as (t1 & Ht1 & _); [done| |].
  { intros x t Hx Hov.
    destruct (createBuffers_send__Ok x t) as (? & ? & ? & ->).
    - rewrite Hov, <-Hov1. by destruct (Hann x Hx).
    - eauto. }
  rewrite Ht1.
  apply createBuffers_send_phase in Ht1 as (Hov' & _ & _ & _ & Hann' & _).
  simpl in Hov'. destruct (Hann' p Hp) as (Hsize & -> & -> & _).
  by rewrite Hov' in *.
Qed.

End create_buffers.

(** ** The plans under the calls *)

Section plans_under_calls.
Context {F : Type} `{Block F}.
Implicit Types (st : OverlappingBlockVector F) (c : Call F).

Lemma call_plans c st st' : call c st = Ok st' → plans st' = plans st.
Proof.
  destruct c as [inbox|inbox|inbox|inbox native|inbox native|target];
    simpl; intros Hrun.
  - by apply sync_spec in Hrun as (_ & _ & ? & _).
  - by apply syncAdd_spec in Hrun as (_ & _ & ? & _).
  - by apply syncAddBorder_spec in Hrun as (_ & _ & ? & _).
  - unfold assign in Hrun. apply bind_Ok in Hrun as (st1 & Hcopy & Hrun).
    apply assignLocalRows__spec in Hcopy as (_ & <- & _).
    by apply sync_spec in Hrun as (_ & _ & ? & _).
  - unfold assignAddBorder in Hrun.
    apply bind_Ok in Hrun as (st1 & Hcopy & Hrun).
    apply assignLocalRows__spec in Hcopy as (_ & <- & _).
    by apply syncAddBorder_spec in Hrun as (_ & _ & ? & _).
  - apply bind_Ok in Hrun as ([st1 out] & Hrun & [= <-]).
    by apply assignTo_spec in Hrun as (-> & _).
Qed.

Lemma calls_plans (cs : list (Call F)) st st' :
  calls cs st = Ok st' → plans st' = plans st.
Proof.
  unfold calls. intros Hrun.
  apply (for_each_ind (λ t, plans t = plans st)) in Hrun; [done..|].
  intros c t t' _ <-. apply call_plans.
Qed.

End plans_under_calls.

(** * The claims

    The statements about [sync], [syncAdd] and [syncAddBorder] describe
    every call that returns.  A call does return whenever the object and
    the inbox are [ready] for its policy ([sync_returns], [syncAdd_returns],
    [syncAddBorder_returns]): the plans name rows that exist and fit the
    value buffers, and every peer has sent as many values as its buffer
    holds. *)

(** ** Overwrite from the master: [sync] *)

(** C1.  [sync] overwrites a domestic row with a received value only if the
    sending peer is the master rank of the row.  The rows after the call are
    the rows before it merged, peer by peer and position by position, under
    the overwrite-only-from-master policy; a row either keeps its value or
    holds a value that its master rank, a member of the peer set, sent for
    it; and what the other peers send for a row is discarded: a call that
    finds other values from them returns the same rows, also when a row is
    listed in the receive plans of several peers. *)
Theorem sync_keeps_only_master_copy {F} (inbox : Z → option (list F))
    (st st' : OverlappingBlockVector F) :
  sync inbox st = Ok st' →
  rows st' = merge_all (merge_from_master (overlap_ st)) st inbox
  ∧ (∀ k,
       rows st' !! k = rows st !! k
       ∨ ∃ indices values j v,
           masterRank (overlap_ st) (Z.of_nat k) ∈ peerSet (overlap_ st)
           ∧ indicesRecvBuff_ st !! masterRank (overlap_ st) (Z.of_nat k)
             = Some indices
           ∧ inbox (masterRank (overlap_ st) (Z.of_nat k)) = Some values
           ∧ indices !! j = Some (Z.of_nat k) ∧ values !! j = Some v
           ∧ rows st' !! k = Some v)
  ∧ (∀ inbox', agree_on_master st inbox inbox' →
       ∃ st'', sync inbox' st = Ok st'' ∧ rows st'' = rows st').
Proof.
  intros Hrun. split_and!.
  - by apply sync_spec in Hrun as (? & _).
  - intros k. by apply sync_row.
  - intros inbox' Hag.
    destruct (sync_sim inbox inbox' st st st') as (st'' & Hrun' & _);
      [apply same_shape_refl| |done|].
    { intros p Hp. by apply Hag. }
    exists st''. split; [done|].
    apply sync_spec in Hrun as (-> & _). apply sync_spec in Hrun' as (-> & _).
    rewrite !merge_all_from_master. f_equal. symmetry.
    by apply master_writes_agree.
Qed.

(** Row 1 is received from its master, process 1, and from process 2; it
    takes the 10 of process 1, whether process 2 sends 20 or 30. *)
Lemma sync_keeps_only_master_copy_witness :
  sync TwoPeers.inbox TwoPeers.object = Ok (TwoPeers.after [5; 10] 20)
  ∧ rows (TwoPeers.after [5; 10] 20)
    = merge_all (merge_from_master TwoPeers.overlap) TwoPeers.object
        TwoPeers.inbox
  ∧ sync TwoPeers.inbox' TwoPeers.object = Ok (TwoPeers.after [5; 10] 30).
Proof.
  split; [reflexivity|]. split; [|reflexivity].
  apply (sync_keeps_only_master_copy TwoPeers.inbox TwoPeers.object
           (TwoPeers.after [5; 10] 20)).
  reflexivity.
Defined.

(** ** Construction of the plans *)

(** C2, as stated, fails.  Process 1 announces the global indices 7 and 99;
    the three domestic rows of process 0 have the global indices 10, 7 and
    20, and [globalToDomestic] answers -1 for 99.  The constructor of
    process 0 returns, with -1 at the second position of the receive
    plan. *)
Lemma construction_aborts_on_unknown_index_counterexample :
  OverlappingBlockVector_ (λ _, TwoProcesses.misinformed) TwoProcesses.overlap0
  = Ok TwoProcesses.object0_misinformed
  ∧ indicesMsg TwoProcesses.misinformed = Some [7; 99]
  ∧ domesticToGlobal TwoProcesses.overlap0 <$> [0; 1; 2] = [10; 7; 20]
  ∧ globalToDomestic TwoProcesses.overlap0 99 = -1
  ∧ indicesRecvBuff_ TwoProcesses.object0_misinformed !! 1 = Some [1; -1]
  ∧ OverlappingBlockVector_ (F := Z) (λ _, TwoProcesses.misinformed)
      TwoProcesses.overlap0
    ≠ Fault (FatalDiagnostic 1 99).
Proof. split_and!; [reflexivity..|done]. Qed.

(** C2, amended.  The construction never ends in a diagnostic.  It returns
    whenever the sizes are not negative and every peer delivers a count and
    as many indices, and the receive plan for a peer then holds what
    [globalToDomestic] answers for each index of the peer, position by
    position, whether or not the index has a domestic counterpart. *)
Theorem construction_keeps_untranslated_indices {F} `{Block F}
    (inbox : Z → Handshake) (overlap : Overlap) :
  0 ≤ numDomestic overlap →
  (∀ p, p ∈ peerSet overlap →
     0 ≤ foreignOverlapSize overlap p
     ∧ ∃ indices, well_formed (inbox p) indices) →
  quiet (OverlappingBlockVector_ (F := F) inbox overlap)
  ∧ ∃ st : OverlappingBlockVector F,
      OverlappingBlockVector_ inbox overlap = Ok st
      ∧ ∀ p, p ∈ peerSet overlap →
          ∃ indices,
            well_formed (inbox p) indices
            ∧ indicesRecvBuff_ st !! p
              = Some (globalToDomestic overlap <$> indices).
Proof.
  intros Hpos Hpeers. unfold OverlappingBlockVector_. split.
  - apply quiet_bind; [apply quiet_newBuffer|]. intros rows0.
    apply createBuffers__quiet.
  - rewrite newBuffer_nonneg, bind_Ok_l by done.
    destruct (createBuffers__returns inbox
      {| rows := replicate (Z.to_nat (numDomestic overlap)) zero;
         numIndicesSendBuff_ := ∅; indicesSendBuff_ := ∅;
         indicesRecvBuff_ := ∅; valuesSendBuff_ := ∅;
         valuesRecvBuff_ := ∅; overlap_ := overlap |}) as [st Hrun];
      [done|].
    exists st. split; [done|].
    by apply createBuffers__spec in Hrun as (_ & _ & ?).
Qed.

Lemma construction_keeps_untranslated_indices_witness :
  quiet (OverlappingBlockVector_ (F := Z) (λ _, TwoProcesses.misinformed)
           TwoProcesses.overlap0)
  ∧ ∃ st : OverlappingBlockVector Z,
      OverlappingBlockVector_ (λ _, TwoProcesses.misinformed)
        TwoProcesses.overlap0 = Ok st
      ∧ ∀ p, p ∈ peerSet TwoProcesses.overlap0 →
          ∃ indices,
            well_formed TwoProcesses.misinformed indices
            ∧ indicesRecvBuff_ st !! p
              = Some (globalToDomestic TwoProcesses.overlap0 <$> indices).
Proof.
  apply (construction_keeps_untranslated_indices
           (λ _, TwoProcesses.misinformed) TwoProcesses.overlap0).
  - simpl. lia.
  - intros p ->%list_elem_of_singleton. split; [simpl; lia|].
    by exists [7; 99].
Defined.

(** ** The additive policies: [syncAddBorder] and [syncAdd] *)

(** C3.  [syncAddBorder] decides for every incoming pair of a row and a
    sending peer: the value is added to the current value of the row if the
    row is a border row shared with that peer, and overwrites it otherwise.
    The rows after the call are the rows before it merged under this
    policy, in the order of the peer set and of each receive plan, and
    every position of every receive plan takes part in the merge. *)
Theorem syncAddBorder_merges_per_row_and_peer {F} `{Block F}
    (inbox : Z → option (list F)) (st st' : OverlappingBlockVector F) :
  syncAddBorder inbox st = Ok st' →
  rows st' = merge_all (merge_add_border (overlap_ st)) st inbox
  ∧ ∀ q indices,
      q ∈ peerSet (overlap_ st) → indicesRecvBuff_ st !! q = Some indices →
      length (incoming st inbox q) = length indices
      ∧ ∀ j d, indices !! j = Some d →
          ∃ v, incoming st inbox q !! j = Some (d, v)
               ∧ 0 ≤ d < Z.of_nat (length (rows st)).
Proof.
  intros Hrun. split.
  - by apply syncAddBorder_spec in Hrun as (? & _).
  - intros q indices Hq Hind. apply reads_all_covers; [|done].
    by eapply syncAddBorder_reads.
Qed.

(** Row 1 holds 6.  It is a border row with process 1, whose 10 is added,
    and no border row with process 2, whose 20 then overwrites the sum. *)
Lemma syncAddBorder_merges_per_row_and_peer_witness :
  syncAddBorder TwoPeers.inbox TwoPeers.object = Ok (TwoPeers.after [5; 20] 20)
  ∧ [5; 20]
    = merge_overwrite (merge_add [5; 6] (1, 10)) (1, 20).
Proof.
  split; [reflexivity|].
  apply (syncAddBorder_merges_per_row_and_peer TwoPeers.inbox TwoPeers.object
           (TwoPeers.after [5; 20] 20)).
  reflexivity.
Defined.

(** C4.  [syncAdd] adds every incoming value to the current value of the
    row its position in the receive plan names: the rows after the call are
    the rows before it with every value of every peer added, for every
    position of every receive plan; the merge consults neither the master
    rank nor the border status of a row. *)
Theorem syncAdd_adds_every_value {F} `{Block F}
    (inbox : Z → option (list F)) (st st' : OverlappingBlockVector F) :
  syncAdd inbox st = Ok st' →
  rows st' = merge_all (λ _, merge_add) st inbox
  ∧ ∀ q indices,
      q ∈ peerSet (overlap_ st) → indicesRecvBuff_ st !! q = Some indices →
      length (incoming st inbox q) = length indices
      ∧ ∀ j d, indices !! j = Some d →
          ∃ v, incoming st inbox q !! j = Some (d, v)
               ∧ 0 ≤ d < Z.of_nat (length (rows st)).
Proof.
  intros Hrun. split.
  - by apply syncAdd_spec in Hrun as (? & _).
  - intros q indices Hq Hind. apply reads_all_covers; [|done].
    by eapply syncAdd_reads.
Qed.

(** Row 1 holds 6; the 10 of process 1 and the 20 of process 2 are added. *)
Lemma syncAdd_adds_every_value_witness :
  syncAdd TwoPeers.inbox TwoPeers.object = Ok (TwoPeers.after [5; 36] 20)
  ∧ [5; 36] = merge_add (merge_add [5; 6] (1, 10)) (1, 20).
Proof.
  split; [reflexivity|].
  apply (syncAdd_adds_every_value TwoPeers.inbox TwoPeers.object
           (TwoPeers.after [5; 36] 20)).
  reflexivity.
Defined.

(** ** Import and export: [assign] and [assignTo] *)

(** C5.  [assign] first gives every domestic row the native row it
    translates to, or zero when the translation is negative, and then calls
    [sync].  When all processes have returned from a collective [assign],
    every domestic row of a process equals the row with the same global
    index that the master rank of the row holds.  The descriptors of the
    processes are assumed coherent: the plans of two peers list the same
    rows position by position, the processes agree on the owner of a row,
    and a process receives the rows it does not own from their owners. *)
Theorem assign_copies_then_takes_master_values {F} `{Block F}
    (W W' : gmap Z (OverlappingBlockVector F)) (V : Z → list F) (p : Z)
    (st st' : OverlappingBlockVector F) :
  coherent W →
  collective_assign V W W' →
  W !! p = Some st →
  W' !! p = Some st' →
  (∃ st0,
     assignLocalRows_ (V p) st = Ok st0
     ∧ sync (inbox_assign W V p) st0 = Ok st'
     ∧ ∀ d, 0 ≤ d < numDomestic (overlap_ st) →
         rows st0 !! Z.to_nat d
         = if decide (domesticToNative (overlap_ st) d < 0) then Some zero
           else V p !! Z.to_nat (domesticToNative (overlap_ st) d))
  ∧ ∀ d, 0 ≤ d < numDomestic (overlap_ st) →
      ∃ stq' d',
        W' !! masterRank (overlap_ st) d = Some stq' ∧ 0 ≤ d'
        ∧ domesticToGlobal (overlap_ stq') d'
          = domesticToGlobal (overlap_ st) d
        ∧ masterRank (overlap_ stq') d' = masterRank (overlap_ st) d
        ∧ is_Some (rows st' !! Z.to_nat d)
        ∧ rows st' !! Z.to_nat d = rows stq' !! Z.to_nat d'.
Proof.
  intros Hcoh Hcoll Hp Hp'.
  pose proof (Hcoll p) as Hcp. rewrite Hp in Hcp.
  destruct Hcp as (st1 & Hassign & Hp1).
  assert (st1 = st') as -> by congruence.
  unfold assign in Hassign. apply bind_Ok in Hassign as (st0 & Hcopy & Hsync).
  pose proof Hcopy as (Hov0 & _ & _ & _ & Hlen0 & Hcopied & _)
    %assignLocalRows__spec.
  split.
  - exists st0. split_and!; [done..|]. intros d Hd.
    destruct (Hcopied (Z.to_nat d)) as [_ ->]; [lia|].
    unfold local_row. by rewrite Z2Nat.id by lia.
  - intros d Hd.
    destruct (decide (masterRank (overlap_ st) d = p)) as [Hlocal|Hremote].
    + pose proof Hsync as (_ & Hov' & _ & _ & Hlen' & _)%sync_spec.
      exists st', d. rewrite Hlocal, Hov', Hov0. split_and!; try done; [lia|].
      apply lookup_lt_is_Some_2. rewrite Hlen'.
      destruct (Hcopied (Z.to_nat d)) as [Hsome _]; [lia|].
      by apply lookup_lt_is_Some_1.
    + by eapply assign_takes_master_value.
Qed.

(** Process 1 holds 4 for the border row and process 0, its master, holds
    3: after the collective [assign] row 0 of process 1 is the 3 of row 1
    of process 0, the row with the same global index 7. *)
Lemma assign_copies_then_takes_master_values_witness :
  ∃ stq' d',
    ({[0 := TwoProcesses.object0 [1; 3; 2] [3; 1] [4; 2];
       1 := TwoProcesses.object1 [3; 2; 1] [4; 2] [3; 1]]}
     : gmap Z (OverlappingBlockVector Z)) !! 0 = Some stq'
    ∧ 0 ≤ d'
    ∧ domesticToGlobal (overlap_ stq') d' = 7
    ∧ rows stq' !! Z.to_nat d' = Some 3.
Proof.
  destruct (assign_copies_then_takes_master_values
              (TwoProcesses.world [0; 0; 0] [0; 0; 0])
              {[0 := TwoProcesses.object0 [1; 3; 2] [3; 1] [4; 2];
                1 := TwoProcesses.object1 [3; 2; 1] [4; 2] [3; 1]]}
              TwoProcesses.natives 1
              (TwoProcesses.object1 [0; 0; 0] [0; 0] [0; 0])
              (TwoProcesses.object1 [3; 2; 1] [4; 2] [3; 1]))
    as [_ Hrows].
  - apply TwoProcesses_coherent.
  - intros p. unfold TwoProcesses.world.
    destruct (decide (p = 0)) as [->|H0].
    { rewrite !lookup_insert_eq. eexists. split; reflexivity. }
    destruct (decide (p = 1)) as [->|H1].
    { rewrite !lookup_insert_ne, !lookup_singleton_eq by done.
      eexists. split; reflexivity. }
    by rewrite !lookup_insert_ne, !lookup_singleton_ne by done.
  - reflexivity.
  - reflexivity.
  - destruct (Hrows 0) as (stq' & d' & Hq & Hpos & Hglob & _ & _ & Hrow).
    { simpl. lia. }
    exists stq', d'. split_and!; [exact Hq|done|exact Hglob|].
    symmetry. exact Hrow.
Defined.

(** C6.  [assignTo] resizes the target to [numNative()] and gives native row
    [n] the value of domestic row [nativeToDomestic(n)], or zero when that
    index is negative.  The call returns whenever the translated indices lie
    within the rows; its result depends on the object and the target alone
    (no message enters it), and the object is returned as it was, value
    buffers included. *)
Theorem assignTo_projects_domestic_rows {F} `{Block F} (target : list F)
    (st : OverlappingBlockVector F) :
  0 ≤ numNative (overlap_ st) →
  (∀ n, 0 ≤ n < numNative (overlap_ st) →
     nativeToDomestic (overlap_ st) n < Z.of_nat (length (rows st))) →
  ∃ out,
    assignTo target st = Ok (st, out)
    ∧ Z.of_nat (length out) = numNative (overlap_ st)
    ∧ ∀ n, 0 ≤ n < numNative (overlap_ st) →
        out !! Z.to_nat n
        = if decide (nativeToDomestic (overlap_ st) n < 0) then Some zero
          else rows st !! Z.to_nat (nativeToDomestic (overlap_ st) n).
Proof.
  intros Hpos Hrange.
  destruct (assignTo_returns target st Hpos Hrange) as (out & Hrun).
  exists out. split; [done|].
  apply assignTo_spec in Hrun as (_ & _ & Hlen & Hrows).
  split; [lia|]. intros n Hn.
  destruct (Hrows (Z.to_nat n)) as [_ Hout]; [lia|].
  rewrite Hout. unfold native_row. by rewrite Z2Nat.id by lia.
Qed.

Lemma assignTo_projects_domestic_rows_witness :
  ∃ out,
    assignTo [1; 2; 3] TwoPeers.object = Ok (TwoPeers.object, out)
    ∧ Z.of_nat (length out) = 1
    ∧ ∀ n, 0 ≤ n < 1 →
        out !! Z.to_nat n
        = if decide (nativeToDomestic TwoPeers.overlap n < 0) then Some 0
          else [5; 6] !! Z.to_nat (nativeToDomestic TwoPeers.overlap n).
Proof.
  assert (0 ≤ numNative (overlap_ TwoPeers.object)) as Hpos by (simpl; lia).
  assert (∀ n, 0 ≤ n < numNative (overlap_ TwoPeers.object) →
            nativeToDomestic (overlap_ TwoPeers.object) n
            < Z.of_nat (length (rows TwoPeers.object))) as Hrange.
  { intros n Hn. simpl in *. assert (n = 0) as -> by lia. simpl. lia. }
  exact (assignTo_projects_domestic_rows [1; 2; 3] TwoPeers.object
           Hpos Hrange).
Defined.

(** C7, as stated, fails.  Both processes call [assign] on their native
    vectors; process 1 holds 4 for the border row, whose master, process 0,
    holds 3.  The export of process 1 has 3 at native index 0. *)
Lemma assign_assignTo_round_trip_counterexample :
  assign
    (inbox_assign (TwoProcesses.world [0; 0; 0] [0; 0; 0]) TwoProcesses.natives 1)
    (TwoProcesses.natives 1) (TwoProcesses.object1 [0; 0; 0] [0; 0] [0; 0])
  = Ok (TwoProcesses.object1 [3; 2; 1] [4; 2] [3; 1])
  ∧ assignTo [] (TwoProcesses.object1 [3; 2; 1] [4; 2] [3; 1])
    = Ok (TwoProcesses.object1 [3; 2; 1] [4; 2] [3; 1], [3; 2])
  ∧ TwoProcesses.natives 1 = [4; 2]
  ∧ ([3; 2] : list Z) !! 0%nat ≠ TwoProcesses.natives 1 !! 0%nat.
Proof. split_and!; [reflexivity..|done]. Qed.

(** C7, amended.  [assign] followed by [assignTo] reproduces the native
    vector at every native index whose domestic row translates back to it
    and is not owned by a peer. *)
Theorem assign_assignTo_round_trip {F} `{Block F}
    (inbox : Z → option (list F)) (nativeBlockVector target out : list F)
    (st st1 st2 : OverlappingBlockVector F) (n : Z) :
  assign inbox nativeBlockVector st = Ok st1 →
  assignTo target st1 = Ok (st2, out) →
  0 ≤ n < numNative (overlap_ st) →
  0 ≤ nativeToDomestic (overlap_ st) n < numDomestic (overlap_ st) →
  domesticToNative (overlap_ st) (nativeToDomestic (overlap_ st) n) = n →
  masterRank (overlap_ st) (nativeToDomestic (overlap_ st) n)
    ∉ peerSet (overlap_ st) →
  is_Some (out !! Z.to_nat n)
  ∧ out !! Z.to_nat n = nativeBlockVector !! Z.to_nat n.
Proof.
  unfold assign. intros Hassign Hexport Hn Hd Hback Hown.
  apply bind_Ok in Hassign as (st0 & Hcopy & Hsync).
  apply assignLocalRows__spec in Hcopy
    as (Hov0 & _ & _ & _ & _ & Hcopied & _).
  set (d := nativeToDomestic (overlap_ st) n) in *.
  destruct (Hcopied (Z.to_nat d)) as [_ Hrow0]; [lia|].
  assert (rows st1 !! Z.to_nat d = rows st0 !! Z.to_nat d) as Hrow1.
  { eapply sync_row_not_from_peer; [done|].
    rewrite Hov0, Z2Nat.id by lia. done. }
  assert (overlap_ st1 = overlap_ st) as Hov1.
  { apply sync_spec in Hsync as (_ & -> & _). done. }
  apply assignTo_spec in Hexport as (_ & _ & _ & Hout).
  destruct (Hout (Z.to_nat n)) as [Hsome Hrow]; [rewrite Hov1; lia|].
  split; [done|]. rewrite Hrow. unfold native_row.
  rewrite Hov1, Z2Nat.id by lia. fold d.
  rewrite decide_False by lia. rewrite Hrow1, Hrow0.
  unfold local_row. rewrite Z2Nat.id by lia. fold d. rewrite Hback.
  by rewrite decide_False by lia.
Qed.

(** Process 0 owns the border row: its export returns its native vector. *)
Lemma assign_assignTo_round_trip_witness :
  is_Some (([1; 3] : list Z) !! Z.to_nat 1)
  ∧ ([1; 3] : list Z) !! Z.to_nat 1 = TwoProcesses.natives 0 !! Z.to_nat 1.
Proof.
  apply (assign_assignTo_round_trip
           (inbox_assign (TwoProcesses.world [0; 0; 0] [0; 0; 0])
              TwoProcesses.natives 0)
           (TwoProcesses.natives 0) [] [1; 3]
           (TwoProcesses.object0 [0; 0; 0] [0; 0] [0; 0])
           (TwoProcesses.object0 [1; 3; 2] [3; 1] [4; 2])
           (TwoProcesses.object0 [1; 3; 2] [3; 1] [4; 2]) 1).
  - reflexivity.
  - reflexivity.
  - simpl. lia.
  - simpl. lia.
  - reflexivity.
  - simpl. intros Hin%list_elem_of_singleton. done.
Defined.

(** ** Properties of [sync] *)

(** C8.  [sync] is idempotent.  When all processes have returned from a
    collective [sync] and call it again without any change to their
    vectors, every process returns from the second call with the rows it
    had after the first.  The descriptors of the processes are assumed to
    agree on the owner of a row: a row that a process takes from a peer as
    its master is not a row that this peer takes from a peer of its own. *)
Theorem sync_idempotent {F} (W W' : gmap Z (OverlappingBlockVector F))
    (p : Z) (st' : OverlappingBlockVector F) :
  masters_keep W →
  collective_sync W W' →
  W' !! p = Some st' →
  ∃ st'', sync (inbox_sync W' p) st' = Ok st'' ∧ rows st'' = rows st'.
Proof.
  intros Hkeep Hcoll Hp'.
  pose proof (Hcoll p) as Hcp.
  destruct (W !! p) as [st|] eqn:Hp; [|congruence].
  destruct Hcp as (st1 & Hsync & Hp1).
  assert (st1 = st') as -> by congruence.
  assert (agree_on_master st (inbox_sync W p) (inbox_sync W' p)) as Hag.
  { intros q Hq.
    destruct (sync_reads _ _ _ q Hsync Hq) as (m & Hm & _).
    unfold inbox_sync in Hm |- *.
    destruct (W !! q) as [stq|] eqn:Hwq; [|done].
    destruct (second_round_message W W' p q st stq m)
      as (stq' & m' & -> & -> & Hlen & Hsame); [done..|].
    rewrite Hm. simpl. split; [by rewrite Hlen|].
    intros indices j d. apply Hsame. }
  pose proof (sync_same_shape _ _ _ Hsync) as Hshape.
  destruct (sync_sim (inbox_sync W p) (inbox_sync W' p) st st' st')
    as (st'' & Hsync' & _); [done| |done|].
  { intros q Hq. by apply Hag. }
  exists st''. split; [done|].
  apply sync_spec in Hsync as (Hrows & Hov & Hpl & _).
  apply sync_spec in Hsync' as (-> & _).
  rewrite !merge_all_from_master.
  rewrite (master_writes_shape st st') by done.
  rewrite <-(master_writes_agree st _ _ Hag).
  rewrite Hrows, merge_all_from_master. apply write_all_idem.
Qed.

(** Both processes call [sync] with the rows [1; 3; 0] and [4; 2; 0], and
    once more with the rows they then hold. *)
Lemma sync_idempotent_witness :
  ∃ st'',
    sync (inbox_sync
            {[0 := TwoProcesses.object0 [1; 3; 2] [3; 1] [4; 2];
              1 := TwoProcesses.object1 [3; 2; 1] [4; 2] [3; 1]]} 1)
         (TwoProcesses.object1 [3; 2; 1] [4; 2] [3; 1]) = Ok st''
    ∧ rows st'' = [3; 2; 1].
Proof.
  apply (sync_idempotent
           (TwoProcesses.world [1; 3; 0] [4; 2; 0])
           {[0 := TwoProcesses.object0 [1; 3; 2] [3; 1] [4; 2];
             1 := TwoProcesses.object1 [3; 2; 1] [4; 2] [3; 1]]} 1).
  - apply coherent_masters_keep, TwoProcesses_coherent.
  - intros p. unfold TwoProcesses.world.
    destruct (decide (p = 0)) as [->|H0].
    { rewrite !lookup_insert_eq. eexists. split; reflexivity. }
    destruct (decide (p = 1)) as [->|H1].
    { rewrite !lookup_insert_ne, !lookup_singleton_eq by done.
      eexists. split; reflexivity. }
    by rewrite !lookup_insert_ne, !lookup_singleton_ne by done.
  - reflexivity.
Defined.



(** C10.  A row whose master rank is the local process is not written by
    the receive phase of [sync] and keeps its value through the call, in
    whichever receive plans it is listed: the local rank is no member of
    its own peer set, so the test [masterRank(domRowIdx) == peerRank] fails
    for every message. *)
Theorem sync_keeps_local_rows {F} (inbox : Z → option (list F))
    (st st' : OverlappingBlockVector F) (myRank : Z) (k : nat) :
  sync inbox st = Ok st' →
  myRank ∉ peerSet (overlap_ st) →
  (∀ d, isLocal (overlap_ st) d = true → masterRank (overlap_ st) d = myRank) →
  isLocal (overlap_ st) (Z.of_nat k) = true →
  rows st' = write_all (rows st) (master_writes st inbox)
  ∧ (∀ v, (k, v) ∉ master_writes st inbox)
  ∧ rows st' !! k = rows st !! k.
Proof.
  intros Hrun Hself Hlocal Hk.
  assert (masterRank (overlap_ st) (Z.of_nat k) ∉ peerSet (overlap_ st))
    as Hown by (by rewrite (Hlocal _ Hk)).
  split_and!.
  - apply sync_spec in Hrun as (-> & _). apply merge_all_from_master.
  - intros v (? & ? & ? & Hin & _)%master_writes_elem. done.
  - by eapply sync_row_not_from_peer.
Qed.

(** Row 0 is local to process 0, which has the peers 1 and 2. *)
Lemma sync_keeps_local_rows_witness :
  sync TwoPeers.inbox TwoPeers.object = Ok (TwoPeers.after [5; 10] 20)
  ∧ rows (TwoPeers.after [5; 10] 20) !! 0%nat = rows TwoPeers.object !! 0%nat.
Proof.
  split; [reflexivity|].
  apply (sync_keeps_local_rows TwoPeers.inbox TwoPeers.object
           (TwoPeers.after [5; 10] 20) 0 0%nat).
  - reflexivity.
  - simpl. intros [Hin|[Hin|Hin%elem_of_nil]%elem_of_cons]%elem_of_cons; done.
  - intros d. simpl. case_bool_decide; [|done]. intros _.
    by rewrite decide_False by lia.
  - reflexivity.
Defined.

(** * Further properties of the source file

    What follows covers the code that the statements above leave out:
    what [sendEntries_] sends, when the calls return and how they fail,
    [assignAddBorder], the send plans and the buffers that
    [createBuffers_] builds, the build without MPI, the copy
    constructor and the assignment operator, and
    [FlashRateVector::setMassRate]. *)

(** ** Faults of the send phase *)

Section undefined_at_worst.
Context {F : Type} `{Block F}.
Implicit Types (st : OverlappingBlockVector F) (inbox : Z → option (list F)).

Lemma undefined_at_worst_Ok {A} (a : A) : undefined_at_worst (Ok a).
Proof. by intros f. Qed.

Lemma undefined_at_worst_Fault {A} :
  undefined_at_worst (Fault (A := A) UndefinedBehaviour).
Proof. by intros f [= <-]. Qed.

Lemma undefined_at_worst_bind {A B} (m : outcome A) (k : A → outcome B) :
  undefined_at_worst m → (∀ a, undefined_at_worst (k a)) →
  undefined_at_worst (m ≫= k).
Proof.
  intros Hm Hk. destruct m as [a|f]; simpl; [apply Hk|].
  intros f' [= <-]. by apply Hm.
Qed.

Lemma undefined_at_worst_for_ {St} lo n (body : nat → St → outcome St) s :
  (∀ j t, undefined_at_worst (body j t)) → undefined_at_worst (for_ lo n body s).
Proof.
  intros Hbody. revert lo s. induction n as [|n IH]; intros lo s; simpl.
  - apply undefined_at_worst_Ok.
  - apply undefined_at_worst_bind; [apply Hbody|]. intros t. apply IH.
Qed.

Lemma undefined_at_worst_for_each {X St} l (body : X → St → outcome St) s :
  (∀ x t, undefined_at_worst (body x t)) →
  undefined_at_worst (for_each l body s).
Proof.
  intros Hbody. revert s. induction l as [|x l IH]; intros s; simpl.
  - apply undefined_at_worst_Ok.
  - apply undefined_at_worst_bind; [apply Hbody|]. intros t. apply IH.
Qed.

Lemma undefined_at_worst_buf_at {T} (v : list T) j :
  undefined_at_worst (buf_at v j).
Proof.
  unfold buf_at. destruct (v !! j);
    [apply undefined_at_worst_Ok|apply undefined_at_worst_Fault].
Qed.

Lemma undefined_at_worst_buf_set {T} (v : list T) j x :
  undefined_at_worst (buf_set v j x).
Proof.
  unfold buf_set. case_decide;
    [apply undefined_at_worst_Ok|apply undefined_at_worst_Fault].
Qed.

Lemma undefined_at_worst_vec_at {T} (v : list T) i :
  undefined_at_worst (vec_at v i).
Proof.
  unfold vec_at. case_decide; [|apply undefined_at_worst_Fault].
  destruct (v !! Z.to_nat i);
    [apply undefined_at_worst_Ok|apply undefined_at_worst_Fault].
Qed.

Lemma undefined_at_worst_vec_set {T} (v : list T) i x :
  undefined_at_worst (vec_set v i x).
Proof.
  unfold vec_set. case_decide;
    [apply undefined_at_worst_Ok|apply undefined_at_worst_Fault].
Qed.

Lemma undefined_at_worst_deref {T} (m : gmap Z T) p :
  undefined_at_worst (deref m p).
Proof.
  unfold deref. destruct (m !! p);
    [apply undefined_at_worst_Ok|apply undefined_at_worst_Fault].
Qed.

Lemma undefined_at_worst_newBuffer {T} n (fresh : T) :
  undefined_at_worst (newBuffer n fresh).
Proof.
  unfold newBuffer. case_decide;
    [apply undefined_at_worst_Fault|apply undefined_at_worst_Ok].
Qed.

Lemma sendAll__undefined_at_worst st : undefined_at_worst (sendAll_ st).
Proof.
  unfold sendAll_, sendEntries_.
  repeat first
    [ apply undefined_at_worst_Ok | apply undefined_at_worst_buf_at
    | apply undefined_at_worst_buf_set | apply undefined_at_worst_vec_at
    | apply undefined_at_worst_deref
    | apply undefined_at_worst_for_; intros ? ?
    | apply undefined_at_worst_for_each; intros ? ?
    | apply undefined_at_worst_bind; [|intros ?] ].
Qed.

(** The send phase does not get past a peer without send buffers. *)
Lemma sendAll__needs_buffers st p :
  p ∈ peerSet (overlap_ st) →
  indicesSendBuff_ st !! p = None ∨ valuesSendBuff_ st !! p = None →
  sendAll_ st = Fault UndefinedBehaviour.
Proof.
  intros Hp Hnone. destruct (sendAll_ st) as [st1|f] eqn:Hsend.
  - apply sendAll_spec in Hsend as (_ & _ & Hdone & _).
    destruct (Hdone p Hp) as (? & ? & ? & Hind & Hval & _).
    destruct Hnone; congruence.
  - f_equal. by apply (sendAll__undefined_at_worst st).
Qed.

End undefined_at_worst.

(** ** What a call that returns has found *)

Section ready.
Context {F : Type} `{Block F}.
Implicit Types (st t : OverlappingBlockVector F).
Implicit Types (inbox : Z → option (list F)).

Lemma send_done_can_send st st1 p : send_done st st1 p → can_send st p.
Proof.
  intros (indices & values0 & values & Hind & Hval0 & _ & Hlen & Hsent & _).
  exists indices, values0. split_and!; [done..| |].
  - destruct (decide (length indices ≤ length values0)%nat); [done|].
    destruct (lookup_lt_is_Some_2 indices (length values0)) as [idx Hidx];
      [lia|].
    destruct (Hsent _ _ Hidx) as (_ & Hsome%lookup_lt_is_Some_1 & _). lia.
  - intros i idx Hidx. destruct (Hsent _ _ Hidx) as (Hpos & Hsome & Hrow).
    rewrite Hrow in Hsome. apply lookup_lt_is_Some_1 in Hsome. lia.
Qed.

Lemma receiveFromMaster__plan inbox p t t' :
  receiveFromMaster_ inbox p t = Ok t' → is_Some (indicesRecvBuff_ t !! p).
Proof.
  unfold receiveFromMaster_. intros Hrun.
  apply bind_Ok in Hrun as (indices & Hind%deref_Ok & _). eauto.
Qed.

Lemma receiveAdd__plan inbox p t t' :
  receiveAdd_ inbox p t = Ok t' → is_Some (indicesRecvBuff_ t !! p).
Proof.
  unfold receiveAdd_. intros Hrun.
  apply bind_Ok in Hrun as (indices & Hind%deref_Ok & _). eauto.
Qed.

Lemma receiveAddBorder__plan inbox p t t' :
  receiveAddBorder_ inbox p t = Ok t' → is_Some (indicesRecvBuff_ t !! p).
Proof.
  unfold receiveAddBorder_. intros Hrun.
  apply bind_Ok in Hrun as (indices & Hind%deref_Ok & _). eauto.
Qed.

Lemma sync_family_ready receiver needs inbox st st1 st2 :
  (∀ p t t', receiver p t = Ok t' →
     receive_frame inbox p t t' ∧ is_Some (indicesRecvBuff_ t !! p)) →
  (∀ p t t' indices j d,
     receiver p t = Ok t' →
     indicesRecvBuff_ t !! p = Some indices → indices !! j = Some d →
     needs (overlap_ t) p d →
     ∃ values, inbox p = Some values ∧ is_Some (values !! j)
               ∧ 0 ≤ d < Z.of_nat (length (rows t))) →
  sendAll_ st = Ok st1 →
  for_each (peerSet (overlap_ st)) receiver st1 = Ok st2 →
  ready needs st inbox.
Proof.
  intros Hframe Hreads Hsend Hphase p Hp.
  pose proof Hsend as ((_ & _ & Hpl1 & Hrecv1) & _ & Hdone & _)%sendAll_spec.
  split; [by eapply send_done_can_send, Hdone|]. split.
  - apply (for_each_post
      (λ t, plans t = plans st
            ∧ same_sizes (valuesRecvBuff_ t) (valuesRecvBuff_ st))
      (λ p (_ : OverlappingBlockVector F),
         ∃ indices values0 values,
           indicesRecvBuff_ st !! p = Some indices
           ∧ valuesRecvBuff_ st !! p = Some values0
           ∧ inbox p = Some values ∧ length values = length values0))
      in Hphase as [_ Hall]; [by apply Hall| | |done].
    + split; [done|]. by rewrite Hrecv1.
    + intros x t t' _ [Hplt Hszt] Hrecv.
      destruct (Hframe _ _ _ Hrecv)
        as [(_ & Hplt' & _ & _ & values0 & values & Hv0 & Hin & Hlen & Hbuf)
              [indices Hind]].
      split.
      * split; [congruence|]. rewrite Hbuf.
        eapply same_sizes_trans; [|done]. by eapply same_sizes_insert_l.
      * destruct (same_sizes_lookup _ _ _ _ Hszt Hv0) as (w0 & Hw0 & Hlen0).
        exists indices, w0, values. rewrite <-(plans_recv _ _ Hplt).
        split_and!; [done..|congruence].
  - by eapply sync_family_reads; [intros q t t' Hq; apply (Hframe q t t' Hq)|..].
Qed.

Lemma sync_ready inbox st : is_Ok (sync inbox st) → ready needs_master st inbox.
Proof.
  unfold sync. intros [st' Hrun].
  apply bind_Ok in Hrun as (st1 & Hsend & Hrun).
  apply bind_Ok in Hrun as (st2 & Hphase & _).
  eapply (sync_family_ready (receiveFromMaster_ inbox)); try done.
  - intros p t t' Hrecv. split; [|by eapply receiveFromMaster__plan].
    by apply receiveFromMaster_spec in Hrecv as [_ ?].
  - intros p t t' indices j d. apply receiveFromMaster__reads.
Qed.

Lemma syncAdd_ready inbox st :
  is_Ok (syncAdd inbox st) → ready needs_all st inbox.
Proof.
  unfold syncAdd. intros [st' Hrun].
  apply bind_Ok in Hrun as (st1 & Hsend & Hrun).
  apply bind_Ok in Hrun as (st2 & Hphase & _).
  eapply (sync_family_ready (receiveAdd_ inbox)); try done.
  - intros p t t' Hrecv. split; [|by eapply receiveAdd__plan].
    by apply receiveAdd_spec in Hrecv as [_ ?].
  - intros p t t' indices j d. apply receiveAdd__reads.
Qed.

Lemma syncAddBorder_ready inbox st :
  is_Ok (syncAddBorder inbox st) → ready needs_all st inbox.
Proof.
  unfold syncAddBorder. intros [st' Hrun].
  apply bind_Ok in Hrun as (st1 & Hsend & Hrun).
  apply bind_Ok in Hrun as (st2 & Hphase & _).
  eapply (sync_family_ready (receiveAddBorder_ inbox)); try done.
  - intros p t t' Hrecv. split; [|by eapply receiveAddBorder__plan].
    by apply receiveAddBorder_spec in Hrecv as [_ ?].
  - intros p t t' indices j d. apply receiveAddBorder__reads.
Qed.

(** ** The shape of an object through the calls *)

Lemma sends_same_sizes st st1 :
  sendAll_ st = Ok st1 → same_sizes (valuesSendBuff_ st) (valuesSendBuff_ st1).
Proof.
  intros (_ & _ & Hdone & Hout)%sendAll_spec p.
  destruct (decide (p ∈ peerSet (overlap_ st))) as [Hp|Hp].
  - destruct (Hdone p Hp) as (? & ? & ? & _ & -> & -> & Hlen' & _).
    simpl. by rewrite Hlen'.
  - by rewrite Hout.
Qed.

Lemma sync_family_same_shape st st' :
  overlap_ st' = overlap_ st ∧ plans st' = plans st
  ∧ (∃ st1, sendAll_ st = Ok st1 ∧ valuesSendBuff_ st' = valuesSendBuff_ st1)
  ∧ length (rows st') = length (rows st)
  ∧ same_sizes (valuesRecvBuff_ st') (valuesRecvBuff_ st) →
  same_shape st st'.
Proof.
  intros (Hov & Hpl & (st1 & Hsend & Hbuf) & Hlen & Hsz).
  split; try done.
  - rewrite Hbuf. by apply sends_same_sizes.
  - by apply same_sizes_sym.
Qed.

Lemma syncAdd_same_shape inbox st st' :
  syncAdd inbox st = Ok st' → same_shape st st'.
Proof.
  intros (_ & Hrest)%syncAdd_spec. by apply sync_family_same_shape.
Qed.

Lemma syncAddBorder_same_shape inbox st st' :
  syncAddBorder inbox st = Ok st' → same_shape st st'.
Proof.
  intros (_ & Hrest)%syncAddBorder_spec. by apply sync_family_same_shape.
Qed.

Lemma assignLocalRows__same_shape V st st' :
  assignLocalRows_ V st = Ok st' → same_shape st st'.
Proof.
  intros (Hov & Hpl & Hsend & Hrecv & Hlen & _)%assignLocalRows__spec.
  split; [done..| |].
  - by rewrite Hsend.
  - by rewrite Hrecv.
Qed.


Lemma same_shape_trans st1 st2 st3 :
  same_shape st1 st2 → same_shape st2 st3 → same_shape st1 st3.
Proof.
  intros [? ? ? ? ?] [? ? ? ? ?]. split; [congruence..| |].
  - by eapply same_sizes_trans.
  - by eapply same_sizes_trans.
Qed.

Lemma same_shape_sym st1 st2 : same_shape st1 st2 → same_shape st2 st1.
Proof.
  intros [? ? ? ? ?]. split; [done..| |]; by apply same_sizes_sym.
Qed.

Lemma can_send_same_shape st1 st2 p :
  same_shape st1 st2 → can_send st1 p → can_send st2 p.
Proof.
  intros [Hov Hpl Hrows Hsend Hrecv]
    (indices & values & Hind & Hval & Hfit & Hrange).
  destruct (same_sizes_lookup _ _ _ _ Hsend Hval) as (values' & Hval' & Hlen).
  exists indices, values'. rewrite <-(plans_send _ _ Hpl).
  split_and!; [done..|lia|]. intros i idx Hi. rewrite <-Hrows. eauto.
Qed.

Lemma can_receive_same_shape needs st1 st2 inbox p :
  same_shape st1 st2 → can_receive needs st1 inbox p →
  can_receive needs st2 inbox p.
Proof.
  intros [Hov Hpl Hrows Hsend Hrecv]
    [(indices & values0 & values & Hind & Hval0 & Hin & Hlen)
       (values' & Hin' & Hreads)].
  destruct (same_sizes_lookup _ _ _ _ Hrecv Hval0) as (values0' & Hval0' & Hlen0).
  split.
  - exists indices, values0', values. rewrite <-(plans_recv _ _ Hpl).
    split_and!; [done..|congruence].
  - exists values'. split; [done|]. intros ind j d.
    rewrite <-(plans_recv _ _ Hpl), <-Hov, <-Hrows. apply Hreads.
Qed.

Lemma ready_same_shape needs st1 st2 inbox :
  same_shape st1 st2 → ready needs st1 inbox → ready needs st2 inbox.
Proof.
  intros Hshape Hready p Hp. rewrite <-(shape_overlap _ _ Hshape) in Hp.
  destruct (Hready p Hp). split.
  - by eapply can_send_same_shape.
  - by eapply can_receive_same_shape.
Qed.

End ready.

(** ** Single rows under the merge policies *)

Section rows_of_merges.
Context {F : Type} `{Block F}.
Implicit Types (st : OverlappingBlockVector F) (inbox : Z → option (list F)).
Implicit Types (rows : list F) (policy : list F → Z * F → list F).

Lemma merge_add_row_local : row_local (F := F) merge_add.
Proof.
  intros rows [d v] k Hk. unfold merge_add. simpl in *.
  case_decide; [|done]. apply list_lookup_alter_ne. lia.
Qed.

Lemma merge_overwrite_row_local : row_local (F := F) merge_overwrite.
Proof.
  intros rows [d v] k Hk. unfold merge_overwrite. simpl in *.
  case_decide; [|done]. apply list_lookup_insert_ne. lia.
Qed.

Lemma merge_add_border_row_local overlap p :
  row_local (merge_add_border overlap p).
Proof.
  intros rows e k Hk. unfold merge_add_border.
  destruct (isBorderWith _ _ _);
    [by apply merge_add_row_local|by apply merge_overwrite_row_local].
Qed.

Lemma merge_add_at rows d v :
  0 ≤ d →
  merge_add rows (d, v) !! Z.to_nat d = (λ old, add old v) <$> rows !! Z.to_nat d.
Proof.
  intros Hd. unfold merge_add. simpl. rewrite decide_True by done.
  apply list_lookup_alter_eq.
Qed.

Lemma merge_overwrite_at rows d v :
  0 ≤ d →
  merge_overwrite rows (d, v) !! Z.to_nat d = (λ _, v) <$> rows !! Z.to_nat d.
Proof.
  intros Hd. unfold merge_overwrite. simpl. rewrite decide_True by done.
  destruct (rows !! Z.to_nat d) as [old|] eqn:Hold; simpl.
  - apply list_lookup_insert_eq. by eapply lookup_lt_Some.
  - apply lookup_ge_None. rewrite length_insert. by apply lookup_ge_None.
Qed.

Lemma foldl_unnamed policy rows (entries : list (Z * F)) d :
  row_local policy → 0 ≤ d → (∀ e, e ∈ entries → e.1 ≠ d) →
  foldl policy rows entries !! Z.to_nat d = rows !! Z.to_nat d.
Proof.
  intros Hlocal Hd. revert rows.
  induction entries as [|e entries IH]; intros rows Hne; [done|]. simpl.
  rewrite IH by (intros e' He'; apply Hne; by right).
  apply Hlocal. specialize (Hne e ltac:(left)). lia.
Qed.

Lemma foldl_named_once policy (upd : F → F) rows (indices : list Z)
    (values : list F) j d v :
  row_local policy →
  (∀ r, policy r (d, v) !! Z.to_nat d = upd <$> r !! Z.to_nat d) →
  0 ≤ d → indices !! j = Some d → values !! j = Some v →
  (∀ j', indices !! j' = Some d → j' = j) →
  foldl policy rows (zip indices values) !! Z.to_nat d
  = upd <$> rows !! Z.to_nat d.
Proof.
  intros Hlocal Hat Hd Hj Hv Honce.
  assert (zip indices values !! j = Some (d, v)) as Hz.
  { apply lookup_zip_with_Some. eauto. }
  rewrite <-(take_drop_middle _ _ _ Hz), foldl_app. simpl.
  rewrite foldl_unnamed; [|done..|].
  - rewrite Hat. f_equal. apply foldl_unnamed; [done..|].
    intros [d' v'] [i [Hi Hlt]%lookup_take_Some]%list_elem_of_lookup.
    simpl. intros ->.
    apply lookup_zip_with_Some in Hi as (? & ? & [= <- <-] & Hi & _).
    apply Honce in Hi. lia.
  - intros [d' v'] [i Hi]%list_elem_of_lookup. simpl. intros ->.
    rewrite lookup_drop in Hi.
    apply lookup_zip_with_Some in Hi as (? & ? & [= <- <-] & Hi & _).
    apply Honce in Hi. lia.
Qed.

Lemma incoming_lookup st inbox p i d v :
  incoming st inbox p !! i = Some (d, v) →
  ∃ indices values,
    indicesRecvBuff_ st !! p = Some indices ∧ inbox p = Some values
    ∧ indices !! i = Some d ∧ values !! i = Some v.
Proof.
  unfold incoming. intros (? & ? & [= <- <-] & Hd & Hv)%lookup_zip_with_Some.
  destruct (indicesRecvBuff_ st !! p) as [indices|]; [|done].
  destruct (inbox p) as [values|]; [|done]. simpl in *.
  by exists indices, values.
Qed.

Lemma merge_peers_unlisted (policy : Z → list F → Z * F → list F)
    st inbox d l rows :
  (∀ p, row_local (policy p)) → 0 ≤ d → unlisted st d →
  (∀ p, p ∈ l → p ∈ peerSet (overlap_ st)) →
  foldl (λ rows p, foldl (policy p) rows (incoming st inbox p)) rows l
    !! Z.to_nat d
  = rows !! Z.to_nat d.
Proof.
  intros Hlocal Hd Hun. revert rows.
  induction l as [|p l IH]; intros rows Hl; [done|]. simpl.
  rewrite IH by (intros p' Hp'; apply Hl; by right).
  apply foldl_unnamed; [done..|].
  intros [d' v'] [i Hi]%list_elem_of_lookup. simpl. intros ->.
  apply incoming_lookup in Hi as (indices & values & Hind & _ & Hi & _).
  by eapply (Hun p indices i); [apply Hl; left|..].
Qed.

Lemma merge_peers_listed_once (policy : Z → list F → Z * F → list F)
    (upd : F → F) st inbox q j d v l rows :
  (∀ p, row_local (policy p)) →
  (∀ r, policy q r (d, v) !! Z.to_nat d = upd <$> r !! Z.to_nat d) →
  0 ≤ d → listed_once st q j d → inbox q ≫= (λ values, values !! j) = Some v →
  NoDup l → (∀ p, p ∈ l → p ∈ peerSet (overlap_ st)) →
  foldl (λ rows p, foldl (policy p) rows (incoming st inbox p)) rows l
    !! Z.to_nat d
  = if decide (q ∈ l) then upd <$> rows !! Z.to_nat d
    else rows !! Z.to_nat d.
Proof.
  intros Hlocal Hat Hd (Hq & (indices & Hind & Hj) & Honce) Hv.
  destruct (inbox q) as [values|] eqn:Hin; [|done]. simpl in Hv.
  revert rows. induction l as [|p l IH]; intros rows Hnodup Hl; [done|].
  apply list.NoDup_cons in Hnodup as [Hp Hnodup]. simpl.
  rewrite IH by (done || intros p' Hp'; apply Hl; by right).
  destruct (decide (p = q)) as [->|Hne].
  - rewrite decide_False by done. rewrite decide_True by left.
    rewrite (incoming_Some _ _ _ _ _ Hind Hin).
    apply (foldl_named_once _ upd _ _ _ j d v); try done.
    intros j' Hj'. by destruct (Honce q indices j' Hq Hind Hj').
  - assert (foldl (policy p) rows (incoming st inbox p) !! Z.to_nat d
            = rows !! Z.to_nat d) as ->.
    { apply foldl_unnamed; [done..|].
      intros [d' v'] [i Hi]%list_elem_of_lookup. simpl. intros ->.
      apply incoming_lookup in Hi as (indices' & _ & Hind' & _ & Hi & _).
      destruct (Honce p indices' i) as [? _]; [apply Hl; left|done..]. }
    destruct (decide (q ∈ l)) as [Hql|Hql].
    + by rewrite decide_True by (by right).
    + rewrite decide_False; [done|]. by intros [?|?]%elem_of_cons.
Qed.

Lemma merge_all_unlisted (policy : Z → list F → Z * F → list F) st inbox d :
  (∀ p, row_local (policy p)) → 0 ≤ d → unlisted st d →
  merge_all policy st inbox !! Z.to_nat d = rows st !! Z.to_nat d.
Proof. intros. by apply merge_peers_unlisted. Qed.

Lemma merge_all_listed_once (policy : Z → list F → Z * F → list F)
    (upd : F → F) st inbox q j d v :
  (∀ p, row_local (policy p)) →
  (∀ r, policy q r (d, v) !! Z.to_nat d = upd <$> r !! Z.to_nat d) →
  NoDup (peerSet (overlap_ st)) →
  0 ≤ d → listed_once st q j d → inbox q ≫= (λ values, values !! j) = Some v →
  merge_all policy st inbox !! Z.to_nat d = upd <$> rows st !! Z.to_nat d.
Proof.
  intros Hlocal Hat Hnodup Hd Honce Hv. unfold merge_all.
  rewrite (merge_peers_listed_once policy upd st inbox q j d v); try done.
  rewrite decide_True; [done|]. by destruct Honce.
Qed.

(** The value a peer has sent for a position of its receive plan, and the
    range of the row, after an additive call that returned. *)
Lemma reads_all_value st inbox q indices j d :
  reads needs_all st inbox q →
  indicesRecvBuff_ st !! q = Some indices → indices !! j = Some d →
  0 ≤ d < Z.of_nat (length (rows st))
  ∧ ∃ v, inbox q ≫= (λ values, values !! j) = Some v.
Proof.
  intros (values & Hin & Hreads) Hind Hj.
  destruct (Hreads indices j d Hind Hj I) as [[v Hv] Hrange].
  split; [done|]. exists v. by rewrite Hin.
Qed.

End rows_of_merges.

Section listing.
Context {F : Type} `{Block F}.
Implicit Types (st : OverlappingBlockVector F) (inbox : Z → option (list F)).

Lemma unlisted_shape st st' d :
  overlap_ st' = overlap_ st → plans st' = plans st →
  unlisted st d → unlisted st' d.
Proof.
  intros Hov Hpl Hun q indices j. rewrite Hov, (plans_recv _ _ Hpl). apply Hun.
Qed.

Lemma listed_once_shape st st' q j d :
  overlap_ st' = overlap_ st → plans st' = plans st →
  listed_once st q j d → listed_once st' q j d.
Proof.
  intros Hov Hpl. unfold listed_once. by rewrite Hov, (plans_recv _ _ Hpl).
Qed.

Lemma syncAddBorder_row inbox st st' d :
  syncAddBorder inbox st = Ok st' →
  NoDup (peerSet (overlap_ st)) → 0 ≤ d →
  (unlisted st d → rows st' !! Z.to_nat d = rows st !! Z.to_nat d)
  ∧ (∀ q j, listed_once st q j d →
       ∃ old v,
         rows st !! Z.to_nat d = Some old
         ∧ inbox q ≫= (λ values, values !! j) = Some v
         ∧ rows st' !! Z.to_nat d
           = Some (if isBorderWith (overlap_ st) d q then add old v else v)).
Proof.
  intros Hrun Hnodup Hd.
  pose proof Hrun as (Hrows & _)%syncAddBorder_spec. rewrite Hrows. split.
  - apply merge_all_unlisted; [|done]. apply merge_add_border_row_local.
  - intros q j Honce.
    pose proof Honce as (Hq & (indices & Hind & Hj) & _).
    destruct (reads_all_value st inbox q indices j d)
      as [Hrange [v Hv]]; [by eapply syncAddBorder_reads|done..|].
    destruct (lookup_lt_is_Some_2 (rows st) (Z.to_nat d)) as [old Hold]; [lia|].
    exists old, v. split_and!; [done..|].
    rewrite (merge_all_listed_once _
               (λ old, if isBorderWith (overlap_ st) d q then add old v else v)
               st inbox q j d v); try done.
    + by rewrite Hold.
    + intros p. apply merge_add_border_row_local.
    + intros r. unfold merge_add_border. simpl.
      destruct (isBorderWith _ _ _);
        [by apply merge_add_at|by apply merge_overwrite_at].
Qed.

Lemma assignAddBorder_row inbox (nativeBlockVector : list F) st st' d :
  assignAddBorder inbox nativeBlockVector st = Ok st' →
  NoDup (peerSet (overlap_ st)) → 0 ≤ d < numDomestic (overlap_ st) →
  ∃ own,
    local_row (overlap_ st) nativeBlockVector d = Some own
    ∧ (unlisted st d → rows st' !! Z.to_nat d = Some own)
    ∧ (∀ q j, listed_once st q j d →
         ∃ v, inbox q ≫= (λ values, values !! j) = Some v
              ∧ rows st' !! Z.to_nat d
                = Some (if isBorderWith (overlap_ st) d q then add own v
                        else v)).
Proof.
  unfold assignAddBorder. intros Hrun Hnodup Hd.
  apply bind_Ok in Hrun as (st0 & Hcopy & Hsync).
  apply assignLocalRows__spec in Hcopy
    as (Hov0 & Hpl0 & _ & _ & _ & Hcopied & _).
  destruct (Hcopied (Z.to_nat d)) as [[own Hown] Hrow0]; [lia|].
  rewrite Hown, Z2Nat.id in Hrow0 by lia.
  exists own. split; [done|].
  destruct (syncAddBorder_row inbox st0 st' d Hsync) as [Hun Honce];
    [by rewrite Hov0|lia|].
  split.
  - intros Hu. rewrite <-Hown. by apply Hun, (unlisted_shape st).
  - intros q j Hl.
    destruct (Honce q j) as (old & v & Hold & Hv & Hrow);
      [by apply (listed_once_shape st)|].
    assert (old = own) as -> by congruence.
    exists v. split; [done|]. by rewrite Hrow, Hov0.
Qed.

End listing.

(** ** When [assign] and [assignTo] return *)

Section import_export.
Context {F : Type} `{Block F}.
Implicit Types (st : OverlappingBlockVector F) (inbox : Z → option (list F)).

Lemma assignLocalRows__undefined_at_worst V st :
  undefined_at_worst (assignLocalRows_ V st).
Proof.
  unfold assignLocalRows_.
  apply undefined_at_worst_bind; [|intros ?; apply undefined_at_worst_Ok].
  apply undefined_at_worst_for_. intros j t. simpl. case_decide.
  - apply undefined_at_worst_vec_set.
  - apply undefined_at_worst_bind; [apply undefined_at_worst_vec_at|].
    intros ?. apply undefined_at_worst_vec_set.
Qed.

Lemma assignLocalRows__can_copy V st :
  is_Ok (assignLocalRows_ V st) ↔ can_copy V st.
Proof.
  split.
  - intros [st1 (_ & _ & _ & _ & Hlen & Hcopied & _)%assignLocalRows__spec].
    split.
    + destruct (decide (numDomestic (overlap_ st) ≤ 0)); [lia|].
      destruct (Hcopied (Z.to_nat (numDomestic (overlap_ st)) - 1)%nat)
        as [Hsome%lookup_lt_is_Some_1 _]; lia.
    + intros d Hd. destruct (Hcopied (Z.to_nat d)) as [Hsome Hrow]; [lia|].
      rewrite Hrow in Hsome. unfold local_row in Hsome.
      rewrite Z2Nat.id in Hsome by lia. case_decide; [lia|].
      apply lookup_lt_is_Some_1 in Hsome. lia.
  - intros [Hrows Hnative]. unfold assignLocalRows_.
    destruct (for_total (λ _ (r : list F), length r = length (rows st))
      (λ k rows0,
         let domRowIdx := Z.of_nat k in
         let nativeRowIdx := domesticToNative (overlap_ st) domRowIdx in
         if decide (nativeRowIdx < 0) then vec_set rows0 domRowIdx zero
         else v ← vec_at V nativeRowIdx; vec_set rows0 domRowIdx v)
      0%nat (Z.to_nat (numDomestic (overlap_ st))) (rows st))
      as (rows' & Hrun & _); [done| |].
    + intros j r Hj Hlen. simpl. case_decide as Hd.
      * exists (<[j := zero]> r). unfold vec_set.
        rewrite decide_True by lia. by rewrite Nat2Z.id, length_insert.
      * destruct (lookup_lt_is_Some_2 V
                    (Z.to_nat (domesticToNative (overlap_ st) (Z.of_nat j))))
          as [v Hv].
        { specialize (Hnative (Z.of_nat j)). lia. }
        exists (<[j := v]> r). unfold vec_at. rewrite decide_True by lia.
        rewrite Hv. simpl. unfold vec_set.
        rewrite decide_True by lia. by rewrite Nat2Z.id, length_insert.
    + simpl in Hrun. rewrite Hrun. simpl. by eexists.
Qed.

Lemma assignTo_undefined_at_worst target st :
  undefined_at_worst (assignTo target st).
Proof.
  unfold assignTo. case_decide; [apply undefined_at_worst_Fault|].
  apply undefined_at_worst_bind; [|intros ?; apply undefined_at_worst_Ok].
  apply undefined_at_worst_for_. intros j t. simpl. case_decide.
  - apply undefined_at_worst_vec_set.
  - apply undefined_at_worst_bind; [apply undefined_at_worst_vec_at|].
    intros ?. apply undefined_at_worst_vec_set.
Qed.

Lemma assignTo_can_export target st :
  is_Ok (assignTo target st) ↔ can_export st.
Proof.
  split.
  - intros [[st1 out] (_ & Hpos & Hlen & Hrows)%assignTo_spec].
    split; [done|]. intros n Hn.
    destruct (Hrows (Z.to_nat n)) as [Hsome Hrow]; [lia|].
    rewrite Hrow in Hsome. unfold native_row in Hsome.
    rewrite Z2Nat.id in Hsome by lia. case_decide; [lia|].
    apply lookup_lt_is_Some_1 in Hsome. lia.
  - intros [Hpos Hrange].
    destruct (assignTo_returns target st Hpos Hrange) as [out Hout].
    by exists (st, out).
Qed.

Lemma assignTo_same_output t1 t2 st st1 st2 out1 out2 :
  assignTo t1 st = Ok (st1, out1) → assignTo t2 st = Ok (st2, out2) →
  st1 = st2 ∧ out1 = out2.
Proof.
  intros (-> & _ & Hlen1 & Hrows1)%assignTo_spec
         (-> & _ & Hlen2 & Hrows2)%assignTo_spec.
  split; [done|]. apply list_eq. intros k.
  destruct (decide (k < Z.to_nat (numNative (overlap_ st)))%nat) as [Hk|Hk].
  - destruct (Hrows1 k Hk) as [_ ->]. by destruct (Hrows2 k Hk) as [_ ->].
  - rewrite !lookup_ge_None_2; [done|lia..].
Qed.

End import_export.

(** ** The order of the peers *)

Section peer_order.
Context {F : Type} `{Block F}.
Implicit Types (st : OverlappingBlockVector F) (inbox : Z → option (list F)).
Implicit Types (rows : list F) (writes : list (nat * F)).

(** Writes to one row: only the row and the length of the vector matter. *)
Lemma write_all_one_row rows1 rows2 writes k :
  length rows1 = length rows2 → rows1 !! k = rows2 !! k →
  (∀ w, w ∈ writes → w.1 = k) →
  write_all rows1 writes !! k = write_all rows2 writes !! k.
Proof.
  revert rows1 rows2.
  induction writes as [|w writes IH]; intros rows1 rows2 Hlen Hk Hall; [done|].
  rewrite !write_all_cons. apply IH.
  - by rewrite !length_insert.
  - rewrite (Hall w) by left.
    destruct (decide (k < length rows1)%nat).
    + rewrite !list_lookup_insert_eq by lia. done.
    + rewrite !lookup_ge_None_2; [done|rewrite length_insert; lia..].
  - intros w' Hw'. apply Hall. by right.
Qed.

(** A row sees the writes that name it, and no others. *)
Lemma write_all_lookup_filter rows writes k :
  write_all rows writes !! k
  = write_all rows (filter (λ w, w.1 = k) writes) !! k.
Proof.
  revert rows. induction writes as [|w writes IH]; intros rows; [done|].
  rewrite write_all_cons, filter_cons. case_decide as Hw.
  - rewrite write_all_cons. apply IH.
  - rewrite IH. apply write_all_one_row.
    + apply length_insert.
    + by apply list_lookup_insert_ne.
    + by intros w' [? _]%list_elem_of_filter.
Qed.

Lemma filter_bind_list {A B} (P : B → Prop) `{∀ x, Decision (P x)}
    (f : A → list B) (l : list A) :
  filter P (l ≫= f) = l ≫= (λ x, filter P (f x)).
Proof.
  induction l as [|x l IH]; [done|].
  by rewrite !bind_cons, list.filter_app, IH.
Qed.

Lemma filter_none {A} (P : A → Prop) `{∀ x, Decision (P x)} (l : list A) :
  (∀ x, x ∈ l → ¬ P x) → filter P l = [].
Proof.
  induction l as [|x l IH]; intros Hnone; [done|].
  rewrite filter_cons_False by (apply Hnone; left).
  apply IH. intros y Hy. apply Hnone. by right.
Qed.

(** The writes of a call to row [k] are those of the master of the row, if
    it is a peer. *)
Lemma master_write_key overlap p (e : Z * F) (w : nat * F) :
  master_write overlap p e = Some w → masterRank overlap (Z.of_nat w.1) = p.
Proof.
  unfold master_write. case_decide as He; [|done]. intros [= <-]. simpl.
  rewrite Z2Nat.id; by destruct He.
Qed.

Lemma writes_to_row (g : Z → list (nat * F)) (m : Z) (l : list Z) k :
  NoDup l →
  (∀ p w, p ≠ m → w ∈ g p → w.1 ≠ k) →
  filter (λ w, w.1 = k) (l ≫= g)
  = if decide (m ∈ l) then filter (λ w, w.1 = k) (g m) else [].
Proof.
  intros Hnodup Hother. rewrite filter_bind_list.
  induction l as [|p l IH]; [done|].
  apply list.NoDup_cons in Hnodup as [Hp Hnodup]. rewrite bind_cons, IH by done.
  destruct (decide (p = m)) as [->|Hne].
  - rewrite (decide_False (P := m ∈ l)) by done.
    rewrite decide_True by left. apply app_nil_r.
  - assert (filter (λ w, w.1 = k) (g p) = []) as ->.
    { apply filter_none. intros w Hw. by apply (Hother p). }
    simpl. destruct (decide (m ∈ l)) as [Hm|Hm].
    + by rewrite decide_True by (by right).
    + rewrite decide_False; [done|]. by intros [?|?]%elem_of_cons.
Qed.

Lemma master_writes_peer_order st inbox l k :
  NoDup (peerSet (overlap_ st)) → l ≡ₚ peerSet (overlap_ st) →
  filter (λ w, w.1 = k)
    (master_writes (with_overlap_ (with_peerSet l (overlap_ st)) st) inbox)
  = filter (λ w, w.1 = k) (master_writes st inbox).
Proof.
  intros Hnodup Hperm. unfold master_writes. simpl.
  set (g := λ p, omap (master_write (overlap_ st) p) (incoming st inbox p)).
  assert (∀ p w, p ≠ masterRank (overlap_ st) (Z.of_nat k) →
            w ∈ g p → w.1 ≠ k) as Hother.
  { intros p w Hp (e & _ & Hw)%list_elem_of_omap Hk.
    apply master_write_key in Hw. by rewrite Hk in Hw. }
  change (filter (λ w, w.1 = k) (l ≫= g)
          = filter (λ w, w.1 = k) (peerSet (overlap_ st) ≫= g)).
  rewrite !(writes_to_row g (masterRank (overlap_ st) (Z.of_nat k)));
    [|done..|by rewrite Hperm|done].
  destruct (decide (_ ∈ l)) as [Hl|Hl].
  - rewrite decide_True; [done|]. by rewrite <-Hperm.
  - rewrite decide_False; [done|]. by rewrite <-Hperm.
Qed.

Lemma ready_master_peer_order st inbox l :
  l ≡ₚ peerSet (overlap_ st) →
  ready needs_master st inbox →
  ready needs_master (with_overlap_ (with_peerSet l (overlap_ st)) st) inbox.
Proof.
  intros Hperm Hready p Hp. simpl in Hp. rewrite Hperm in Hp.
  destruct (Hready p Hp) as [Hsend [Hbuf (values & Hin & Hreads)]].
  split; [done|]. split; [done|]. exists values. split; [done|].
  intros indices j d Hind Hj Hneed. by apply (Hreads indices j d).
Qed.

Lemma merge_all_same_rows (policy : Overlap → Z → list F → Z * F → list F)
    st1 st2 inbox :
  overlap_ st1 = overlap_ st2 → plans st1 = plans st2 → rows st1 = rows st2 →
  merge_all (policy (overlap_ st1)) st1 inbox
  = merge_all (policy (overlap_ st2)) st2 inbox.
Proof.
  intros Hov Hpl Hrows. unfold merge_all. rewrite Hov, Hrows.
  apply foldl_ext. intros r p. f_equal. apply incoming_plan, plans_recv. done.
Qed.

End peer_order.

(** ** Calls over the store *)

Section shared.
Context {F : Type} `{Block F}.
Implicit Types (s : Store F) (o this : Handle F) (x : Store F * Handle F).
Implicit Types (inbox : Z → option (list F)).

Lemma deref_view {T} (buffers : gmap Z T) (m : gmap Z Z) p :
  deref (omap (λ a, buffers !! a) m) p = deref_shared buffers m p.
Proof.
  unfold deref_shared, deref. rewrite lookup_omap.
  by destruct (m !! p) as [a|].
Qed.

Lemma deref_view_indicesSend s this p :
  deref (indicesSendBuff_ (view s this)) p
  = deref_shared (indexBuffers s) (h_indicesSendBuff_ this) p.
Proof. apply deref_view. Qed.

Lemma deref_view_indicesRecv s this p :
  deref (indicesRecvBuff_ (view s this)) p
  = deref_shared (indexBuffers s) (h_indicesRecvBuff_ this) p.
Proof. apply deref_view. Qed.

Lemma deref_view_valuesSend s this p :
  deref (valuesSendBuff_ (view s this)) p
  = deref_shared (valueBuffers s) (h_valuesSendBuff_ this) p.
Proof. apply deref_view. Qed.

Lemma deref_view_valuesRecv s this p :
  deref (valuesRecvBuff_ (view s this)) p
  = deref_shared (valueBuffers s) (h_valuesRecvBuff_ this) p.
Proof. apply deref_view. Qed.

Lemma viewed_Ok (m : outcome (Store F * Handle F)) st :
  viewed m = Ok st ↔ ∃ x, m = Ok x ∧ view_of x = st.
Proof.
  unfold viewed. destruct m as [x|f]; simpl.
  - split; [intros [= <-]; eauto|by intros (? & [= <-] & ->)].
  - split; [done|by intros (? & ? & _)].
Qed.

(** A value buffer of the object is replaced: the view changes at the rank
    whose pointer names the buffer, and nowhere else. *)
Lemma omap_insert_named (vb : gmap Z (list F)) (m : gmap Z Z) p a values :
  m !! p = Some a → (∀ q, m !! q = Some a → q = p) →
  omap (λ a', <[a := values]> vb !! a') m
  = <[p := values]> (omap (λ a', vb !! a') m).
Proof.
  intros Hp Honly. apply map_eq. intros q. rewrite lookup_omap.
  destruct (decide (q = p)) as [->|Hne].
  - rewrite Hp, lookup_insert_eq. simpl. by rewrite lookup_insert_eq.
  - rewrite lookup_insert_ne, lookup_omap by done.
    destruct (m !! q) as [a'|] eqn:Hq; [|done]. simpl.
    rewrite lookup_insert_ne; [done|]. intros <-. by apply Hne, Honly.
Qed.

Lemma omap_insert_unnamed (vb : gmap Z (list F)) (m : gmap Z Z) a values :
  (∀ q, m !! q ≠ Some a) →
  omap (λ a', <[a := values]> vb !! a') m = omap (λ a', vb !! a') m.
Proof.
  intros Hnone. apply map_eq. intros q. rewrite !lookup_omap.
  destruct (m !! q) as [a'|] eqn:Hq; [|done]. simpl.
  rewrite lookup_insert_ne; [done|]. intros <-. by apply (Hnone q).
Qed.

Lemma sendEntries_shared_view p s this :
  separated this →
  viewed (sendEntries_shared p (s, this)) = sendEntries_ p (view s this).
Proof.
  intros (Hsend & _ & Hcross). unfold viewed, sendEntries_shared, sendEntries_.
  rewrite deref_view_indicesSend, deref_view_valuesSend.
  destruct (deref_shared (indexBuffers s) (h_indicesSendBuff_ this) p)
    as [indices|f]; simpl; [|done].
  unfold deref_shared.
  destruct (deref (h_valuesSendBuff_ this) p) as [a|f] eqn:Ha; simpl; [|done].
  apply deref_Ok in Ha.
  destruct (deref (valueBuffers s) a) as [values|f]; simpl; [|done].
  destruct (for_ 0 (length indices) _ values) as [values'|f]; simpl; [|done].
  f_equal. unfold view_of, view, with_valuesSendBuff_. simpl. f_equal.
  - apply omap_insert_named; [done|]. intros q Hq. by apply (Hsend q p a).
  - apply omap_insert_unnamed. intros q. by apply (Hcross p q a).
Qed.

Lemma receiveFromMaster_shared_view inbox p s this :
  separated this →
  viewed (receiveFromMaster_shared inbox p (s, this))
  = receiveFromMaster_ inbox p (view s this).
Proof.
  intros (_ & Hrecv & Hcross).
  unfold viewed, receiveFromMaster_shared, receiveFromMaster_.
  rewrite deref_view_indicesRecv, deref_view_valuesRecv.
  destruct (deref_shared (indexBuffers s) (h_indicesRecvBuff_ this) p)
    as [indices|f]; simpl; [|done].
  unfold deref_shared.
  destruct (deref (h_valuesRecvBuff_ this) p) as [a|f] eqn:Ha; simpl; [|done].
  apply deref_Ok in Ha.
  destruct (deref (valueBuffers s) a) as [values0|f]; simpl; [|done].
  destruct (receive values0 (inbox p)) as [values|f]; simpl; [|done].
  destruct (for_ 0 (length indices) _ (h_rows this)) as [rows'|f];
    simpl; [|done]. f_equal.
  unfold view_of, view, with_rows, with_valuesRecvBuff_. simpl. f_equal.
  - apply omap_insert_unnamed. intros q Hq. by apply (Hcross q p a).
  - apply omap_insert_named; [done|]. intros q Hq. by apply (Hrecv q p a).
Qed.

Lemma kept_refl x : kept x x.
Proof. by split. Qed.

Lemma kept_trans x0 x1 x2 : kept x0 x1 → kept x1 x2 → kept x0 x2.
Proof.
  intros [(? & ? & ? & ? & ? & ?) ?] [(? & ? & ? & ? & ? & ?) ?].
  split; [|congruence]. unfold same_buffers. split_and!; congruence.
Qed.

Lemma separated_kept x0 x : kept x0 x → separated x0.2 → separated x.2.
Proof.
  intros [(_ & _ & _ & Hs & Hr & _) _]. unfold separated.
  by rewrite Hs, Hr.
Qed.

Lemma sendEntries_shared_kept p x x' :
  sendEntries_shared p x = Ok x' → kept x x'.
Proof.
  destruct x as [s this]. unfold sendEntries_shared. intros Hrun.
  apply bind_Ok in Hrun as (indices & _ & Hrun).
  apply bind_Ok in Hrun as (a & _ & Hrun).
  apply bind_Ok in Hrun as (values & _ & Hrun).
  apply bind_Ok in Hrun as (values' & _ & [= <-]). by split.
Qed.

Lemma receiveFromMaster_shared_kept inbox p x x' :
  receiveFromMaster_shared inbox p x = Ok x' → kept x x'.
Proof.
  destruct x as [s this]. unfold receiveFromMaster_shared. intros Hrun.
  apply bind_Ok in Hrun as (indices & _ & Hrun).
  apply bind_Ok in Hrun as (a & _ & Hrun).
  apply bind_Ok in Hrun as (values0 & _ & Hrun).
  apply bind_Ok in Hrun as (values & _ & Hrun).
  apply bind_Ok in Hrun as (rows' & _ & [= <-]). by split.
Qed.

(** A loop over the store and the loop of the embedding above. *)
Lemma for_each_view {X}
    (body_shared : X → Store F * Handle F → outcome (Store F * Handle F))
    (body : X → OverlappingBlockVector F → outcome (OverlappingBlockVector F))
    (l : list X) x0 x :
  separated x0.2 → kept x0 x →
  (∀ y t, separated t.2 → viewed (body_shared y t) = body y (view_of t)) →
  (∀ y t t', body_shared y t = Ok t' → kept t t') →
  viewed (for_each l body_shared x) = for_each l body (view_of x)
  ∧ ∀ x', for_each l body_shared x = Ok x' → kept x0 x'.
Proof.
  intros Hsep Hkept Hview Hframe. revert x Hkept.
  induction l as [|y l IH]; intros x Hkept; simpl; [split; [done|]|].
  { by intros x' [= <-]. }
  rewrite <-Hview by (by eapply separated_kept).
  destruct (body_shared y x) as [t|f] eqn:Hy; simpl; [|done].
  apply IH. eapply kept_trans; [done|]. by eapply Hframe.
Qed.

Lemma waitSendFinished_shared_view x :
  viewed (waitSendFinished_shared x) = waitSendFinished_ (view_of x)
  ∧ ∀ x', waitSendFinished_shared x = Ok x' → x' = x.
Proof.
  unfold waitSendFinished_shared, waitSendFinished_.
  change (peerSet (overlap_ (view_of x))) with (peerSet (h_overlap_ x.2)).
  generalize (peerSet (h_overlap_ x.2)). intros l.
  induction l as [|p l IH]; simpl; [split; [done|]|].
  { by intros x' [= <-]. }
  destruct x as [s this]. simpl in *. unfold view_of at 1. simpl.
  rewrite deref_view.
  destruct (deref_shared (valueBuffers s) (h_valuesSendBuff_ this) p)
    as [values|f]; simpl; [|done].
  apply IH.
Qed.

Lemma sync_shared_view inbox x :
  separated x.2 →
  viewed (sync_shared inbox x) = sync inbox (view_of x)
  ∧ ∀ x', sync_shared inbox x = Ok x' → kept x x'.
Proof.
  intros Hsep. unfold sync_shared, sync, sendAll_.
  change (peerSet (overlap_ (view_of x))) with (peerSet (h_overlap_ x.2)).
  destruct (for_each_view sendEntries_shared sendEntries_
              (peerSet (h_overlap_ x.2)) x x Hsep (kept_refl x))
    as [Hsend Hkept1].
  { intros p [s this] Ht. by apply sendEntries_shared_view. }
  { intros p t t'. apply sendEntries_shared_kept. }
  rewrite <-Hsend.
  destruct (for_each _ sendEntries_shared x) as [x1|f] eqn:Hx1; simpl; [|done].
  specialize (Hkept1 x1 eq_refl).
  destruct (for_each_view (receiveFromMaster_shared inbox)
              (receiveFromMaster_ inbox)
              (peerSet (h_overlap_ x.2)) x x1 Hsep Hkept1)
    as [Hrecv Hkept2].
  { intros p [s this] Ht. by apply receiveFromMaster_shared_view. }
  { intros p t t'. apply receiveFromMaster_shared_kept. }
  rewrite <-Hrecv.
  destruct (for_each _ (receiveFromMaster_shared inbox) x1) as [x2|f] eqn:Hx2;
    simpl; [|done].
  specialize (Hkept2 x2 eq_refl).
  destruct (waitSendFinished_shared_view x2) as [Hwait Hsame].
  split; [done|]. intros x' Hx'. by rewrite (Hsame x' Hx').
Qed.

(** Two views that differ in the content of the value buffers only. *)
Lemma view_same_shape s s' o o' :
  same_buffers o o' → length (h_rows o) = length (h_rows o') →
  indexBuffers s' = indexBuffers s →
  (∀ a, length <$> valueBuffers s' !! a = length <$> valueBuffers s !! a) →
  same_shape (view s o) (view s' o').
Proof.
  intros (Hn & Hi & Hr & Hvs & Hvr & Hov) Hlen Hidx Hsz.
  split; simpl; [done| |done| |].
  - unfold plans. simpl. by rewrite Hn, Hi, Hr, Hidx.
  - intros p. rewrite !lookup_omap, Hvs.
    destruct (h_valuesSendBuff_ o' !! p) as [a|]; [|done]. simpl.
    symmetry. apply Hsz.
  - intros p. rewrite !lookup_omap, Hvr.
    destruct (h_valuesRecvBuff_ o' !! p) as [a|]; [|done]. simpl.
    symmetry. apply Hsz.
Qed.

End shared.

Section shared_more.
Context {F : Type} `{Block F}.
Implicit Types (s : Store F) (o this : Handle F) (x : Store F * Handle F).
Implicit Types (inbox : Z → option (list F)).

(** The call over the store returns what the call of the embedding returns
    on the view. *)
Lemma sync_shared_Ok inbox x x' :
  separated x.2 → sync_shared inbox x = Ok x' →
  sync inbox (view_of x) = Ok (view_of x') ∧ kept x x'.
Proof.
  intros Hsep Hrun. destruct (sync_shared_view inbox x Hsep) as [Hview Hkept].
  split; [|by apply Hkept]. rewrite <-Hview, Hrun. done.
Qed.

(** Two stores under one object that differ in what the value buffers hold:
    a synchronisation that returns over one of them returns over the other,
    with the same rows. *)
Lemma sync_shared_scratch inbox s1 s2 o x1 :
  separated o → same_shape (view s1 o) (view s2 o) →
  sync_shared inbox (s1, o) = Ok x1 →
  ∃ x2, sync_shared inbox (s2, o) = Ok x2 ∧ h_rows x2.2 = h_rows x1.2.
Proof.
  intros Hsep Hshape Hrun.
  apply sync_shared_Ok in Hrun as [Hrun _]; [|done].
  destruct (sync_returns inbox (view s2 o)) as [st2' Hrun'].
  { eapply ready_same_shape; [done|]. apply sync_ready. by eexists. }
  destruct (sync_shared_view inbox (s2, o) Hsep) as [Hview _].
  unfold view_of at 1 in Hview. simpl in Hview. rewrite Hrun' in Hview.
  apply viewed_Ok in Hview as (x2 & Hx2 & Hst2).
  exists x2. split; [done|].
  change (h_rows x2.2) with (rows (view_of x2)).
  change (h_rows x1.2) with (rows (view_of x1)). rewrite Hst2.
  apply sync_spec in Hrun as (-> & _). apply sync_spec in Hrun' as (-> & _).
  symmetry. apply (merge_all_same_rows merge_from_master);
    [apply (shape_overlap _ _ Hshape)|apply (shape_plans _ _ Hshape)|done].
Qed.

(** The shape of a view does not depend on the rows of the handle beyond
    their number, nor on the handle beyond its pointers. *)
Lemma view_same_pointers s o o' :
  same_buffers o o' →
  plans (view s o) = plans (view s o')
  ∧ valuesSendBuff_ (view s o) = valuesSendBuff_ (view s o')
  ∧ valuesRecvBuff_ (view s o) = valuesRecvBuff_ (view s o')
  ∧ indicesSendBuff_ (view s o) = indicesSendBuff_ (view s o')
  ∧ overlap_ (view s o) = overlap_ (view s o').
Proof.
  intros (Hn & Hi & Hr & Hvs & Hvr & Hov). unfold plans. simpl.
  by rewrite Hn, Hi, Hr, Hvs, Hvr, Hov.
Qed.

End shared_more.

(** ** [FlashRateVector::setMassRate] *)

Section FlashRateVector_properties.
Context {Evaluation Scalar : Type}.
Context (divide : Evaluation → Scalar → Evaluation).
Context (molarMass : Z → Scalar).
Context (conti0EqIdx numComponents : Z).

Lemma setMassRate_spec value this rate :
  setMassRate divide molarMass conti0EqIdx numComponents value this = Ok rate →
  length rate = length value
  ∧ (∀ c, 0 ≤ c < numComponents →
       0 ≤ conti0EqIdx + c
       ∧ ∃ old, value !! Z.to_nat (conti0EqIdx + c) = Some old
                ∧ rate !! Z.to_nat (conti0EqIdx + c)
                  = Some (divide old (molarMass c)))
  ∧ (∀ k, ¬ (conti0EqIdx ≤ Z.of_nat k < conti0EqIdx + numComponents) →
       rate !! k = value !! k).
Proof.
  unfold setMassRate, setMolarRate. intros Hrun.
  apply bind_Ok in Hrun as (molarRate & Hloop & [= <-]).
  apply (for_ind (λ j r,
      length r = length value
      ∧ (∀ c, 0 ≤ c < Z.of_nat j →
           0 ≤ conti0EqIdx + c
           ∧ ∃ old, value !! Z.to_nat (conti0EqIdx + c) = Some old
                    ∧ r !! Z.to_nat (conti0EqIdx + c)
                      = Some (divide old (molarMass c)))
      ∧ (∀ k, ¬ (conti0EqIdx ≤ Z.of_nat k < conti0EqIdx + Z.of_nat j) →
           r !! k = value !! k))) in Hloop.
  - simpl in Hloop. destruct Hloop as (Hlen & Hdone & Hrest).
    split_and!; [done| |].
    + intros c Hc. apply Hdone. lia.
    + intros k Hk. apply Hrest. lia.
  - split_and!; [done| |done]. intros c ?. lia.
  - intros j r r' Hj (Hlen & Hdone & Hrest) Hstep. simpl in Hstep.
    apply bind_Ok in Hstep
      as (old & [Hpos Hold]%vec_at_Ok & [Hrange ->]%vec_set_Ok).
    split_and!.
    + by rewrite length_insert.
    + intros c Hc. destruct (decide (c = Z.of_nat j)) as [->|Hne].
      * split; [done|]. exists old. split.
        -- rewrite <-Hold. symmetry. apply Hrest. lia.
        -- apply list_lookup_insert_eq. lia.
      * destruct (Hdone c) as (Hposc & oldc & Hvc & Hrc); [lia|].
        split; [done|]. exists oldc. split; [done|].
        rewrite list_lookup_insert_ne by lia. done.
    + intros k Hk. rewrite list_lookup_insert_ne by lia. apply Hrest. lia.
Qed.

Lemma setMassRate_returns value this :
  component_entries_exist conti0EqIdx numComponents value →
  is_Ok (setMassRate divide molarMass conti0EqIdx numComponents value this).
Proof.
  intros Hex. unfold setMassRate, setMolarRate.
  destruct (for_total (λ _ (r : list Evaluation), length r = length value)
    (λ k molarRate,
       let compIdx := Z.of_nat k in
       old ← vec_at molarRate (conti0EqIdx + compIdx);
       vec_set molarRate (conti0EqIdx + compIdx)
         (divide old (molarMass compIdx)))
    0%nat (Z.to_nat numComponents) value) as (r & Hrun & _); [done| |].
  - intros j r Hj Hlen. simpl.
    destruct Hex as [Hpos Hle]; [lia|].
    destruct (lookup_lt_is_Some_2 r (Z.to_nat (conti0EqIdx + Z.of_nat j)))
      as [old Hold]; [lia|].
    unfold vec_at, vec_set. rewrite decide_True, Hold by lia. simpl.
    rewrite decide_True by lia. eexists. split; [done|].
    by rewrite length_insert.
  - simpl in Hrun. rewrite Hrun. simpl. by eexists.
Qed.

Lemma setMassRate_needs value this :
  is_Ok (setMassRate divide molarMass conti0EqIdx numComponents value this) →
  component_entries_exist conti0EqIdx numComponents value.
Proof.
  intros [rate (Hlen & Hdone & _)%setMassRate_spec] Hpos.
  destruct (Hdone 0) as [Hfirst _]; [lia|].
  destruct (Hdone (numComponents - 1)) as (_ & old & Hold%lookup_lt_Some & _);
    lia.
Qed.

Lemma setMassRate_undefined_at_worst value this :
  undefined_at_worst
    (setMassRate divide molarMass conti0EqIdx numComponents value this).
Proof.
  unfold setMassRate, setMolarRate.
  apply undefined_at_worst_bind; [|intros ?; apply undefined_at_worst_Ok].
  apply undefined_at_worst_for_. intros j t. simpl.
  apply undefined_at_worst_bind; [apply undefined_at_worst_vec_at|].
  intros ?. apply undefined_at_worst_vec_set.
Qed.

End FlashRateVector_properties.

(** * The further properties *)

(** ** The send phase *)

(** X1.  [sendEntries_] copies into the value send buffer of a peer the rows
    that the send plan for this peer lists, position by position.  [sync],
    [syncAdd] and [syncAddBorder] send to every peer before they receive
    anything: after a call that returned, the value send buffer of every
    peer holds the rows as they were before the call, also those that the
    call has overwritten or added to, and the value send buffers of the
    ranks outside the peer set are untouched. *)
Theorem sync_family_sends_rows_held_at_call {F} `{Block F}
    (inbox : Z → option (list F)) (st st' : OverlappingBlockVector F) :
  sync inbox st = Ok st' ∨ syncAdd inbox st = Ok st'
  ∨ syncAddBorder inbox st = Ok st' →
  (∀ p, p ∈ peerSet (overlap_ st) →
     ∃ indices values,
       indicesSendBuff_ st !! p = Some indices
       ∧ valuesSendBuff_ st' !! p = Some values
       ∧ ∀ i idx, indices !! i = Some idx →
           0 ≤ idx ∧ is_Some (values !! i)
           ∧ values !! i = rows st !! Z.to_nat idx)
  ∧ (∀ p, p ∉ peerSet (overlap_ st) →
       valuesSendBuff_ st' !! p = valuesSendBuff_ st !! p).
Proof.
  intros Hcall.
  assert (∃ st1, sendAll_ st = Ok st1
                 ∧ valuesSendBuff_ st' = valuesSendBuff_ st1)
    as (st1 & Hsend & ->).
  { destruct Hcall as [Hrun|[Hrun|Hrun]].
    - by apply sync_spec in Hrun as (_ & _ & _ & ? & _).
    - by apply syncAdd_spec in Hrun as (_ & _ & _ & ? & _).
    - by apply syncAddBorder_spec in Hrun as (_ & _ & _ & ? & _). }
  apply sendAll_spec in Hsend as (_ & _ & Hdone & Hout). split; [|done].
  intros p Hp.
  destruct (Hdone p Hp) as (indices & values0 & values & ? & ? & ? & _ & ? & _).
  by exists indices, values.
Qed.

(** Process 0 sends its row 0 to both peers: the 5 it held before the
    call. *)
Lemma sync_family_sends_rows_held_at_call_witness :
  ∃ indices values,
    indicesSendBuff_ TwoPeers.object !! 2 = Some indices
    ∧ valuesSendBuff_ (TwoPeers.after [5; 10] 20) !! 2 = Some values
    ∧ ∀ i idx, indices !! i = Some idx →
        0 ≤ idx ∧ is_Some (values !! i)
        ∧ values !! i = rows TwoPeers.object !! Z.to_nat idx.
Proof.
  destruct (sync_family_sends_rows_held_at_call TwoPeers.inbox TwoPeers.object
              (TwoPeers.after [5; 10] 20)) as [Hsent _].
  - left. reflexivity.
  - apply (Hsent 2). simpl.
    apply elem_of_cons. right. apply elem_of_cons. by left.
Defined.

(** X2.  A peer without an index send buffer or without a value send buffer
    stops every synchronisation in its send phase:
    [indicesSendBuff_[peerRank]] or [valuesSendBuff_[peerRank]] is then a
    null pointer, which [sendEntries_] dereferences.  [sync], [syncAdd] and
    [syncAddBorder] end in undefined behaviour, whatever the peers have
    sent. *)
Theorem sync_family_needs_send_buffers {F} `{Block F}
    (inbox : Z → option (list F)) (st : OverlappingBlockVector F) (p : Z) :
  p ∈ peerSet (overlap_ st) →
  indicesSendBuff_ st !! p = None ∨ valuesSendBuff_ st !! p = None →
  sync inbox st = Fault UndefinedBehaviour
  ∧ syncAdd inbox st = Fault UndefinedBehaviour
  ∧ syncAddBorder inbox st = Fault UndefinedBehaviour.
Proof.
  intros Hp Hnone. unfold sync, syncAdd, syncAddBorder.
  by rewrite (sendAll__needs_buffers st p Hp Hnone).
Qed.

Lemma sync_family_needs_send_buffers_witness :
  sync TwoPeers.inbox (with_valuesSendBuff_ {[1 := [0]]} TwoPeers.object)
  = Fault UndefinedBehaviour.
Proof.
  destruct (sync_family_needs_send_buffers TwoPeers.inbox
              (with_valuesSendBuff_ {[1 := [0]]} TwoPeers.object) 2)
    as (Hsync & _).
  - simpl. apply elem_of_cons. right. apply elem_of_cons. by left.
  - right. reflexivity.
  - exact Hsync.
Defined.

(** ** When the calls return *)

(** X3.  [sync] returns exactly when the object and the inbox are ready for
    the overwrite-from-master policy: for every peer, the send plan fits
    into the value send buffer and names rows that exist, the receive plan
    and the value receive buffer are there, the message of the peer has the
    size of the value receive buffer, and wherever the receive plan names a
    row that the peer is the master of, the message holds a value and the
    row exists. *)
Theorem sync_returns_exactly_when_ready {F} `{Block F}
    (inbox : Z → option (list F)) (st : OverlappingBlockVector F) :
  is_Ok (sync inbox st) ↔ ready needs_master st inbox.
Proof. split; [apply sync_ready|apply sync_returns]. Qed.

(** X4.  [syncAdd] and [syncAddBorder] return exactly when the object and
    the inbox are ready with every position of every receive plan in use:
    they read a value and write a row at every position, whoever the master
    of the row is.  They need more than [sync], which returns whenever
    [syncAdd] does. *)
Theorem additive_syncs_return_exactly_when_ready {F} `{Block F}
    (inbox : Z → option (list F)) (st : OverlappingBlockVector F) :
  (is_Ok (syncAdd inbox st) ↔ ready needs_all st inbox)
  ∧ (is_Ok (syncAddBorder inbox st) ↔ ready needs_all st inbox)
  ∧ (is_Ok (syncAdd inbox st) → is_Ok (sync inbox st)).
Proof.
  split_and!.
  - split; [apply syncAdd_ready|apply syncAdd_returns].
  - split; [apply syncAddBorder_ready|apply syncAddBorder_returns].
  - intros Hready%syncAdd_ready. apply sync_returns.
    intros p Hp. destruct (Hready p Hp) as [Hsend [Hbuf (values & Hin & Hreads)]].
    split; [done|]. split; [done|]. exists values. split; [done|].
    intros indices j d Hind Hj _. by apply (Hreads indices j d).
Qed.

(** X5.  Every call keeps the shape of the object: [sync], [syncAdd],
    [syncAddBorder], [assign] and [assignAddBorder] return an object with
    the descriptor and the plans it had, as many rows, and value buffers of
    the same sizes.  The buffers of the constructor serve every later call:
    whether a later synchronisation returns is not changed by the calls in
    between. *)
Theorem calls_keep_the_object_fit {F} `{Block F}
    (inbox : Z → option (list F)) (nativeBlockVector : list F)
    (st st' : OverlappingBlockVector F) :
  sync inbox st = Ok st' ∨ syncAdd inbox st = Ok st'
  ∨ syncAddBorder inbox st = Ok st'
  ∨ assign inbox nativeBlockVector st = Ok st'
  ∨ assignAddBorder inbox nativeBlockVector st = Ok st' →
  same_shape st st'
  ∧ ∀ inbox' : Z → option (list F),
      (is_Ok (sync inbox' st') ↔ is_Ok (sync inbox' st))
      ∧ (is_Ok (syncAdd inbox' st') ↔ is_Ok (syncAdd inbox' st))
      ∧ (is_Ok (syncAddBorder inbox' st') ↔ is_Ok (syncAddBorder inbox' st)).
Proof.
  intros Hcall. assert (same_shape st st') as Hshape.
  { destruct Hcall as [Hrun|[Hrun|[Hrun|[Hrun|Hrun]]]].
    - by eapply sync_same_shape.
    - by eapply syncAdd_same_shape.
    - by eapply syncAddBorder_same_shape.
    - unfold assign in Hrun. apply bind_Ok in Hrun as (st1 & Hcopy & Hrun).
      eapply same_shape_trans; [by eapply assignLocalRows__same_shape|].
      by eapply sync_same_shape.
    - unfold assignAddBorder in Hrun.
      apply bind_Ok in Hrun as (st1 & Hcopy & Hrun).
      eapply same_shape_trans; [by eapply assignLocalRows__same_shape|].
      by eapply syncAddBorder_same_shape. }
  split; [done|]. intros inbox'.
  pose proof (same_shape_sym _ _ Hshape) as Hshape'.
  split_and!; split.
  - intros Hr%sync_ready. by eapply sync_returns, ready_same_shape.
  - intros Hr%sync_ready. by eapply sync_returns, ready_same_shape.
  - intros Hr%syncAdd_ready. by eapply syncAdd_returns, ready_same_shape.
  - intros Hr%syncAdd_ready. by eapply syncAdd_returns, ready_same_shape.
  - intros Hr%syncAddBorder_ready.
    by eapply syncAddBorder_returns, ready_same_shape.
  - intros Hr%syncAddBorder_ready.
    by eapply syncAddBorder_returns, ready_same_shape.
Qed.

Lemma calls_keep_the_object_fit_witness :
  same_shape TwoPeers.object (TwoPeers.after [5; 36] 20)
  ∧ is_Ok (syncAdd TwoPeers.inbox' (TwoPeers.after [5; 36] 20)).
Proof.
  destruct (calls_keep_the_object_fit TwoPeers.inbox []
              TwoPeers.object (TwoPeers.after [5; 36] 20)) as [Hshape Hfit].
  - right. left. reflexivity.
  - split; [exact Hshape|]. apply (Hfit TwoPeers.inbox').
    eexists. reflexivity.
Defined.

(** X6.  The value buffers are scratch space.  Two objects with the same
    rows, descriptor and plans, and with value buffers of the same sizes,
    answer a synchronisation alike, whatever the value buffers hold: if the
    call returns on one of them, it returns on the other with the same
    rows.  What a call has left in the buffers is of no consequence for the
    next one. *)
Theorem value_buffers_are_scratch {F} `{Block F}
    (inbox : Z → option (list F)) (st1 st2 : OverlappingBlockVector F) :
  same_shape st1 st2 → rows st1 = rows st2 →
  (∀ st1', sync inbox st1 = Ok st1' →
     ∃ st2', sync inbox st2 = Ok st2' ∧ rows st2' = rows st1')
  ∧ (∀ st1', syncAdd inbox st1 = Ok st1' →
       ∃ st2', syncAdd inbox st2 = Ok st2' ∧ rows st2' = rows st1')
  ∧ (∀ st1', syncAddBorder inbox st1 = Ok st1' →
       ∃ st2', syncAddBorder inbox st2 = Ok st2' ∧ rows st2' = rows st1').
Proof.
  intros Hshape Hrows.
  pose proof (shape_overlap _ _ Hshape) as Hov.
  pose proof (shape_plans _ _ Hshape) as Hpl.
  split_and!; intros st1' Hrun.
  - destruct (sync_returns inbox st2) as [st2' Hrun'].
    { eapply ready_same_shape; [done|]. apply sync_ready. by eexists. }
    exists st2'. split; [done|].
    apply sync_spec in Hrun as (-> & _). apply sync_spec in Hrun' as (-> & _).
    symmetry. by apply (merge_all_same_rows merge_from_master).
  - destruct (syncAdd_returns inbox st2) as [st2' Hrun'].
    { eapply ready_same_shape; [done|]. apply syncAdd_ready. by eexists. }
    exists st2'. split; [done|].
    apply syncAdd_spec in Hrun as (-> & _).
    apply syncAdd_spec in Hrun' as (-> & _).
    symmetry. by apply (merge_all_same_rows (λ _ _, merge_add)).
  - destruct (syncAddBorder_returns inbox st2) as [st2' Hrun'].
    { eapply ready_same_shape; [done|]. apply syncAddBorder_ready.
      by eexists. }
    exists st2'. split; [done|].
    apply syncAddBorder_spec in Hrun as (-> & _).
    apply syncAddBorder_spec in Hrun' as (-> & _).
    symmetry. by apply (merge_all_same_rows merge_add_border).
Qed.

Lemma value_buffers_are_scratch_witness :
  ∃ st2', syncAddBorder TwoPeers.inbox (TwoPeers.after [5; 6] 99) = Ok st2'
          ∧ rows st2' = rows (TwoPeers.after [5; 20] 20).
Proof.
  destruct (value_buffers_are_scratch TwoPeers.inbox TwoPeers.object
              (TwoPeers.after [5; 6] 99)) as (_ & _ & Hborder).
  - split; [reflexivity..| |]; intros p; simpl;
      (destruct (decide (p = 1)) as [->|];
         [reflexivity|destruct (decide (p = 2)) as [->|]; [reflexivity|]]);
      by rewrite !lookup_insert_ne, !lookup_singleton_ne by done.
  - reflexivity.
  - apply Hborder. reflexivity.
Defined.

(** ** Processes without peers, builds without MPI *)

(** X7.  A process without peers exchanges nothing: the loops of [sync],
    [syncAdd] and [syncAddBorder] run over an empty peer set, so the calls
    return the object as it is, whatever the inbox holds, and [assign] and
    [assignAddBorder] are the copy of the local rows and nothing else. *)
Theorem no_peers_nothing_to_exchange {F} `{Block F}
    (inbox : Z → option (list F)) (nativeBlockVector : list F)
    (st : OverlappingBlockVector F) :
  peerSet (overlap_ st) = [] →
  sync inbox st = Ok st ∧ syncAdd inbox st = Ok st
  ∧ syncAddBorder inbox st = Ok st
  ∧ assign inbox nativeBlockVector st = assignLocalRows_ nativeBlockVector st
  ∧ assignAddBorder inbox nativeBlockVector st
    = assignLocalRows_ nativeBlockVector st.
Proof.
  intros Hnone.
  assert (∀ t : OverlappingBlockVector F, overlap_ t = overlap_ st →
            sync inbox t = Ok t ∧ syncAddBorder inbox t = Ok t) as Hsync.
  { intros t Hov.
    unfold sync, syncAddBorder, sendAll_, waitSendFinished_.
    rewrite Hov, Hnone. simpl. by rewrite Hov, Hnone. }
  split_and!.
  - by apply Hsync.
  - unfold syncAdd, sendAll_, waitSendFinished_. rewrite Hnone. simpl.
    by rewrite Hnone.
  - by apply Hsync.
  - unfold assign.
    destruct (assignLocalRows_ nativeBlockVector st) as [st1|f] eqn:Hcopy;
      [|done].
    apply assignLocalRows__spec in Hcopy as (Hov & _). simpl.
    by apply Hsync.
  - unfold assignAddBorder.
    destruct (assignLocalRows_ nativeBlockVector st) as [st1|f] eqn:Hcopy;
      [|done].
    apply assignLocalRows__spec in Hcopy as (Hov & _). simpl.
    by apply Hsync.
Qed.

Lemma no_peers_nothing_to_exchange_witness :
  sync (λ _, Some [7]) (Alone.object [1; 2]) = Ok (Alone.object [1; 2])
  ∧ syncAdd (λ _, Some [7]) (Alone.object [1; 2]) = Ok (Alone.object [1; 2])
  ∧ syncAddBorder (λ _, Some [7]) (Alone.object [1; 2])
    = Ok (Alone.object [1; 2])
  ∧ assign (λ _, Some [7]) [3; 4] (Alone.object [1; 2])
    = assignLocalRows_ [3; 4] (Alone.object [1; 2])
  ∧ assignAddBorder (λ _, Some [7]) [3; 4] (Alone.object [1; 2])
    = assignLocalRows_ [3; 4] (Alone.object [1; 2]).
Proof.
  apply (no_peers_nothing_to_exchange (λ _, Some [7]) [3; 4]
           (Alone.object [1; 2])).
  reflexivity.
Defined.

(** X8.  Without MPI ([HAVE_MPI] not set) the body of [createBuffers_] is
    empty: the constructor returns an object with [numDomestic()] rows and
    no buffer at all.  For a descriptor without peers this is the object
    that the build with MPI constructs, and [sync] returns it unchanged; for
    a descriptor with peers the first [sendEntries_] dereferences a null
    pointer. *)
Theorem without_MPI_only_a_lone_process_synchronises {F} `{Block F}
    (overlap : Overlap) (st : OverlappingBlockVector F)
    (handshakes : Z → Handshake) (inbox : Z → option (list F)) :
  OverlappingBlockVector_noMPI_ overlap = Ok st →
  0 ≤ numDomestic overlap
  ∧ Z.of_nat (length (rows st)) = numDomestic overlap
  ∧ overlap_ st = overlap
  ∧ (∀ p, indicesSendBuff_ st !! p = None ∧ indicesRecvBuff_ st !! p = None
          ∧ valuesSendBuff_ st !! p = None ∧ valuesRecvBuff_ st !! p = None)
  ∧ (peerSet overlap = [] →
       OverlappingBlockVector_ handshakes overlap = Ok st
       ∧ sync inbox st = Ok st)
  ∧ (peerSet overlap ≠ [] → sync inbox st = Fault UndefinedBehaviour).
Proof.
  unfold OverlappingBlockVector_noMPI_, createBuffers_noMPI_. intros Hrun.
  apply bind_Ok in Hrun as (rows0 & [Hpos ->]%newBuffer_Ok & [= <-]). simpl.
  split_and!; [done|rewrite length_replicate; lia|done|done| |].
  - intros Hnone. unfold OverlappingBlockVector_, createBuffers_.
    rewrite newBuffer_nonneg, bind_Ok_l by done. simpl. rewrite Hnone. simpl.
    split; [done|]. unfold sync, sendAll_, waitSendFinished_. simpl.
    by repeat (rewrite Hnone; simpl).
  - intros Hsome. destruct (peerSet overlap) as [|p l] eqn:Hpeers; [done|].
    unfold sync. rewrite (sendAll__needs_buffers _ p); [done| |by left].
    simpl. rewrite Hpeers. by left.
Qed.

Lemma without_MPI_only_a_lone_process_synchronises_witness :
  sync TwoPeers.inbox
    {| rows := [0; 0]; numIndicesSendBuff_ := ∅; indicesSendBuff_ := ∅;
       indicesRecvBuff_ := ∅; valuesSendBuff_ := ∅; valuesRecvBuff_ := ∅;
       overlap_ := TwoPeers.overlap |}
  = Fault UndefinedBehaviour.
Proof.
  destruct (without_MPI_only_a_lone_process_synchronises TwoPeers.overlap
              {| rows := [0; 0]; numIndicesSendBuff_ := ∅;
                 indicesSendBuff_ := ∅; indicesRecvBuff_ := ∅;
                 valuesSendBuff_ := ∅; valuesRecvBuff_ := ∅;
                 overlap_ := TwoPeers.overlap |}
              (λ _, {| countMsg := None; indicesMsg := None |})
              TwoPeers.inbox) as (_ & _ & _ & _ & _ & Hfault).
  - reflexivity.
  - apply Hfault. done.
Defined.

(** ** Single rows *)

(** X9.  The rows after [sync] do not depend on the order in which the peer
    set is iterated: a row is written only with values of its master rank,
    so the writes of two peers never meet in a row.  The call on an object
    whose descriptor lists the same peers in another order returns as well,
    with the same rows. *)
Theorem sync_rows_do_not_depend_on_peer_order {F} `{Block F}
    (inbox : Z → option (list F)) (st st' : OverlappingBlockVector F)
    (l : list Z) :
  NoDup (peerSet (overlap_ st)) → l ≡ₚ peerSet (overlap_ st) →
  sync inbox st = Ok st' →
  ∃ st'', sync inbox (with_overlap_ (with_peerSet l (overlap_ st)) st) = Ok st''
          ∧ rows st'' = rows st'.
Proof.
  intros Hnodup Hperm Hrun.
  destruct (sync_returns inbox
              (with_overlap_ (with_peerSet l (overlap_ st)) st))
    as [st'' Hrun'].
  { apply ready_master_peer_order; [done|]. apply sync_ready. by eexists. }
  exists st''. split; [done|].
  apply sync_spec in Hrun as (-> & _). apply sync_spec in Hrun' as (-> & _).
  rewrite !merge_all_from_master. apply list_eq. intros k.
  etrans; [apply write_all_lookup_filter|].
  symmetry. etrans; [apply write_all_lookup_filter|].
  simpl. by rewrite master_writes_peer_order.
Qed.

Lemma sync_rows_do_not_depend_on_peer_order_witness :
  ∃ st'', sync TwoPeers.inbox
            (with_overlap_ (with_peerSet [2; 1] TwoPeers.overlap)
               TwoPeers.object) = Ok st''
          ∧ rows st'' = [5; 10].
Proof.
  apply (sync_rows_do_not_depend_on_peer_order TwoPeers.inbox TwoPeers.object
           (TwoPeers.after [5; 10] 20) [2; 1]).
  - apply NoDup_cons_2; [|apply NoDup_singleton].
    by intros ?%list_elem_of_singleton.
  - apply perm_swap.
  - reflexivity.
Defined.

(** X10.  [syncAdd] changes a row only through the receive plans.  A row
    that no receive plan lists keeps its value.  A row that the plans list
    once, at position [j] of the plan for peer [q], ends as the sum of its
    value before the call and of the value at position [j] of the message
    of [q]. *)
Theorem syncAdd_adds_to_listed_rows_only {F} `{Block F}
    (inbox : Z → option (list F)) (st st' : OverlappingBlockVector F) (d : Z) :
  syncAdd inbox st = Ok st' →
  NoDup (peerSet (overlap_ st)) → 0 ≤ d →
  (unlisted st d → rows st' !! Z.to_nat d = rows st !! Z.to_nat d)
  ∧ (∀ q j, listed_once st q j d →
       ∃ old v,
         rows st !! Z.to_nat d = Some old
         ∧ inbox q ≫= (λ values, values !! j) = Some v
         ∧ rows st' !! Z.to_nat d = Some (add old v)).
Proof.
  intros Hrun Hnodup Hd.
  pose proof Hrun as (Hrows & _)%syncAdd_spec. rewrite Hrows. split.
  - apply merge_all_unlisted; [|done]. intros _. apply merge_add_row_local.
  - intros q j Honce.
    pose proof Honce as (Hq & (indices & Hind & Hj) & _).
    destruct (reads_all_value st inbox q indices j d)
      as [Hrange [v Hv]]; [by eapply syncAdd_reads|done..|].
    destruct (lookup_lt_is_Some_2 (rows st) (Z.to_nat d)) as [old Hold]; [lia|].
    exists old, v. split_and!; [done..|].
    rewrite (merge_all_listed_once _ (λ old, add old v) st inbox q j d v);
      try done.
    + by rewrite Hold.
    + intros _. apply merge_add_row_local.
    + intros r. by apply merge_add_at.
Qed.

Lemma syncAdd_adds_to_listed_rows_only_witness :
  rows (TwoProcesses.object0 [1; 7; 2] [3; 1] [4; 2]) !! Z.to_nat 0
  = rows (TwoProcesses.object0 [1; 3; 0] [0; 0] [0; 0]) !! Z.to_nat 0
  ∧ ∃ old v,
      rows (TwoProcesses.object0 [1; 3; 0] [0; 0] [0; 0]) !! Z.to_nat 1 = Some old
      ∧ Some [4; 2] ≫= (λ values : list Z, values !! 0%nat) = Some v
      ∧ rows (TwoProcesses.object0 [1; 7; 2] [3; 1] [4; 2]) !! Z.to_nat 1
        = Some (add old v).
Proof.
  assert (syncAdd (λ _, Some [4; 2])
            (TwoProcesses.object0 [1; 3; 0] [0; 0] [0; 0])
          = Ok (TwoProcesses.object0 [1; 7; 2] [3; 1] [4; 2])) as Hrun
    by reflexivity.
  assert (NoDup (peerSet (overlap_ (TwoProcesses.object0 [1; 3; 0] [0; 0] [0; 0]))))
    as Hnodup by (apply NoDup_singleton).
  split.
  - destruct (syncAdd_adds_to_listed_rows_only _ _ _ 0 Hrun Hnodup) as [Hun _];
      [lia|].
    apply Hun. intros q indices j ->%list_elem_of_singleton [= <-].
    by destruct j as [|[|j]].
  - destruct (syncAdd_adds_to_listed_rows_only _ _ _ 1 Hrun Hnodup)
      as [_ Honce]; [lia|].
    apply (Honce 1 0%nat). split_and!.
    + by apply list_elem_of_singleton.
    + by exists [1; 2].
    + intros q' indices' j' ->%list_elem_of_singleton [= <-].
      by destruct j' as [|[|j']].
Defined.

(** X11.  [syncAddBorder] changes a row only through the receive plans.  A
    row that no receive plan lists keeps its value.  A row that the plans
    list once, at position [j] of the plan for peer [q], ends as the sum of
    its value before the call and of the value at position [j] of the
    message of [q] if [isBorderWith(row, q)] holds, and as that value alone
    if not. *)
Theorem syncAddBorder_adds_on_the_border_only {F} `{Block F}
    (inbox : Z → option (list F)) (st st' : OverlappingBlockVector F) (d : Z) :
  syncAddBorder inbox st = Ok st' →
  NoDup (peerSet (overlap_ st)) → 0 ≤ d →
  (unlisted st d → rows st' !! Z.to_nat d = rows st !! Z.to_nat d)
  ∧ (∀ q j, listed_once st q j d →
       ∃ old v,
         rows st !! Z.to_nat d = Some old
         ∧ inbox q ≫= (λ values, values !! j) = Some v
         ∧ rows st' !! Z.to_nat d
           = Some (if isBorderWith (overlap_ st) d q then add old v else v)).
Proof. apply syncAddBorder_row. Qed.

Lemma syncAddBorder_adds_on_the_border_only_witness :
  ∃ old v,
    rows (TwoProcesses.object0 [1; 3; 8] [0; 0] [0; 0]) !! Z.to_nat 2 = Some old
    ∧ Some [4; 2] ≫= (λ values : list Z, values !! 1%nat) = Some v
    ∧ rows (TwoProcesses.object0 [1; 7; 2] [3; 1] [4; 2]) !! Z.to_nat 2
      = Some (if isBorderWith TwoProcesses.overlap0 2 1 then add old v else v).
Proof.
  destruct (syncAddBorder_adds_on_the_border_only (λ _, Some [4; 2])
              (TwoProcesses.object0 [1; 3; 8] [0; 0] [0; 0])
              (TwoProcesses.object0 [1; 7; 2] [3; 1] [4; 2]) 2) as [_ Honce].
  - reflexivity.
  - apply NoDup_singleton.
  - lia.
  - apply (Honce 1 1%nat). split_and!.
    + by apply list_elem_of_singleton.
    + by exists [1; 2].
    + intros q' indices' j' ->%list_elem_of_singleton [= <-].
      by destruct j' as [|[|j']].
Defined.

(** X12.  [assignAddBorder] adds up the native contributions on the border.
    When every process calls [assignAddBorder] on its native vector, a
    border row of a process shared with peer [q] that the receive plans list
    once, at position [j], ends as the sum of two native values: the one the
    process has copied into the row, and the one that [q] has copied into
    the row at position [j] of its send plan for the process.  (A peer sends
    its rows after the copy of its local rows and before it receives
    anything.) *)
Theorem assignAddBorder_sums_native_contributions {F} `{Block F}
    (W : gmap Z (OverlappingBlockVector F)) (V : Z → list F) (p q : Z)
    (st st' stq : OverlappingBlockVector F) (j : nat) (d d' : Z)
    (indicesq : list Z) :
  W !! q = Some stq →
  assignAddBorder (inbox_assign W V p) (V p) st = Ok st' →
  NoDup (peerSet (overlap_ st)) →
  0 ≤ d < numDomestic (overlap_ st) →
  listed_once st q j d → isBorderWith (overlap_ st) d q = true →
  indicesSendBuff_ stq !! p = Some indicesq → indicesq !! j = Some d' →
  d' < numDomestic (overlap_ stq) →
  ∃ own theirs,
    (if decide (domesticToNative (overlap_ st) d < 0) then Some zero
     else V p !! Z.to_nat (domesticToNative (overlap_ st) d)) = Some own
    ∧ (if decide (domesticToNative (overlap_ stq) d' < 0) then Some zero
       else V q !! Z.to_nat (domesticToNative (overlap_ stq) d'))
      = Some theirs
    ∧ rows st' !! Z.to_nat d = Some (add own theirs).
Proof.
  intros Hq Hrun Hnodup Hd Honce Hborder Hindq Hd' Hrange'.
  destruct (assignAddBorder_row _ _ _ _ d Hrun Hnodup Hd)
    as (own & Hown & _ & Hlisted).
  destruct (Hlisted q j Honce) as (v & Hv & Hrow).
  rewrite Hborder in Hrow. exists own, v. split; [done|]. split; [|done].
  unfold inbox_assign in Hv. rewrite Hq in Hv.
  destruct (assignLocalRows_ (V q) stq) as [stq0|] eqn:Hcopy; [|done].
  destruct (sent_to stq0 p) as [m|] eqn:Hsent; [|done]. simpl in Hv.
  apply sent_to_Some in Hsent
    as (_ & _ & indices0 & _ & _ & _ & Hind0 & _ & (_ & Hvals & _)).
  apply assignLocalRows__spec in Hcopy
    as (_ & Hplq & _ & _ & _ & Hcopied & _).
  rewrite (plans_send _ _ Hplq) in Hind0.
  assert (indices0 = indicesq) as -> by congruence.
  destruct (Hvals j d' Hd') as (Hpos' & _ & Hm).
  destruct (Hcopied (Z.to_nat d')) as [_ Hrowq]; [lia|].
  rewrite Hv in Hm. rewrite Hm, Hrowq. unfold local_row.
  by rewrite Z2Nat.id by lia.
Qed.

Lemma assignAddBorder_sums_native_contributions_witness :
  ∃ own theirs,
    TwoProcesses.natives 0 !! 1%nat = Some own
    ∧ TwoProcesses.natives 1 !! 0%nat = Some theirs
    ∧ rows (TwoProcesses.object0 [1; 7; 2] [3; 1] [4; 2]) !! Z.to_nat 1
      = Some (add own theirs).
Proof.
  apply (assignAddBorder_sums_native_contributions
           (TwoProcesses.world [0; 0; 0] [0; 0; 0]) TwoProcesses.natives 0 1
           (TwoProcesses.object0 [0; 0; 0] [0; 0] [0; 0])
           (TwoProcesses.object0 [1; 7; 2] [3; 1] [4; 2])
           (TwoProcesses.object1 [0; 0; 0] [0; 0] [0; 0]) 0 1 0 [0; 1]).
  - reflexivity.
  - reflexivity.
  - apply NoDup_singleton.
  - simpl. lia.
  - split_and!.
    + by apply list_elem_of_singleton.
    + by exists [1; 2].
    + intros q' indices' j' ->%list_elem_of_singleton [= <-].
      by destruct j' as [|[|j']].
  - reflexivity.
  - reflexivity.
  - reflexivity.
  - simpl. lia.
Defined.

(** ** Import and export *)

(** X13.  [assign] and [assignAddBorder] return exactly when the copy of the
    local rows and the synchronisation that follows can: the object has at
    least [numDomestic()] rows, every domestic row translates to a negative
    native index or to a row of the native vector, and the object and the
    inbox are ready for [sync], or for [syncAddBorder].  A native vector that is too
    short makes both calls undefined, before anything is sent. *)
Theorem assign_returns_exactly_when {F} `{Block F}
    (inbox : Z → option (list F)) (nativeBlockVector : list F)
    (st : OverlappingBlockVector F) :
  (is_Ok (assign inbox nativeBlockVector st)
   ↔ can_copy nativeBlockVector st ∧ ready needs_master st inbox)
  ∧ (is_Ok (assignAddBorder inbox nativeBlockVector st)
     ↔ can_copy nativeBlockVector st ∧ ready needs_all st inbox)
  ∧ (¬ can_copy nativeBlockVector st →
       assign inbox nativeBlockVector st = Fault UndefinedBehaviour
       ∧ assignAddBorder inbox nativeBlockVector st
         = Fault UndefinedBehaviour).
Proof.
  unfold assign, assignAddBorder.
  destruct (assignLocalRows_ nativeBlockVector st) as [st1|f] eqn:Hcopy.
  - assert (can_copy nativeBlockVector st) as Hcan.
    { apply assignLocalRows__can_copy. rewrite Hcopy. by eexists. }
    pose proof (assignLocalRows__same_shape _ _ _ Hcopy) as Hshape.
    pose proof (same_shape_sym _ _ Hshape) as Hshape'.
    rewrite !bind_Ok_l. split_and!; [split|split|done].
    + intros Hr%sync_ready. split; [done|]. by eapply ready_same_shape.
    + intros [_ Hr]. by eapply sync_returns, ready_same_shape.
    + intros Hr%syncAddBorder_ready. split; [done|].
      by eapply ready_same_shape.
    + intros [_ Hr]. by eapply syncAddBorder_returns, ready_same_shape.
  - assert (¬ can_copy nativeBlockVector st) as Hcan.
    { intros [st1 Hst1]%assignLocalRows__can_copy. congruence. }
    rewrite (assignLocalRows__undefined_at_worst _ _ _ Hcopy). simpl.
    split_and!; [split|split|done]; by intros [? ?].
Qed.

(** X14.  [assignTo] returns exactly when [numNative()] is not negative and
    every native row translates to a negative domestic index or to a row of
    the object; otherwise it is undefined.  Its outcome does not depend on
    the target: the target is resized and each of its entries is written,
    so nothing of what it held is left. *)
Theorem assignTo_ignores_what_the_target_held {F} `{Block F}
    (target1 target2 : list F) (st : OverlappingBlockVector F) :
  (is_Ok (assignTo target1 st) ↔ can_export st)
  ∧ (¬ can_export st → assignTo target1 st = Fault UndefinedBehaviour)
  ∧ assignTo target1 st = assignTo target2 st.
Proof.
  split; [apply assignTo_can_export|].
  assert (∀ t, ¬ can_export st → assignTo t st = Fault UndefinedBehaviour)
    as Hfault.
  { intros t Hnot. destruct (assignTo t st) as [r|f] eqn:Hrun.
    - destruct Hnot. apply (assignTo_can_export t). rewrite Hrun. by eexists.
    - f_equal. by apply (assignTo_undefined_at_worst t st). }
  split; [apply Hfault|].
  destruct (assignTo target1 st) as [[st1 out1]|f1] eqn:Hrun1.
  - assert (can_export st) as [[st2 out2] Hrun2]%(assignTo_can_export target2).
    { apply (assignTo_can_export target1). rewrite Hrun1. by eexists. }
    rewrite Hrun2.
    by destruct (assignTo_same_output _ _ _ _ _ _ _ Hrun1 Hrun2) as [-> ->].
  - assert (¬ can_export st) as Hnot.
    { intros [r Hr]%(assignTo_can_export target1). congruence. }
    rewrite <-Hrun1. by rewrite !Hfault.
Qed.

(** X15.  [assignTo] followed by [assign] of the exported vector.  A domestic
    row that no peer is the master of gets back the value it had if it has a
    native counterpart that translates back to it, and becomes zero if it
    has no native counterpart. *)
Theorem export_then_import_restores_owned_rows {F} `{Block F}
    (inbox : Z → option (list F)) (target out : list F)
    (st st1 st2 : OverlappingBlockVector F) (d : Z) :
  assignTo target st = Ok (st1, out) →
  assign inbox out st1 = Ok st2 →
  0 ≤ d < numDomestic (overlap_ st) →
  masterRank (overlap_ st) d ∉ peerSet (overlap_ st) →
  (0 ≤ domesticToNative (overlap_ st) d < numNative (overlap_ st) →
   nativeToDomestic (overlap_ st) (domesticToNative (overlap_ st) d) = d →
   is_Some (rows st2 !! Z.to_nat d)
   ∧ rows st2 !! Z.to_nat d = rows st !! Z.to_nat d)
  ∧ (domesticToNative (overlap_ st) d < 0 →
     rows st2 !! Z.to_nat d = Some zero).
Proof.
  unfold assign. intros Hexport Hassign Hd Hown.
  apply assignTo_spec in Hexport as (-> & _ & _ & Hout).
  apply bind_Ok in Hassign as (st0 & Hcopy & Hsync).
  apply assignLocalRows__spec in Hcopy
    as (Hov0 & _ & _ & _ & _ & Hcopied & _).
  destruct (Hcopied (Z.to_nat d)) as [Hsome0 Hrow0]; [lia|].
  assert (rows st2 !! Z.to_nat d = rows st0 !! Z.to_nat d) as Hrow2.
  { eapply sync_row_not_from_peer; [done|].
    by rewrite Hov0, Z2Nat.id by lia. }
  unfold local_row in Hrow0. rewrite Z2Nat.id in Hrow0 by lia.
  rewrite Hrow2. split.
  - intros Hn Hback. split; [done|].
    rewrite Hrow0, decide_False by lia.
    destruct (Hout (Z.to_nat (domesticToNative (overlap_ st) d)))
      as [_ ->]; [lia|].
    unfold native_row. rewrite Z2Nat.id, Hback by lia.
    by rewrite decide_False by lia.
  - intros Hneg. by rewrite Hrow0, decide_True.
Qed.

Lemma export_then_import_restores_owned_rows_witness :
  is_Some (rows (TwoProcesses.object0 [1; 3; 2] [3; 1] [4; 2]) !! Z.to_nat 1)
  ∧ rows (TwoProcesses.object0 [1; 3; 2] [3; 1] [4; 2]) !! Z.to_nat 1
    = rows (TwoProcesses.object0 [1; 3; 9] [0; 0] [0; 0]) !! Z.to_nat 1.
Proof.
  destruct (export_then_import_restores_owned_rows (λ _, Some [4; 2]) [] [1; 3]
              (TwoProcesses.object0 [1; 3; 9] [0; 0] [0; 0])
              (TwoProcesses.object0 [1; 3; 9] [0; 0] [0; 0])
              (TwoProcesses.object0 [1; 3; 2] [3; 1] [4; 2]) 1)
    as [Hback _].
  - reflexivity.
  - reflexivity.
  - simpl. lia.
  - simpl. by intros ?%list_elem_of_singleton.
  - apply Hback; [simpl; lia|reflexivity].
Defined.

(** ** Construction *)

(** X16.  The constructor sizes the buffers to the plans.  After a
    construction that returned, the object has [numDomestic()] rows, and for
    every peer: the count buffer holds [foreignOverlapSize(peer)]; the send
    plan has as many entries, the domestic indices that [globalToDomestic]
    answers for the global indices of the rows
    [foreignOverlapOffsetToDomesticIdx(peer, i)]; the receive plan
    translates the indices that the peer has announced; and each value
    buffer is as long as its plan.  A rank outside the peer set has no
    buffer. *)
Theorem constructor_sizes_buffers_to_plans {F} `{Block F}
    (inbox : Z → Handshake) (overlap : Overlap)
    (st : OverlappingBlockVector F) :
  NoDup (peerSet overlap) →
  OverlappingBlockVector_ inbox overlap = Ok st →
  overlap_ st = overlap
  ∧ Z.of_nat (length (rows st)) = numDomestic overlap
  ∧ (∀ p, p ∈ peerSet overlap →
       ∃ sendPlan sendValues announcedIndices recvPlan recvValues,
         numIndicesSendBuff_ st !! p = Some [foreignOverlapSize overlap p]
         ∧ indicesSendBuff_ st !! p = Some sendPlan
         ∧ valuesSendBuff_ st !! p = Some sendValues
         ∧ sendPlan = globalToDomestic overlap
                        <$> foreignOverlapGlobalIndices overlap p
         ∧ Z.of_nat (length sendPlan) = foreignOverlapSize overlap p
         ∧ length sendValues = length sendPlan
         ∧ indicesMsg (inbox p) = Some announcedIndices
         ∧ indicesRecvBuff_ st !! p = Some recvPlan
         ∧ valuesRecvBuff_ st !! p = Some recvValues
         ∧ recvPlan = globalToDomestic overlap <$> announcedIndices
         ∧ length recvValues = length recvPlan)
  ∧ (∀ p, p ∉ peerSet overlap →
       numIndicesSendBuff_ st !! p = None ∧ indicesSendBuff_ st !! p = None
       ∧ valuesSendBuff_ st !! p = None ∧ indicesRecvBuff_ st !! p = None
       ∧ valuesRecvBuff_ st !! p = None).
Proof.
  intros Hnodup Hrun.
  apply OverlappingBlockVector__result in Hrun
    as (Hov & Hpos & Hrows & Hpeers & Hout); [|done].
  split_and!; [done| |  |done].
  - rewrite Hrows, length_replicate. lia.
  - intros p Hp.
    destruct (Hpeers p Hp)
      as (Hsize & Hcnt & Hind & Hval & indices & [_ Hmsg] & Hri & Hrv).
    eexists _, _, indices, _, _. split_and!; try done.
    + unfold foreignOverlapGlobalIndices.
      rewrite !length_fmap, length_seq. lia.
    + unfold foreignOverlapGlobalIndices.
      by rewrite !length_fmap, length_seq, length_replicate.
    + by rewrite length_fmap, length_replicate.
Qed.

Lemma constructor_sizes_buffers_to_plans_witness :
  indicesSendBuff_ (TwoProcesses.object0 [0; 0; 0] [0; 0] [0; 0]) !! 1
  = Some (globalToDomestic TwoProcesses.overlap0
            <$> foreignOverlapGlobalIndices TwoProcesses.overlap0 1)
  ∧ foreignOverlapGlobalIndices TwoProcesses.overlap0 1 = [7; 10].
Proof.
  destruct (constructor_sizes_buffers_to_plans
              (λ _, TwoProcesses.handshake_of TwoProcesses.overlap1 0)
              TwoProcesses.overlap0
              (TwoProcesses.object0 [0; 0; 0] [0; 0] [0; 0]))
    as (_ & _ & Hpeers & _).
  - apply NoDup_singleton.
  - reflexivity.
  - destruct (Hpeers 1) as (sendPlan & ? & ? & ? & ? & _ & Hplan & _ & Heq & _).
    + by apply list_elem_of_singleton.
    + split; [|reflexivity]. rewrite Hplan. f_equal. exact Heq.
Defined.

(** X17.  Two processes that are peers of each other and construct their
    objects, the first with the handshake that the second sends, end with
    plans that list the same rows: the send plan of the second and the
    receive plan of the first translate the same global indices, position by
    position, each with its own [globalToDomestic].  The value send buffer of
    the second is as long as the value receive buffer of the first, so that
    the values of a later synchronisation fit. *)
Theorem peers_plans_list_the_same_rows {F} `{Block F}
    (overlapP overlapQ : Overlap) (p q : Z) (inboxP inboxQ : Z → Handshake)
    (stP stQ : OverlappingBlockVector F) :
  NoDup (peerSet overlapP) → NoDup (peerSet overlapQ) →
  p ∈ peerSet overlapQ → q ∈ peerSet overlapP →
  inboxP q = handshake_sent (F := F) overlapQ p →
  OverlappingBlockVector_ inboxP overlapP = Ok stP →
  OverlappingBlockVector_ inboxQ overlapQ = Ok stQ →
  ∃ sendPlan recvPlan sendValues recvValues,
    indicesSendBuff_ stQ !! p = Some sendPlan
    ∧ indicesRecvBuff_ stP !! q = Some recvPlan
    ∧ valuesSendBuff_ stQ !! p = Some sendValues
    ∧ valuesRecvBuff_ stP !! q = Some recvValues
    ∧ sendPlan = globalToDomestic overlapQ
                   <$> foreignOverlapGlobalIndices overlapQ p
    ∧ recvPlan = globalToDomestic overlapP
                   <$> foreignOverlapGlobalIndices overlapQ p
    ∧ length sendValues = length recvValues
    ∧ length recvValues = length recvPlan.
Proof.
  intros HnodupP Hnodup Hp Hq Hin HrunP HrunQ.
  destruct (handshake_sent_result inboxQ overlapQ stQ p HrunQ Hp)
    as [Hsent Hsize].
  apply OverlappingBlockVector__result in HrunQ
    as (_ & _ & _ & HpeersQ & _); [|done].
  destruct (HpeersQ p Hp) as (_ & _ & Hind & Hval & _).
  apply OverlappingBlockVector__result in HrunP
    as (_ & _ & _ & HpeersP & _); [|done].
  destruct (HpeersP q Hq) as (_ & _ & _ & _ & indices & [_ Hmsg] & Hri & Hrv).
  rewrite Hin, Hsent in Hmsg. simpl in Hmsg. injection Hmsg as <-.
  eexists _, _, _, _. split_and!; try done.
  - unfold foreignOverlapGlobalIndices.
    by rewrite !length_replicate, length_fmap, length_seq.
  - by rewrite length_replicate, length_fmap.
Qed.

Lemma peers_plans_list_the_same_rows_witness :
  ∃ sendPlan recvPlan sendValues recvValues,
    indicesSendBuff_ (TwoProcesses.object1 [0; 0; 0] [0; 0] [0; 0]) !! 0
    = Some sendPlan
    ∧ indicesRecvBuff_ (TwoProcesses.object0 [0; 0; 0] [0; 0] [0; 0]) !! 1
      = Some recvPlan
    ∧ valuesSendBuff_ (TwoProcesses.object1 [0; 0; 0] [0; 0] [0; 0]) !! 0
      = Some sendValues
    ∧ valuesRecvBuff_ (TwoProcesses.object0 [0; 0; 0] [0; 0] [0; 0]) !! 1
      = Some recvValues
    ∧ sendPlan = globalToDomestic TwoProcesses.overlap1
                   <$> foreignOverlapGlobalIndices TwoProcesses.overlap1 0
    ∧ recvPlan = globalToDomestic TwoProcesses.overlap0
                   <$> foreignOverlapGlobalIndices TwoProcesses.overlap1 0
    ∧ length sendValues = length recvValues
    ∧ length recvValues = length recvPlan.
Proof.
  apply (peers_plans_list_the_same_rows
           TwoProcesses.overlap0 TwoProcesses.overlap1 0 1
           (λ _, handshake_sent (F := Z) TwoProcesses.overlap1 0)
           (λ _, handshake_sent (F := Z) TwoProcesses.overlap0 1)).
  - apply NoDup_singleton.
  - apply NoDup_singleton.
  - by apply list_elem_of_singleton.
  - by apply list_elem_of_singleton.
  - reflexivity.
  - reflexivity.
  - reflexivity.
Defined.

(** X18.  A constructed object is ready for synchronisation.  If the
    descriptor translates every global index it announces and every index
    the peers announce to a domestic row, and every peer sends as many
    values as it has announced indices, then [sync], [syncAdd] and
    [syncAddBorder] return on the object that the constructor has built. *)
Theorem constructed_object_synchronises {F} `{Block F}
    (handshakes : Z → Handshake) (overlap : Overlap)
    (st : OverlappingBlockVector F) (inbox : Z → option (list F)) :
  NoDup (peerSet overlap) →
  OverlappingBlockVector_ handshakes overlap = Ok st →
  (∀ p g, p ∈ peerSet overlap →
     g ∈ foreignOverlapGlobalIndices overlap p →
     0 ≤ globalToDomestic overlap g < numDomestic overlap) →
  (∀ p announcedIndices,
     p ∈ peerSet overlap → indicesMsg (handshakes p) = Some announcedIndices →
     (∃ values, inbox p = Some values
                ∧ length values = length announcedIndices)
     ∧ ∀ g, g ∈ announcedIndices →
         0 ≤ globalToDomestic overlap g < numDomestic overlap) →
  is_Ok (sync inbox st) ∧ is_Ok (syncAdd inbox st)
  ∧ is_Ok (syncAddBorder inbox st).
Proof.
  intros Hnodup Hrun Hsendrange Hinbox.
  apply OverlappingBlockVector__result in Hrun
    as (Hov & Hpos & Hrows & Hpeers & _); [|done].
  assert (ready needs_all st inbox) as Hready.
  { intros p Hp. rewrite Hov in Hp.
    destruct (Hpeers p Hp)
      as (Hsize & _ & Hind & Hval & indices & [_ Hmsg] & Hri & Hrv).
    destruct (Hinbox p indices Hp Hmsg) as [(values & Hin & Hlen) Hrange].
    assert (length (rows st) = Z.to_nat (numDomestic overlap)) as Hlenrows.
    { by rewrite Hrows, length_replicate. }
    split; [|split].
    - eexists _, _. split_and!; [done..| |].
      + unfold foreignOverlapGlobalIndices.
        by rewrite !length_fmap, length_seq, length_replicate.
      + intros i idx (g & -> & Hg)%list_lookup_fmap_Some.
        rewrite Hlenrows, Z2Nat.id by done. apply (Hsendrange p g Hp).
        by eapply list_elem_of_lookup_2.
    - eexists _, _, values. split_and!; [done..|].
      by rewrite length_replicate.
    - exists values. split; [done|]. intros indices' j d Hind' Hj _.
      rewrite Hri in Hind'. injection Hind' as <-.
      apply list_lookup_fmap_Some in Hj as (g & -> & Hg). split.
      + apply lookup_lt_is_Some_2. rewrite Hlen. by eapply lookup_lt_Some.
      + rewrite Hlenrows, Z2Nat.id by done. apply Hrange.
        by eapply list_elem_of_lookup_2. }
  split_and!.
  - apply sync_returns. intros p Hp.
    destruct (Hready p Hp) as [Hsend [Hbuf (values & Hin & Hreads)]].
    split; [done|]. split; [done|]. exists values. split; [done|].
    intros indices j d Hind Hj _. by apply (Hreads indices j d).
  - by apply syncAdd_returns.
  - by apply syncAddBorder_returns.
Qed.

Lemma constructed_object_synchronises_witness :
  is_Ok (sync (λ _, Some [4; 2]) (TwoProcesses.object0 [0; 0; 0] [0; 0] [0; 0])).
Proof.
  destruct (constructed_object_synchronises
              (λ _, handshake_sent (F := Z) TwoProcesses.overlap1 0)
              TwoProcesses.overlap0
              (TwoProcesses.object0 [0; 0; 0] [0; 0] [0; 0])
              (λ _, Some [4; 2])) as (Hsync & _).
  - apply NoDup_singleton.
  - reflexivity.
  - intros p g ->%list_elem_of_singleton Hg.
    change (g ∈ [7; 10]) in Hg.
    apply elem_of_cons in Hg as [->|Hg]; [simpl; lia|].
    apply list_elem_of_singleton in Hg as ->. simpl. lia.
  - intros p announcedIndices ->%list_elem_of_singleton [= <-]. split.
    + by exists [4; 2].
    + intros g Hg.
      apply elem_of_cons in Hg as [->|Hg]; [simpl; lia|].
      apply list_elem_of_singleton in Hg as ->. simpl. lia.
  - exact Hsync.
Defined.

(** ** Copies *)

(** X19.  The copy constructor and the assignment operator copy the rows and
    the pointers, not the buffers: a copy works in the buffers of the
    original.  When a copy, whose rows may have been changed since, has
    synchronised, the pointers of both objects are what they were and the
    index buffers are unchanged, but the value send buffers of the original
    hold the rows of the copy at the positions of the send plans.  This does
    no harm to a later call on the original: [sync] returns on the original
    after the call of the copy exactly when it would have returned before
    it, with the same rows.  (The value buffers behind the pointers of the
    original are assumed distinct, as [createBuffers_] allocates them.) *)
Theorem copies_share_the_buffers {F} `{Block F}
    (inbox : Z → option (list F)) (s s' : Store F)
    (obv this c c' : Handle F) (r : list F) :
  separated obv →
  c = OverlappingBlockVector_copy obv ∨ c = operator_assign obv this →
  sync_shared inbox (s, with_h_rows r c) = Ok (s', c') →
  same_buffers obv c ∧ same_buffers obv c'
  ∧ indexBuffers s' = indexBuffers s
  ∧ (∀ p, p ∈ peerSet (h_overlap_ obv) →
       ∃ indices values,
         deref_shared (indexBuffers s) (h_indicesSendBuff_ obv) p = Ok indices
         ∧ deref_shared (valueBuffers s') (h_valuesSendBuff_ obv) p = Ok values
         ∧ ∀ i idx, indices !! i = Some idx →
             is_Some (values !! i) ∧ values !! i = r !! Z.to_nat idx)
  ∧ (∀ inbox' x1, sync_shared inbox' (s, obv) = Ok x1 →
       ∃ x2, sync_shared inbox' (s', obv) = Ok x2 ∧ h_rows x2.2 = h_rows x1.2)
  ∧ (∀ inbox' x2, sync_shared inbox' (s', obv) = Ok x2 →
       ∃ x1, sync_shared inbox' (s, obv) = Ok x1 ∧ h_rows x1.2 = h_rows x2.2).
Proof.
  intros Hsep Hc Hrun.
  assert (same_buffers obv c) as Hshared.
  { by destruct Hc as [->| ->]. }
  set (c0 := with_h_rows r c) in *.
  assert (kept (s, obv) (s, c0)) as Hkept0.
  { split; [|done]. destruct Hshared as (? & ? & ? & ? & ? & ?). by split_and!. }
  assert (separated c0) as Hsep0 by (by eapply (separated_kept (s, obv) (s, c0))).
  apply sync_shared_Ok in Hrun as [Hrun Hkept]; [|done].
  pose proof (kept_trans _ _ _ Hkept0 Hkept) as [Hshared' Hidx].
  simpl in Hshared', Hidx. unfold view_of in Hrun. simpl in Hrun.
  destruct (view_same_pointers s obv c0 (proj1 Hkept0))
    as (Hpl0 & Hvs0 & Hvr0 & Hind0 & Hov0).
  destruct (view_same_pointers s' obv c' Hshared')
    as (Hpl1 & Hvs1 & Hvr1 & Hind1 & Hov1).
  pose proof (sync_same_shape _ _ _ Hrun) as Hshape.
  assert (same_shape (view s obv) (view s' obv)) as Hshape0.
  { split; [done| |done| |].
    - by rewrite Hpl0, Hpl1, (shape_plans _ _ Hshape).
    - rewrite Hvs0, Hvs1. apply (shape_send _ _ Hshape).
    - rewrite Hvr0, Hvr1. apply (shape_recv _ _ Hshape). }
  split_and!; [done..| | |].
  - intros p Hp.
    apply sync_spec in Hrun as (_ & _ & _ & (st1 & Hsend & Hbuf) & _).
    apply sendAll_spec in Hsend as (_ & _ & Hdone & _).
    destruct (Hdone p) as (indices & values0 & values & Hi & _ & Hv & Hsent).
    { rewrite <-Hov0. done. }
    exists indices, values. split_and!.
    + rewrite <-deref_view_indicesSend, Hind0. by apply deref_Ok.
    + rewrite <-deref_view_valuesSend, Hvs1, Hbuf. by apply deref_Ok.
    + intros i idx Hidx'. destruct Hsent as (_ & Hsent & _).
      by destruct (Hsent i idx Hidx') as (_ & ? & ?).
  - intros inbox' x1. by apply sync_shared_scratch.
  - intros inbox' x2. apply sync_shared_scratch; [done|].
    by apply same_shape_sym.
Qed.

Lemma copies_share_the_buffers_witness :
  ∃ indices values,
    deref_shared (indexBuffers TwoPeersShared.store)
      (h_indicesSendBuff_ TwoPeersShared.original) 2 = Ok indices
    ∧ deref_shared (valueBuffers TwoPeersShared.store_after)
        (h_valuesSendBuff_ TwoPeersShared.original) 2 = Ok values
    ∧ ∀ i idx, indices !! i = Some idx →
        is_Some (values !! i) ∧ values !! i = [7; 8] !! Z.to_nat idx.
Proof.
  destruct (copies_share_the_buffers TwoPeers.inbox TwoPeersShared.store
              TwoPeersShared.store_after TwoPeersShared.original
              TwoPeersShared.original
              (OverlappingBlockVector_copy TwoPeersShared.original)
              (with_h_rows [7; 10]
                 (OverlappingBlockVector_copy TwoPeersShared.original))
              [7; 8])
    as (_ & _ & _ & Hsent & _).
  - unfold separated, TwoPeersShared.original. simpl.
    split_and!; intros p q a;
      rewrite !lookup_insert_Some, !lookup_singleton_Some; lia.
  - by left.
  - vm_compute. reflexivity.
  - apply Hsent. simpl. set_solver.
Defined.

(** ** [FlashRateVector] *)

(** X20.  [FlashRateVector::setMassRate] converts mass rates to molar rates:
    the entry of component [c], at index [conti0EqIdx + c], is the entry of
    the argument divided by [molarMass(c)], each component once; the entries
    of the other equations are those of the argument; what the vector held
    is overwritten.  The call returns exactly when the component entries lie
    within the vector, and is undefined otherwise. *)
Theorem setMassRate_divides_the_component_entries {Evaluation Scalar : Type}
    (divide : Evaluation → Scalar → Evaluation) (molarMass : Z → Scalar)
    (conti0EqIdx numComponents : Z) (value this : list Evaluation) :
  (is_Ok (setMassRate divide molarMass conti0EqIdx numComponents value this)
   ↔ component_entries_exist conti0EqIdx numComponents value)
  ∧ (¬ component_entries_exist conti0EqIdx numComponents value →
     setMassRate divide molarMass conti0EqIdx numComponents value this
     = Fault UndefinedBehaviour)
  ∧ ∀ rate,
      setMassRate divide molarMass conti0EqIdx numComponents value this
      = Ok rate →
      length rate = length value
      ∧ (∀ c, 0 ≤ c < numComponents →
           ∃ old, value !! Z.to_nat (conti0EqIdx + c) = Some old
                  ∧ rate !! Z.to_nat (conti0EqIdx + c)
                    = Some (divide old (molarMass c)))
      ∧ (∀ k, ¬ (conti0EqIdx ≤ Z.of_nat k < conti0EqIdx + numComponents) →
           rate !! k = value !! k).
Proof.
  split_and!.
  - split; [apply setMassRate_needs|apply setMassRate_returns].
  - intros Hnot.
    destruct (setMassRate _ _ _ _ value this) as [rate|f] eqn:Hrun.
    + destruct Hnot. eapply setMassRate_needs. rewrite Hrun. by eexists.
    + f_equal. by eapply setMassRate_undefined_at_worst.
  - intros rate (Hlen & Hdone & Hrest)%setMassRate_spec.
    split_and!; [done| |done].
    intros c Hc. by destruct (Hdone c Hc) as [_ ?].
Qed.

(** Two components from equation 1 on, with the molar masses 2 and 4: the
    rates 10 and 20 become 5 and 5, the entries 7 and 9 of the other
    equations are left alone, and what the vector held is overwritten. *)
Lemma setMassRate_divides_the_component_entries_witness :
  setMassRate Z.div (λ c, if decide (c = 0) then 2 else 4) 1 2
    [7; 10; 20; 9] [0; 0; 0; 0]
  = Ok [7; 5; 5; 9]
  ∧ length [7; 5; 5; 9] = length [7; 10; 20; 9].
Proof.
  split; [reflexivity|].
  destruct (setMassRate_divides_the_component_entries
              Z.div (λ c, if decide (c = 0) then 2 else 4) 1 2
              [7; 10; 20; 9] [0; 0; 0; 0]) as (_ & _ & Hrate).
  apply (Hrate [7; 5; 5; 9]). reflexivity.
Defined.
